(** * Point geometry library of the lazy-load demo (assets/libs/point-libs.js)

    A shallow embedding of [TSMT$Point], [TSMT$ApproxEqual] and
    [TSMT$PointUtils], and the properties the specification states about
    them; then the loader that fetches the library ([getExtension],
    [ADT$LazyLoadLibs]) and the handler of the application that calls it
    ([onReflect]), with further properties of all of these.

    JavaScript numbers are IEEE-754 binary64 values.  The library code is
    written once, over an interface [JSNumber] of the arithmetic it uses, and
    the interface has three implementations:

    - [Binary64]: Rocq's primitive floats, bit-for-bit the numbers the
      code runs on (rounding, overflow, signed zeros, NaN);
    - [Exact]: real numbers extended with NaN and the two infinities,
      i.e. the same special values without rounding or overflow, the
      arithmetic the specification's formulas are written in;
    - [ExactSigned]: the same with the two zeros [+0] and [-0], for the
      operations that go through [Math.atan2], which tells them apart.

    Properties that only depend on the structure of the code are proved for
    every implementation of the interface that satisfies four laws
    ([JSNumberLaws]), which [Binary64] and [Exact] do.  Algebraic
    properties are proved over [Exact], those of directions over
    [ExactSigned]; where rounding or overflow breaks them on the numbers
    the code really computes with, the failing input is evaluated over
    [Binary64]. *)

From Stdlib Require Import Floats ZArith String.
From stdpp Require Import gmap list strings.
From Stdlib Require Import Reals Lra.

(* ===================================================================== *)
(** * Part I: definitions                                                 *)
(* ===================================================================== *)

(** ** Numbers *)

(** The operations on numbers that the library uses.  [nlt], [nle] and
    [neq] are JavaScript's [<], [<=] and [==] on two numbers. *)
Class JSNumber (T : Type) := {
  ofZ : Z -> T;
  NaN : T;
  nadd : T -> T -> T;
  nsub : T -> T -> T;
  nmul : T -> T -> T;
  ndiv : T -> T -> T;
  Math_sqrt : T -> T;
  Math_abs : T -> T;
  nlt : T -> T -> bool;
  nle : T -> T -> bool;
  neq : T -> T -> bool;
  isNaN : T -> bool;
  isFinite : T -> bool
}.

(** The trigonometric part of [Math] used by [angle] and [project]. *)
Class JSTrig (T : Type) := {
  Math_PI : T;
  Math_atan2 : T -> T -> T;
  Math_cos : T -> T;
  Math_sin : T -> T
}.

(** [Math.max] of two numbers: NaN if either is, and [+0] above [-0]. *)
Class JSMax (T : Type) := {
  Math_max : T -> T -> T
}.

Declare Scope js_scope.
Delimit Scope js_scope with js.
Notation "x + y" := (nadd x y) : js_scope.
Notation "x - y" := (nsub x y) : js_scope.
Notation "x * y" := (nmul x y) : js_scope.
Notation "x / y" := (ndiv x y) : js_scope.
Notation "x <? y" := (nlt x y) (at level 70, no associativity) : js_scope.
Notation "x <=? y" := (nle x y) (at level 70, no associativity) : js_scope.
Notation "x >? y" := (nlt y x)
  (at level 70, no associativity, only parsing) : js_scope.
Notation "x >=? y" := (nle y x)
  (at level 70, no associativity, only parsing) : js_scope.
Notation "x ==? y" := (neq x y) (at level 70, no associativity) : js_scope.
Notation "# z" := (ofZ z) (at level 1, format "# z") : js_scope.

(** A decimal literal [m / 10^k], such as [0.001 = dec 1 3].  Both [m] and
    [10^k] are exactly representable for the literals of this library, so
    the one division rounds to the double nearest to the decimal, which is
    how JavaScript reads the literal (see [dec_literals_binary64]). *)
Definition dec {T} `{JSNumber T} (m : Z) (k : nat) : T :=
  (#m / #(10 ^ Z.of_nat k))%js.

Arguments dec : simpl never.

(** [Math.max] restricted to two numbers neither of which is NaN. *)
Definition larger {T} `{JSNumber T} (x y : T) : T :=
  if (x <? y)%js then y else x.

(** The four facts about the arithmetic that the structural proofs use. *)
Class JSNumberLaws (T : Type) `{JSNumber T} := {
  (** a sum of two squares has no sign to drop *)
  abs_sum_squares : forall x y : T,
    Math_abs (x * x + y * y)%js = (x * x + y * y)%js;
  (** [x <= y] excludes [y < x] *)
  nle_not_nlt : forall x y : T, (x <=? y)%js = true -> (y <? x)%js = false;
  (** the magnitude of a quotient is the quotient of the magnitudes *)
  abs_div : forall x y : T,
    Math_abs (x / y)%js = (Math_abs x / Math_abs y)%js;
  (** the literal [0] is a finite number *)
  zero_finite : isFinite (#0 : T)%js = true
}.

(** *** Exact arithmetic with the IEEE special values *)

Module Exact.

Local Open Scope R_scope.

Inductive xnum : Type :=
| XNaN
| XInf (neg : bool)
| XFin (r : R).

Definition Rltb (a b : R) : bool := if Rlt_dec a b then true else false.
Definition Rleb (a b : R) : bool := if Rle_dec a b then true else false.
Definition Reqb (a b : R) : bool := if Req_dec_T a b then true else false.

Definition xadd (a b : xnum) : xnum :=
  match a, b with
  | XNaN, _ | _, XNaN => XNaN
  | XInf s, XInf s' => if Bool.eqb s s' then XInf s else XNaN
  | XInf s, XFin _ => XInf s
  | XFin _, XInf s => XInf s
  | XFin x, XFin y => XFin (x + y)
  end.

Definition xsub (a b : xnum) : xnum :=
  match a, b with
  | XNaN, _ | _, XNaN => XNaN
  | XInf s, XInf s' => if Bool.eqb s s' then XNaN else XInf s
  | XInf s, XFin _ => XInf s
  | XFin _, XInf s => XInf (negb s)
  | XFin x, XFin y => XFin (x - y)
  end.

Definition xmul (a b : xnum) : xnum :=
  match a, b with
  | XNaN, _ | _, XNaN => XNaN
  | XInf s, XInf s' => XInf (xorb s s')
  | XInf s, XFin y => if Reqb y 0 then XNaN else XInf (xorb s (Rltb y 0))
  | XFin x, XInf s => if Reqb x 0 then XNaN else XInf (xorb (Rltb x 0) s)
  | XFin x, XFin y => XFin (x * y)
  end.

(** Zero carries no sign here: a nonzero number divided by zero is the
    infinity with the sign of the numerator. *)
Definition xdiv (a b : xnum) : xnum :=
  match a, b with
  | XNaN, _ | _, XNaN => XNaN
  | XInf _, XInf _ => XNaN
  | XInf s, XFin y => XInf (xorb s (Rltb y 0))
  | XFin _, XInf _ => XFin 0
  | XFin x, XFin y =>
      if Reqb y 0 then (if Reqb x 0 then XNaN else XInf (Rltb x 0))
      else XFin (x / y)
  end.

Definition xsqrt (a : xnum) : xnum :=
  match a with
  | XNaN => XNaN
  | XInf s => if s then XNaN else XInf false
  | XFin x => if Rltb x 0 then XNaN else XFin (sqrt x)
  end.

Definition xabs (a : xnum) : xnum :=
  match a with
  | XNaN => XNaN
  | XInf _ => XInf false
  | XFin x => XFin (Rabs x)
  end.

Definition xlt (a b : xnum) : bool :=
  match a, b with
  | XNaN, _ | _, XNaN => false
  | XInf s, XInf s' => s && negb s'
  | XInf s, XFin _ => s
  | XFin _, XInf s' => negb s'
  | XFin x, XFin y => Rltb x y
  end.

Definition xle (a b : xnum) : bool :=
  match a, b with
  | XNaN, _ | _, XNaN => false
  | XInf s, XInf s' => s || negb s'
  | XInf s, XFin _ => s
  | XFin _, XInf s' => negb s'
  | XFin x, XFin y => Rleb x y
  end.

Definition xeq (a b : xnum) : bool :=
  match a, b with
  | XNaN, _ | _, XNaN => false
  | XInf s, XInf s' => Bool.eqb s s'
  | XInf _, XFin _ | XFin _, XInf _ => false
  | XFin x, XFin y => Reqb x y
  end.

Definition xisNaN (a : xnum) : bool :=
  match a with XNaN => true | _ => false end.

Definition xisFinite (a : xnum) : bool :=
  match a with XFin _ => true | _ => false end.

#[export] Instance xnum_number : JSNumber xnum := {|
  ofZ z := XFin (IZR z);
  NaN := XNaN;
  nadd := xadd; nsub := xsub; nmul := xmul; ndiv := xdiv;
  Math_sqrt := xsqrt; Math_abs := xabs;
  nlt := xlt; nle := xle; neq := xeq;
  isNaN := xisNaN; isFinite := xisFinite
|}.

Definition xmax (a b : xnum) : xnum :=
  match a, b with
  | XNaN, _ | _, XNaN => XNaN
  | _, _ => if xlt a b then b else a
  end.

#[export] Instance xnum_max : JSMax xnum := {| Math_max := xmax |}.

End Exact.

(** *** Exact arithmetic with the two zeros

    [Math.atan2] tells [+0] from [-0], so the directions ([angle],
    [isParallel], [project]) are computed over exact arithmetic that keeps
    the sign of zero as IEEE-754 prescribes it. *)

Module ExactSigned.

Import Exact.
Local Open Scope R_scope.

(** [SReal 0] is [+0] and [SNeg0] is [-0]. *)
Inductive snum : Type :=
| SNaN
| SInf (neg : bool)
| SNeg0
| SReal (r : R).

(** The sign bit of a number. *)
Definition ssign (a : snum) : bool :=
  match a with
  | SNaN => false
  | SInf s => s
  | SNeg0 => true
  | SReal r => Rltb r 0
  end.

(** The real number a zero or a finite number stands for. *)
Definition sreal (a : snum) : R :=
  match a with
  | SReal r => r
  | SNaN | SInf _ | SNeg0 => 0
  end.

Definition szero (s : bool) : snum := if s then SNeg0 else SReal 0.

(** A finite result [r], which is the zero of sign [s] if [r] is zero. *)
Definition signed (s : bool) (r : R) : snum :=
  if Reqb r 0 then szero s else SReal r.

(** A sum that is zero is [+0], unless both terms are [-0]. *)
Definition sadd (a b : snum) : snum :=
  match a, b with
  | SNaN, _ | _, SNaN => SNaN
  | SInf s, SInf s' => if Bool.eqb s s' then SInf s else SNaN
  | SInf s, _ => SInf s
  | _, SInf s => SInf s
  | SNeg0, SNeg0 => SNeg0
  | SNeg0, SReal y => SReal y
  | SReal x, SNeg0 => SReal x
  | SReal x, SReal y => SReal (x + y)
  end.

(** A difference that is zero is [+0], unless it is [(-0) - (+0)]. *)
Definition ssub (a b : snum) : snum :=
  match a, b with
  | SNaN, _ | _, SNaN => SNaN
  | SInf s, SInf s' => if Bool.eqb s s' then SNaN else SInf s
  | SInf s, _ => SInf s
  | _, SInf s => SInf (negb s)
  | SNeg0, SNeg0 => SReal 0
  | SNeg0, SReal y => if Reqb y 0 then SNeg0 else SReal (- y)
  | SReal x, SNeg0 => SReal x
  | SReal x, SReal y => SReal (x - y)
  end.

(** The sign of a product or a quotient is the exclusive or of the signs
    of the operands, also when it is zero or infinite. *)
Definition smul (a b : snum) : snum :=
  match a, b with
  | SNaN, _ | _, SNaN => SNaN
  | SInf s, SInf s' => SInf (xorb s s')
  | SInf s, _ => if Reqb (sreal b) 0 then SNaN else SInf (xorb s (ssign b))
  | _, SInf s => if Reqb (sreal a) 0 then SNaN else SInf (xorb (ssign a) s)
  | _, _ => signed (xorb (ssign a) (ssign b)) (sreal a * sreal b)
  end.

Definition sdiv (a b : snum) : snum :=
  match a, b with
  | SNaN, _ | _, SNaN => SNaN
  | SInf _, SInf _ => SNaN
  | SInf s, _ => SInf (xorb s (ssign b))
  | _, SInf s => szero (xorb (ssign a) s)
  | _, _ =>
      if Reqb (sreal b) 0
      then (if Reqb (sreal a) 0 then SNaN
            else SInf (xorb (ssign a) (ssign b)))
      else signed (xorb (ssign a) (ssign b)) (sreal a / sreal b)
  end.

Definition ssqrt (a : snum) : snum :=
  match a with
  | SNaN => SNaN
  | SInf s => if s then SNaN else SInf false
  | SNeg0 => SNeg0
  | SReal x => if Rltb x 0 then SNaN else SReal (sqrt x)
  end.

Definition sabs (a : snum) : snum :=
  match a with
  | SNaN => SNaN
  | SInf _ => SInf false
  | SNeg0 => SReal 0
  | SReal x => SReal (Rabs x)
  end.

(** The comparisons hold the two zeros for equal. *)
Definition slt (a b : snum) : bool :=
  match a, b with
  | SNaN, _ | _, SNaN => false
  | SInf s, SInf s' => s && negb s'
  | SInf s, _ => s
  | _, SInf s' => negb s'
  | _, _ => Rltb (sreal a) (sreal b)
  end.

Definition sle (a b : snum) : bool :=
  match a, b with
  | SNaN, _ | _, SNaN => false
  | SInf s, SInf s' => s || negb s'
  | SInf s, _ => s
  | _, SInf s' => negb s'
  | _, _ => Rleb (sreal a) (sreal b)
  end.

Definition seq (a b : snum) : bool :=
  match a, b with
  | SNaN, _ | _, SNaN => false
  | SInf s, SInf s' => Bool.eqb s s'
  | SInf _, _ | _, SInf _ => false
  | _, _ => Reqb (sreal a) (sreal b)
  end.

Definition sisNaN (a : snum) : bool :=
  match a with SNaN => true | _ => false end.

Definition sisFinite (a : snum) : bool :=
  match a with SNeg0 | SReal _ => true | SNaN | SInf _ => false end.

#[export] Instance snum_number : JSNumber snum := {|
  ofZ z := SReal (IZR z);
  NaN := SNaN;
  nadd := sadd; nsub := ssub; nmul := smul; ndiv := sdiv;
  Math_sqrt := ssqrt; Math_abs := sabs;
  nlt := slt; nle := sle; neq := seq;
  isNaN := sisNaN; isFinite := sisFinite
|}.

(** [Math.atan2(y, x)] as ECMAScript tabulates it.  With [y] a zero the
    result is that zero when the sign bit of [x] is clear and [PI] with the
    sign of [y] when it is set; with [x] a zero and [y] not, the result is
    [PI/2] with the sign of [y]. *)
Definition satan2 (y x : snum) : snum :=
  match y, x with
  | SNaN, _ | _, SNaN => SNaN
  | SInf sy, SInf sx =>
      let q := if sx then (3 * PI / 4)%R else (PI / 4)%R in
      SReal (if sy then - q else q)
  | SInf sy, _ => SReal (if sy then - (PI / 2) else PI / 2)
  | SNeg0, _ => if ssign x then SReal (- PI) else SNeg0
  | SReal b, SInf sx =>
      if sx then SReal (if Rltb b 0 then - PI else PI)
      else szero (Rltb b 0)
  | SReal b, SNeg0 =>
      if Rltb 0 b then SReal (PI / 2)
      else if Rltb b 0 then SReal (- (PI / 2))
      else SReal PI
  | SReal b, SReal a =>
      if Rltb 0 a then SReal (atan (b / a))
      else if Rltb a 0 then
        SReal (if Rltb b 0 then atan (b / a) - PI else atan (b / a) + PI)
      else if Rltb 0 b then SReal (PI / 2)
      else if Rltb b 0 then SReal (- (PI / 2))
      else SReal 0
  end.

(** [Math.cos] and [Math.sin]: NaN on NaN and on the infinities;
    [sin(-0)] is [-0]. *)
Definition scos (a : snum) : snum :=
  match a with
  | SReal x => SReal (cos x)
  | SNeg0 => SReal 1
  | SNaN | SInf _ => SNaN
  end.

Definition ssin (a : snum) : snum :=
  match a with
  | SReal x => SReal (sin x)
  | SNeg0 => SNeg0
  | SNaN | SInf _ => SNaN
  end.

#[export] Instance snum_trig : JSTrig snum := {|
  Math_PI := SReal PI;
  Math_atan2 := satan2;
  Math_cos := scos;
  Math_sin := ssin
|}.

End ExactSigned.

(** *** Binary64 *)

Module Binary64.

Definition float_ofZ (z : Z) : float :=
  if (z <? 0)%Z then PrimFloat.opp (PrimFloat.of_uint63 (Uint63.of_Z (- z)))
  else PrimFloat.of_uint63 (Uint63.of_Z z).

#[export] Instance float_number : JSNumber float := {|
  ofZ := float_ofZ;
  NaN := PrimFloat.nan;
  nadd := PrimFloat.add; nsub := PrimFloat.sub;
  nmul := PrimFloat.mul; ndiv := PrimFloat.div;
  Math_sqrt := PrimFloat.sqrt; Math_abs := PrimFloat.abs;
  nlt := PrimFloat.ltb; nle := PrimFloat.leb; neq := PrimFloat.eqb;
  isNaN := PrimFloat.is_nan; isFinite := PrimFloat.is_finite
|}.

(** Two numbers neither of which is below the other are equal, or the two
    zeros: a first argument with the sign bit set is then [-0] or equals
    the second, which is the one returned. *)
Definition float_max (a b : float) : float :=
  if is_nan a || is_nan b then PrimFloat.nan
  else if PrimFloat.ltb a b then b
  else if PrimFloat.ltb b a then a
  else if get_sign a then b else a.

#[export] Instance float_max_instance : JSMax float := {|
  Math_max := float_max
|}.

(** The sign a [spec_float] carries, if it is not NaN. *)
Definition sign_is (s : bool) (f : spec_float) : Prop :=
  match f with
  | S754_nan => True
  | S754_zero s' | S754_infinity s' | S754_finite s' _ _ => s' = s
  end.

(** A [spec_float] that is a zero or a finite number. *)
Definition SFfinite (f : spec_float) : Prop :=
  match f with
  | S754_zero _ | S754_finite _ _ _ => True
  | S754_infinity _ | S754_nan => False
  end.

(** A [spec_float] that is a number and is not negative. *)
Definition SFnonneg (f : spec_float) : Prop :=
  match f with
  | S754_nan => False
  | S754_zero s | S754_infinity s | S754_finite s _ _ => s = false
  end.

End Binary64.

Import Exact ExactSigned Binary64.

(** ** Arguments a caller may leave out

    A parameter documented with type [A]: the caller passes a value, passes
    [null], or leaves it out ([undefined]). *)
Inductive arg (A : Type) : Type :=
| Undefined
| Null
| Given (a : A).
Arguments Undefined {A}.
Arguments Null {A}.
Arguments Given {A} a.

(** ** [TSMT$Point] *)

Module TSMT_Point.
Section TSMT_Point.
Context {T : Type} `{JSNumber T}.
(** [parseFloat] of the host; only [__assign] on a string uses it. *)
Context (parseFloat : string -> T).
Local Open Scope js_scope.

(** The own properties of an instance.  Coordinates are numbers, as the
    constructor documents its parameters. *)
Record TSMT_Point : Type := mkPoint {
  _x : T;
  _y : T;
  _invalidated : bool;
  _norm : T
}.

(** [length()]: the value returned and the instance afterwards. *)
Definition length (this : TSMT_Point) : T * TSMT_Point :=
  if _invalidated this then
    let n := Math_sqrt (_x this * _x this + _y this * _y this) in
    (n, {| _x := _x this; _y := _y this; _invalidated := false; _norm := n |})
  else (_norm this, this).

(** [new TSMT$Point(x, y)]; [None] is a parameter left out.  [_norm] has no
    value before [length] has run once, [NaN] stands for that. *)
Definition new (x y : option T) : TSMT_Point :=
  let x := match x with None => #0 | Some x => x end in
  let y := match y with None => #0 | Some y => y end in
  let this := {| _x := x; _y := y; _invalidated := true; _norm := NaN |} in
  let '(n, this) := length this in
  {| _x := _x this; _y := _y this;
     _invalidated := _invalidated this; _norm := n |}.

Definition clone (this : TSMT_Point) : TSMT_Point :=
  new (Some (_x this)) (Some (_y this)).

(** The getters of the accessor properties [x] and [y]. *)
Definition get_x (this : TSMT_Point) : T := _x this.
Definition get_y (this : TSMT_Point) : T := _y this.

(** What a setter may be handed, by [typeof]; [VOther] is every value
    whose [typeof] is none of the three the switch lists. *)
Inductive value : Type :=
| VNumber (v : T)
| VString (s : string)
| VBoolean (b : bool)
| VOther.

Definition __assign (v : value) : value :=
  match v with
  | VNumber v => VNumber (if negb (isNaN v) && isFinite v then v else #0)
  | VString s =>
      let t := parseFloat s in
      VNumber (if negb (isNaN t) then t else #0)
  | VBoolean b => VNumber (if b then #0 else #1)
  | VOther => VOther
  end.

(** The setters.  A value that [__assign] hands back unchanged is not a
    number; the instance then leaves the number-typed points modelled here,
    which is [None]. *)
Definition set_x (v : value) (this : TSMT_Point) : option TSMT_Point :=
  match __assign v with
  | VNumber n =>
      Some {| _x := n; _y := _y this; _invalidated := true;
              _norm := _norm this |}
  | _ => None
  end.

Definition set_y (v : value) (this : TSMT_Point) : option TSMT_Point :=
  match __assign v with
  | VNumber n =>
      Some {| _x := _x this; _y := n; _invalidated := true;
              _norm := _norm this |}
  | _ => None
  end.

(** The other two norms read the coordinates and leave the cache alone. *)
Definition l1Norm (this : TSMT_Point) : T :=
  Math_abs (_x this) + Math_abs (_y this).

Definition lInfNorm `{JSMax T} (this : TSMT_Point) : T :=
  let absX := Math_abs (_x this) in
  let absY := Math_abs (_y this) in
  Math_max absX absY.

(** The methods with a point argument read it through its getters. *)
Definition distance (this __point : TSMT_Point) : T :=
  let dx := get_x __point - _x this in
  let dy := get_y __point - _y this in
  Math_sqrt (dx * dx + dy * dy).

Definition dot (this point : TSMT_Point) : T :=
  _x this * get_x point + _y this * get_y point.

Definition cross (this point : TSMT_Point) : T :=
  _x this * get_y point - _y this * get_x point.

(** A method call that changes or reads the state of an instance, for
    statements about sequences of calls. *)
Inductive method : Type :=
| call_set_x (v : value)
| call_set_y (v : value)
| call_length.

(** The instance after the calls [ms], made in order; [None] when a setter
    was handed a value that is no number, string or boolean. *)
Fixpoint calls (ms : list method) (this : TSMT_Point) : option TSMT_Point :=
  match ms with
  | [] => Some this
  | call_set_x v :: ms => set_x v this ≫= calls ms
  | call_set_y v :: ms => set_y v this ≫= calls ms
  | call_length :: ms => calls ms (snd (length this))
  end.

End TSMT_Point.
Arguments TSMT_Point T : clear implicits.
Arguments value T : clear implicits.
Arguments method T : clear implicits.
End TSMT_Point.

(** ** [TSMT$ApproxEqual] *)

Module TSMT_ApproxEqual.
Section TSMT_ApproxEqual.
Context {T : Type} `{JSNumber T}.
Local Open Scope js_scope.

(** [compare(a, b, tol)] on arguments documented as numbers; [tol = None]
    is the call with two arguments. *)
Definition compare (a b : arg T) (tol : option T) : bool :=
  let tol := match tol with None => dec 1 3 | Some tol => tol end in
  match a, b with
  | Given a, Given b =>
      if isNaN a || isNaN b then false
      else if a ==? b then true
      else if Math_abs b >? Math_abs a then Math_abs ((a - b) / b) <=? tol
      else Math_abs ((a - b) / a) <=? tol
  | _, _ => false
  end.

End TSMT_ApproxEqual.
End TSMT_ApproxEqual.

(** ** [TSMT$PointUtils]: the operations that only read coordinates

    A [Point] is what such an operation reads from an argument: its [x] and
    its [y].  These operations are functions of the coordinates read. *)

Module TSMT_PointUtils.
Section Coordinates.
Context {T : Type} `{JSNumber T}.
Local Open Scope js_scope.

Record Point : Type := mkPt { x : T; y : T }.

Definition l2Norm (p0 p1 : arg Point) : T :=
  match p0, p1 with
  | Given p0, Given p1 =>
      let dx := p0.(x) - p1.(x) in
      let dy := p0.(y) - p1.(y) in
      Math_sqrt ((dx * dx) + (dy * dy))
  | _, _ => #0
  end.

Definition ratio (p0 p1 p2 : Point) : T :=
  let l1 := l2Norm (Given p0) (Given p1) in
  let l2 := l2Norm (Given p0) (Given p2) in
  l2 / l1.

Definition pointOnLine (p0 p1 p : Point) : bool :=
  let tx := #(-1) in
  let ty := #(-2) in
  let dx0 := p.(x) - p0.(x) in
  let dy0 := p.(y) - p0.(y) in
  let tx := if (Math_abs dx0 <? dec 1 8) && (Math_abs dy0 <? dec 1 8)
            then #0 else tx in
  let dx1 := p1.(x) - p.(x) in
  let dy1 := p1.(y) - p.(y) in
  let ty := if (Math_abs dx1 <? dec 1 8) && (Math_abs dy1 <? dec 1 8)
            then #1 else ty in
  if (tx ==? #0) || (ty ==? #1) then true
  else
    let dx := p1.(x) - p0.(x) in
    let dy := p1.(y) - p0.(y) in
    if Math_abs dx <? dec 1 8 then
      if Math_abs dy <? dec 1 8 then false
      else
        let ty := dy0 / (p1.(y) - p0.(y)) in
        (ty >=? #0) && (ty <=? #1)
    else
      let tx := dx0 / (p1.(x) - p0.(x)) in
      if Math_abs dy <? dec 1 8 then (tx >=? #0) && (tx <=? #1)
      else
        let ty := dy0 / (p1.(y) - p0.(y)) in
        if (tx >=? #0) && (tx <=? #1) && (ty >=? #0) && (ty <=? #1)
        then TSMT_ApproxEqual.compare (Given tx) (Given ty) (Some (dec 1 3))
        else false.

Definition isLeft (p0 p1 p2 : Point) : bool :=
  let amt := (p1.(x) - p0.(x)) * (p2.(y) - p0.(y))
             - (p2.(x) - p0.(x)) * (p1.(y) - p0.(y)) in
  amt >? #0.

Definition pointToLineDistancee (p0 p1 p : Point) : T :=
  let vx := p1.(x) - p0.(x) in
  let vy := p1.(y) - p0.(y) in
  let wx := p.(x) - p0.(x) in
  let wy := p.(y) - p0.(y) in
  let c1 := vx * wx + vy * wy in
  let c2 := vx * vx + vy * vy in
  let b := c1 / c2 in
  let px := p0.(x) + b * vx in
  let py := p0.(y) + b * vy in
  let dx := p.(x) - px in
  let dy := p.(y) - py in
  Math_sqrt (dx * dx + dy * dy).

Definition pointToSegmentDistance (p0 p1 p : Point) : T :=
  let vx := p1.(x) - p0.(x) in
  let vy := p1.(y) - p0.(y) in
  let wx := p.(x) - p0.(x) in
  let wy := p.(y) - p0.(y) in
  let c1 := wx * vx + wy * vy in
  if c1 <=? #0 then Math_sqrt (wx * wx + wy * wy)
  else
    let c2 := vx * vx + vy * vy in
    if c2 <=? c1 then
      let wx := p1.(x) - p.(x) in
      let wy := p1.(y) - p.(y) in
      Math_sqrt (wx * wx + wy * wy)
    else
      let b := c1 / c2 in
      let px := p0.(x) + b * vx in
      let py := p0.(y) + b * vy in
      let dx := p.(x) - px in
      let dy := p.(y) - py in
      Math_sqrt (dx * dx + dy * dy).

(** [pointSegmentProjection] returns [new TSMT$Point(..)]: the instance
    constructed. *)
Definition pointSegmentProjection (p0 p1 p : Point)
  : TSMT_Point.TSMT_Point T :=
  let p0x := p0.(x) in
  let p0y := p0.(y) in
  let p1x := p1.(x) in
  let p1y := p1.(y) in
  let px := p.(x) in
  let py := p.(y) in
  let dx := p1x - p0x in
  let dy := p1y - p0y in
  let d := dx * dx + dy * dy in
  if d <? dec 1 7 then TSMT_Point.new (Some p0x) (Some p0y)
  else
    let t := ((px - p0x) * (p1x - p0x) + (py - p0y) * (p1y - p0y)) / d in
    if t <? #0 then TSMT_Point.new (Some p0x) (Some p0y)
    else if t >? #1 then TSMT_Point.new (Some p1x) (Some p1y)
    else
      let px := (#1 - t) * p0x + t * p1x in
      let py := (#1 - t) * p0y + t * p1y in
      TSMT_Point.new (Some px) (Some py).

Section Trigonometry.
Context `{JSTrig T}.

(** [toDegree = None] is the call with two arguments. *)
Definition angle (p0 p1 : Point) (toDegree : option bool) : T :=
  let toDegree := match toDegree with None => true | Some b => b end in
  let value := Math_atan2 (p1.(y) - p0.(y)) (p1.(x) - p0.(x)) in
  if toDegree then #180 * value / Math_PI else value.

Definition isParallel (p0 p1 p2 p3 : Point) : bool :=
  let a1 := angle p0 p1 None in
  let a2 := angle p2 p3 None in
  TSMT_ApproxEqual.compare (Given a1) (Given a2) (Some (dec 1 4)).

(** [project] returns [new TSMT$Point(..)]: the instance constructed. *)
Definition project (p0 p1 : Point) (d : T) : TSMT_Point.TSMT_Point T :=
  let a := angle p0 p1 None in
  TSMT_Point.new (Some (p0.(x) + Math_cos a * d))
                 (Some (p0.(y) + Math_sin a * d)).

End Trigonometry.
End Coordinates.
Arguments Point T : clear implicits.

(** ** [TSMT$PointUtils] on the objects of the heap

    Points and point clouds are objects: a call receives references.  A
    point argument is an object literal [{x, y}] or a [TSMT$Point]
    instance, a cloud is an array of references to points.  Operations over
    arrays and operations that return objects are commands on the heap. *)

Definition loc : Type := positive.

Inductive error : Type :=
| TypeError
| Dangling.  (* a reference that is not in the heap; no program has one *)

Inductive outcome (A : Type) : Type :=
| Ok (a : A)
| Throw (e : error).
Arguments Ok {A} a.
Arguments Throw {A} e.

Section Heap.
Context {T : Type} `{JSNumber T}.
Local Open Scope js_scope.

Inductive object : Type :=
| OPoint (p : Point T)
| OTSMT_Point (p : TSMT_Point.TSMT_Point T)
| OArray (elems : list loc).

(** A command: the outcome it ends with, and the heap it leaves, also when
    it throws. *)
Definition M (A : Type) : Type :=
  gmap loc object -> outcome A * gmap loc object.

#[global] Instance M_ret : MRet M := fun A a h => (Ok a, h).
#[global] Instance M_bind : MBind M := fun A B f m h =>
  match m h with
  | (Ok a, h') => f a h'
  | (Throw e, h') => (Throw e, h')
  end.

Definition throw {A} (e : error) : M A := fun h => (Throw e, h).

Definition read (l : loc) : M object := fun h =>
  match h !! l with
  | Some o => (Ok o, h)
  | None => (Throw Dangling, h)
  end.

(** A new object, at a reference not in use. *)
Definition alloc (o : object) : M loc := fun h =>
  let l := fresh (dom h) in (Ok l, <[l := o]> h).

(** [o.x] and [o.y].  On a [TSMT$Point] these are the getters; an array has
    neither property and [undefined] is NaN in arithmetic and comparisons. *)
Definition load (l : loc) : M (Point T) :=
  o ← read l;
  mret (match o with
        | OPoint p => p
        | OTSMT_Point q => {| x := TSMT_Point.get_x q; y := TSMT_Point.get_y q |}
        | OArray _ => {| x := NaN; y := NaN |}
        end).

(** The same read through a value that may be [undefined] or [null],
    where reading a property throws. *)
Definition load_arg (a : arg loc) : M (Point T) :=
  match a with
  | Given l => load l
  | Undefined | Null => throw TypeError
  end.

(** A point argument that [l2Norm] tests with [!] before it reads it. *)
Definition load_opt (a : arg loc) : M (arg (Point T)) :=
  match a with
  | Given l => p ← load l; mret (Given p)
  | Undefined => mret Undefined
  | Null => mret Null
  end.

(** [o[i]]: the element of an array, [undefined] past its end and on an
    object that has no property of that name, as a point has none. *)
Definition index (l : loc) (i : nat) : M (arg loc) :=
  o ← read l;
  mret (match o with
        | OArray elems =>
            match elems !! i with Some e => Given e | None => Undefined end
        | OPoint _ | OTSMT_Point _ => Undefined
        end).

Definition index_arg (a : arg loc) (i : nat) : M (arg loc) :=
  match a with
  | Given l => index l i
  | Undefined | Null => throw TypeError
  end.

(** [o.length] as a loop bound: an object without it bounds no iteration. *)
Definition array_length (l : loc) : M nat :=
  o ← read l;
  mret (match o with OArray elems => List.length elems | _ => 0%nat end).

Definition push (arr e : loc) : M unit := fun h =>
  match h !! arr with
  | Some (OArray elems) => (Ok tt, <[arr := OArray (elems ++ [e])]> h)
  | Some _ => (Throw TypeError, h)
  | None => (Throw Dangling, h)
  end.

(** [for (i = i0; i < i0 + n; ++i) body], the variables the body assigns
    threaded through as [s]. *)
Fixpoint for_ {St : Type} (i n : nat) (body : nat -> St -> M St) (s : St)
  : M St :=
  match n with
  | O => mret s
  | S n' => s' ← body i s; for_ (S i) n' body s'
  end.

Definition bottomLeft (points : loc) : M nat :=
  len ← array_length points;
  for_ 0 len (fun i index_ =>
    pt ← index points i ≫= load_arg;
    cur ← index points index_ ≫= load_arg;
    if (pt.(y) <? cur.(y)) || ((pt.(y) <=? cur.(y)) && (pt.(x) <? cur.(x)))
    then mret i else mret index_) 0%nat.

Definition bottomRight (points : loc) : M nat :=
  len ← array_length points;
  for_ 0 len (fun i index_ =>
    pt ← index points i ≫= load_arg;
    cur ← index points index_ ≫= load_arg;
    if (pt.(y) <? cur.(y)) || ((pt.(y) <=? cur.(y)) && (pt.(x) >? cur.(x)))
    then mret i else mret index_) 0%nat.

Definition closestPointToLine (points p0 p1 : loc) : M nat :=
  P0 ← load p0;
  P1 ← load p1;
  let a := P0.(y) - P1.(y) in
  let b := P1.(x) - P0.(x) in
  let c := P0.(x) * P1.(y) - P1.(x) * P0.(y) in
  len ← array_length points;
  first ← index points 0 ≫= load_arg;
  let minIndex := 0%nat in
  let min := Math_abs (a * first.(x) + b * first.(y) + c) in
  '(minIndex, _) ← for_ 1 (len - 1) (fun i '(minIndex, min) =>
    p ← index points i;
    q ← index_arg p i ≫= load_arg;          (* p[i].x, p[i].y *)
    let d := Math_abs (a * q.(x) + b * q.(y) + c) in
    if d <? min then mret (i, d) else mret (minIndex, min)) (minIndex, min);
  mret minIndex.

(** The body of the loop of [reflect]: [a], [b], [x0], [y0] and the new
    array [out] are the variables it reads. *)
Definition reflect_body (points out : loc) (a b x0 y0 : T)
  (i : nat) (_ : unit) : M unit :=
  p ← index points i ≫= load_arg;
  let dx := p.(x) - x0 in
  let dy := p.(y) - y0 in
  let p1x := a * dx + b * dy + x0 in
  let p1y := b * dx - a * dy + y0 in
  q ← alloc (OTSMT_Point (TSMT_Point.new (Some p1x) (Some p1y)));
  push out q.

Definition reflect (points p0 p1 : loc) : M loc :=
  P0 ← load p0;
  P1 ← load p1;
  let x0 := P0.(x) in
  let y0 := P0.(y) in
  let x1 := P1.(x) in
  let y1 := P1.(y) in
  let dx := x1 - x0 in
  let dy := y1 - y0 in
  let d := dx * dx + dy * dy in
  if Math_abs d <? dec 1 8 then mret points
  else
    let a := (dx * dx - dy * dy) / d in
    let b := #2 * dx * dy / d in
    len ← array_length points;
    out ← alloc (OArray []);
    for_ 0 len (reflect_body points out a b x0 y0) tt;;
    mret out.

(** *** Reading the heap in statements *)

(** The coordinates of a point object. *)
Definition coords (o : object) : option (Point T) :=
  match o with
  | OPoint p => Some p
  | OTSMT_Point q =>
      Some {| x := TSMT_Point.get_x q; y := TSMT_Point.get_y q |}
  | OArray _ => None
  end.

Definition point_at (h : gmap loc object) (l : loc) : option (Point T) :=
  h !! l ≫= coords.

(** The coordinates of the elements of a cloud, in order. *)
Definition cloud_at (h : gmap loc object) (l : loc)
  : option (list (Point T)) :=
  match h !! l with
  | Some (OArray elems) => mapM (point_at h) elems
  | _ => None
  end.

(** An object that is a [TSMT$Point] instance and was not in [h]. *)
Definition new_point (h h' : gmap loc object) (l : loc) : Prop :=
  h !! l = None /\ exists q, h' !! l = Some (OTSMT_Point q).

(** Every object of [h] other than [out] is in [h'], unchanged. *)
Definition unchanged_off (out : loc) (h h' : gmap loc object) : Prop :=
  forall l o, l <> out -> h !! l = Some o -> h' !! l = Some o.

(** A command that leaves the heap as it found it, however it ends. *)
Definition readonly {A} (m : M A) : Prop :=
  forall h, snd (m h) = h.

(** A point both of whose coordinates are finite numbers. *)
Definition finite_point (p : Point T) : Prop :=
  isFinite p.(x) && isFinite p.(y) = true.

(** The squared length of [P1 - P0] as [reflect] computes it. *)
Definition squared_length (P0 P1 : Point T) : T :=
  (P1.(x) - P0.(x)) * (P1.(x) - P0.(x)) + (P1.(y) - P0.(y)) * (P1.(y) - P0.(y)).

(** The element the specification prescribes for [reflect]: the Householder
    reflection of [p] about the line through [P0] and [P1]. *)
Definition householder (P0 P1 p : Point T) : Point T :=
  let dx := P1.(x) - P0.(x) in
  let dy := P1.(y) - P0.(y) in
  let d := dx * dx + dy * dy in
  let a := (dx * dx - dy * dy) / d in
  let b := #2 * dx * dy / d in
  let u := p.(x) - P0.(x) in
  let v := p.(y) - P0.(y) in
  {| x := a * u + b * v + P0.(x); y := b * u - a * v + P0.(y) |}.

(** *** The whole surface *)

Section Surface.
Context `{JSTrig T}.

Inductive call : Type :=
| call_l2Norm (p0 p1 : arg loc)
| call_angle (p0 p1 : loc) (toDegree : option bool)
| call_ratio (p0 p1 p2 : loc)
| call_isParallel (p0 p1 p2 p3 : loc)
| call_pointOnLine (p0 p1 p : loc)
| call_isLeft (p0 p1 p2 : loc)
| call_project (p0 p1 : loc) (d : T)
| call_bottomLeft (points : loc)
| call_bottomRight (points : loc)
| call_closestPointToLine (points p0 p1 : loc)
| call_pointToLineDistancee (p0 p1 p : loc)
| call_pointToSegmentDistance (p0 p1 p : loc)
| call_pointSegmentProjection (p0 p1 p : loc)
| call_reflect (points p0 p1 : loc).

Inductive result : Type :=
| RNumber (n : T)
| RIndex (i : nat)
| RBoolean (b : bool)
| RPoint (l : loc)
| RCloud (l : loc).

(** A call of the library on references: the coordinates are read from
    the heap and an instance the operation constructs is allocated. *)
Definition invoke (c : call) : M result :=
  match c with
  | call_l2Norm p0 p1 =>
      P0 ← load_opt p0; P1 ← load_opt p1; mret (RNumber (l2Norm P0 P1))
  | call_angle p0 p1 toDegree =>
      P0 ← load p0; P1 ← load p1; mret (RNumber (angle P0 P1 toDegree))
  | call_ratio p0 p1 p2 =>
      P0 ← load p0; P1 ← load p1; P2 ← load p2;
      mret (RNumber (ratio P0 P1 P2))
  | call_isParallel p0 p1 p2 p3 =>
      P0 ← load p0; P1 ← load p1; P2 ← load p2; P3 ← load p3;
      mret (RBoolean (isParallel P0 P1 P2 P3))
  | call_pointOnLine p0 p1 p =>
      P0 ← load p0; P1 ← load p1; P ← load p;
      mret (RBoolean (pointOnLine P0 P1 P))
  | call_isLeft p0 p1 p2 =>
      P0 ← load p0; P1 ← load p1; P2 ← load p2;
      mret (RBoolean (isLeft P0 P1 P2))
  | call_project p0 p1 d =>
      P0 ← load p0; P1 ← load p1;
      l ← alloc (OTSMT_Point (project P0 P1 d)); mret (RPoint l)
  | call_bottomLeft points => i ← bottomLeft points; mret (RIndex i)
  | call_bottomRight points => i ← bottomRight points; mret (RIndex i)
  | call_closestPointToLine points p0 p1 =>
      i ← closestPointToLine points p0 p1; mret (RIndex i)
  | call_pointToLineDistancee p0 p1 p =>
      P0 ← load p0; P1 ← load p1; P ← load p;
      mret (RNumber (pointToLineDistancee P0 P1 P))
  | call_pointToSegmentDistance p0 p1 p =>
      P0 ← load p0; P1 ← load p1; P ← load p;
      mret (RNumber (pointToSegmentDistance P0 P1 P))
  | call_pointSegmentProjection p0 p1 p =>
      P0 ← load p0; P1 ← load p1; P ← load p;
      l ← alloc (OTSMT_Point (pointSegmentProjection P0 P1 P));
      mret (RPoint l)
  | call_reflect points p0 p1 => l ← reflect points p0 p1; mret (RCloud l)
  end.

End Surface.
End Heap.
Arguments object T : clear implicits.
Arguments M T A : clear implicits.
Arguments call T : clear implicits.
Arguments result T : clear implicits.
End TSMT_PointUtils.

(** ** Concrete inputs *)

Import TSMT_PointUtils.

(** A point with double coordinates, one with finite exact ones, and
    one with exact coordinates neither of which is [-0]. *)
Abbreviation pt a b := {| x := a%float; y := b%float |}.
Abbreviation fin a b := {| x := XFin a; y := XFin b |}.
Abbreviation real_pt a b := {| x := SReal a; y := SReal b |}.

(** A scene: the two points of a line at the references [ref_p0] and
    [ref_p1], a cloud at [ref_points], its points at the references that
    follow, all of them object literals. *)
Definition ref_p0 : loc := 1%positive.
Definition ref_p1 : loc := 2%positive.
Definition ref_points : loc := 3%positive.

Section Scenes.
Context {T : Type} `{JSNumber T}.

Definition point_of (c : Z * Z) : Point T :=
  {| x := ofZ (fst c); y := ofZ (snd c) |}.

Fixpoint store_points (l : loc) (ps : list (Point T))
  (h : gmap loc (object T)) : list loc * gmap loc (object T) :=
  match ps with
  | [] => ([], h)
  | p :: ps =>
      let '(ls, h') := store_points (Pos.succ l) ps (<[l := OPoint p]> h) in
      (l :: ls, h')
  end.

Definition scene (P0 P1 : Point T) (cloud : list (Point T))
  : gmap loc (object T) :=
  let '(ls, h) :=
    store_points 4%positive cloud
      (<[ref_p0 := OPoint P0]> (<[ref_p1 := OPoint P1]> ∅)) in
  <[ref_points := OArray ls]> h.

End Scenes.

(** The cloud and the line of the demo application (app.component.ts). *)
Definition demo_cloud : list (Z * Z) :=
  [(20, 10); (30, 45); (100, 100); (24, 125); (50, 50); (150, 35);
   (200, 90); (180, 150); (220, 30); (75, 150); (100, 180)]%Z.

Definition demo_heap : gmap loc (object float) :=
  scene (point_of (50, 325)%Z) (point_of (500, 100)%Z) (map point_of demo_cloud).

(** The same objects with exact coordinates. *)
Definition demo_heap_exact : gmap loc (object xnum) :=
  scene (point_of (50, 325)%Z) (point_of (500, 100)%Z) (map point_of demo_cloud).

Definition demo_heap_signed : gmap loc (object snum) :=
  scene (point_of (50, 325)%Z) (point_of (500, 100)%Z) (map point_of demo_cloud).

(** The scenario of the specification for [closestPointToLine]: the
    horizontal line [y = 5] and the cloud [(0,0), (10,10)]. *)
Definition scenario_heap : gmap loc (object float) :=
  scene (pt 0 5) (pt 10 5) [pt 0 0; pt 10 10].

(** A far point and a line through the origin. *)
Definition far_heap : gmap loc (object float) :=
  scene (pt 0 0) (pt 2 3) [pt 1000000 1000000000].

(** ** [getExtension] (app/shared/libs/get-extension.ts)

    File names are strings of 8-bit characters.  [toLowerCase] acts on the
    letters [A] to [Z]; the comparison with ['js'] and ['css'] sees nothing
    else of it, as no other character has [j], [s] or [c] as its lower
    case. *)

(** The enumeration [EXTENSION_ENUM] that get-extension.ts imports: the
    three members the code names, taken to be distinct. *)
Inductive EXTENSION_ENUM : Type :=
| NONE
| SCRIPT
| CSS.

Definition lower_case (c : Ascii.ascii) : Ascii.ascii :=
  let n := Ascii.nat_of_ascii c in
  if (65 <=? n)%nat && (n <=? 90)%nat then Ascii.ascii_of_nat (n + 32) else c.

Fixpoint toLowerCase (s : string) : string :=
  match s with
  | EmptyString => EmptyString
  | String c s' => String (lower_case c) (toLowerCase s')
  end.

Definition getExtension (file : arg string) : EXTENSION_ENUM :=
  match file with
  | Undefined | Null => NONE
  | Given file =>
      if String.eqb file "" then NONE
      else
        match String.index 0 "." file with
        | None => NONE
        | Some index =>
            let ext := substring (index + 1) (String.length file) file in
            let lower := toLowerCase ext in
            if String.eqb lower "js" then SCRIPT
            else if String.eqb lower "css" then CSS
            else NONE
        end
  end.

(** ** [ADT$LazyLoadLibs] (app/shared/libs/lazy-load-libs.ts) *)

Module ADT_LazyLoadLibs.

(** An element as [load] creates it: the properties it assigns. *)
Inductive element : Type :=
| HTMLScriptElement (type src : string) (async : bool)
| HTMLLinkElement (href type rel : string).

(** What [load] returns: [of(null)], or [asObservable()] of a subject.  A
    [ReplaySubject] is known by its rank among those constructed. *)
Inductive observable : Type :=
| of_null
| asObservable (subject : nat).

(** The service and the document it appends to: the own properties of
    [_loaded], the number of subjects constructed, and the children
    appended to [body] and to [head], oldest first. *)
Record service : Type := mkService {
  _loaded : gmap string nat;
  subjects : nat;
  body : list element;
  head : list element
}.

(** [new ADT$LazyLoadLibs(document)]. *)
Definition new : service :=
  {| _loaded := ∅; subjects := 0; body := []; head := [] |}.

Section load.
(** [_loaded] is an object literal: besides its own properties it answers
    to the names it inherits in the host ([constructor], [toString], ...),
    with a value that is no subject. *)
Context (inherited : string -> bool).

(** [load(url)]: what it returns, and the service and the document
    afterwards.  The [onload] handler it installs runs later, when the
    browser has fetched the resource; it is no part of the call. *)

Definition load (url : string) (this : service)
  : outcome observable * service :=
  match _loaded this !! url with
  | Some subject => (Ok (asObservable subject), this)
  | None =>
      if inherited url then (Throw TypeError, this)
      else
        match getExtension (Given url) with
        | NONE => (Ok of_null, this)
        | SCRIPT =>
            let subject := subjects this in
            let script := HTMLScriptElement "text/javascript" url true in
            (Ok (asObservable subject),
             {| _loaded := <[url := subject]> (_loaded this);
                subjects := S subject;
                body := body this ++ [script];
                head := head this |})
        | CSS =>
            let subject := subjects this in
            let link := HTMLLinkElement url "text/css" "stylesheet" in
            (Ok (asObservable subject),
             {| _loaded := <[url := subject]> (_loaded this);
                subjects := S subject;
                body := body this;
                head := head this ++ [link] |})
        end
  end.

(** The service after the calls [load(url)] for the [urls], in order,
    whatever each returned. *)
Fixpoint loads (urls : list string) (this : service) : service :=
  match urls with
  | [] => this
  | url :: urls => loads urls (snd (load url this))
  end.

End load.

(** The URL an element makes the browser fetch. *)
Definition fetched (e : element) : string :=
  match e with
  | HTMLScriptElement _ src _ => src
  | HTMLLinkElement href _ _ => href
  end.

End ADT_LazyLoadLibs.

(** ** The application (app.component.ts, reflect-directive.ts) *)

Module AppComponent.
Section AppComponent.
Context {T : Type} `{JSNumber T}.
Local Open Scope js_scope.

(** [ReflectDirective.drawPoints(cloud)]: the circles [cloud.forEach]
    draws, in order, each by its centre and its radius.  An object that is
    no array has no [forEach]. *)
Definition drawPoints (cloud : loc) : M T (list (T * T * T)) :=
  o ← read cloud;
  match o with
  | OArray elems =>
      for_ 0 (List.length elems) (fun i drawn =>
        point ← index cloud i ≫= load_arg;
        mret (drawn ++ [(point.(x), point.(y), #3)])) []
  | OPoint _ | OTSMT_Point _ => throw TypeError
  end.

(** The part of the component [onReflect] reads and assigns. *)
Record AppComponent : Type := mkApp {
  _pointCloud : loc;
  _x0 : T;
  _y0 : T;
  _x1 : T;
  _y1 : T
}.

(** [onReflect()], with the library loaded: the component afterwards and
    the circles drawn. *)
Definition onReflect (this : AppComponent)
  : M T (AppComponent * list (T * T * T)) :=
  p0 ← alloc (OPoint {| x := _x0 this; y := _y0 this |});
  p1 ← alloc (OPoint {| x := _x1 this; y := _y1 this |});
  cloud ← reflect (_pointCloud this) p0 p1;
  let this := {| _pointCloud := cloud; _x0 := _x0 this; _y0 := _y0 this;
                 _x1 := _x1 this; _y1 := _y1 this |} in
  drawn ← drawPoints (_pointCloud this);
  mret (this, drawn).

End AppComponent.
Arguments AppComponent T : clear implicits.
End AppComponent.

(* ===================================================================== *)
(** * Part II: properties                                                 *)
(* ===================================================================== *)

(** ** The two implementations satisfy the laws *)

Section ExactFacts.
Local Open Scope R_scope.

Lemma Rltb_true (a b : R) : a < b -> Rltb a b = true.
Proof. intros Hab. unfold Rltb. destruct (Rlt_dec a b); [reflexivity | contradiction]. Qed.

Lemma Rltb_false (a b : R) : b <= a -> Rltb a b = false.
Proof. intros Hab. unfold Rltb. destruct (Rlt_dec a b); [lra | reflexivity]. Qed.

Lemma Rleb_true (a b : R) : a <= b -> Rleb a b = true.
Proof. intros Hab. unfold Rleb. destruct (Rle_dec a b); [reflexivity | contradiction]. Qed.

Lemma Rleb_false (a b : R) : b < a -> Rleb a b = false.
Proof. intros Hab. unfold Rleb. destruct (Rle_dec a b); [lra | reflexivity]. Qed.

Lemma Reqb_true (a b : R) : a = b -> Reqb a b = true.
Proof. intros Hab. unfold Reqb. destruct (Req_dec_T a b); [reflexivity | contradiction]. Qed.

Lemma Reqb_false (a b : R) : a <> b -> Reqb a b = false.
Proof. intros Hab. unfold Reqb. destruct (Req_dec_T a b); [contradiction | reflexivity]. Qed.

Lemma Rltb_spec (a b : R) : Rltb a b = true <-> a < b.
Proof. unfold Rltb. destruct (Rlt_dec a b); split; intros; try assumption; try reflexivity; try discriminate; contradiction. Qed.

Lemma Rleb_spec (a b : R) : Rleb a b = true <-> a <= b.
Proof. unfold Rleb. destruct (Rle_dec a b); split; intros; try assumption; try reflexivity; try discriminate; contradiction. Qed.

Lemma Reqb_spec (a b : R) : Reqb a b = true <-> a = b.
Proof. unfold Reqb. destruct (Req_dec_T a b); split; intros; try assumption; try reflexivity; try discriminate; contradiction. Qed.

End ExactFacts.

#[export] Instance xnum_laws : JSNumberLaws xnum.
Proof.
  split.
  - intros [| [] | a] [| [] | b]; cbn; try reflexivity.
    f_equal. apply Rabs_pos_eq. nra.
  - intros [| [] | a] [| [] | b]; cbn; try discriminate; try reflexivity.
    intros Hle. apply Rleb_spec in Hle. apply Rltb_false. exact Hle.
  - intros [| s | a] [| t | b]; cbn; try reflexivity.
    + rewrite (Rltb_false (Rabs b) 0) by apply Rabs_pos. reflexivity.
    + rewrite Rabs_R0. reflexivity.
    + destruct (Req_dec_T b 0) as [-> | Hb].
      * rewrite Rabs_R0, (Reqb_true 0 0) by reflexivity.
        destruct (Req_dec_T a 0) as [-> | Ha].
        -- rewrite Rabs_R0, (Reqb_true 0 0) by reflexivity. reflexivity.
        -- rewrite (Reqb_false a 0) by exact Ha.
           rewrite (Reqb_false (Rabs a) 0) by (apply Rabs_no_R0; exact Ha).
           cbn. rewrite (Rltb_false (Rabs a) 0) by apply Rabs_pos. reflexivity.
      * rewrite (Reqb_false b 0) by exact Hb.
        rewrite (Reqb_false (Rabs b) 0) by (apply Rabs_no_R0; exact Hb).
        cbn. f_equal. unfold Rdiv. rewrite Rabs_mult, Rabs_inv. reflexivity.
  - reflexivity.
Qed.

Section Binary64Facts.

Lemma round_aux_sign (s : bool) (m e : Z) (l : location) :
  sign_is s (binary_round_aux prec emax s m e l).
Proof.
  unfold binary_round_aux.
  destruct (shr_fexp prec emax m e l) as [mrs' e'].
  destruct (shr_fexp prec emax _ e' loc_Exact) as [mrs'' e''].
  destruct (shr_m mrs''); [reflexivity | | exact I].
  destruct (Z.leb e'' (emax - prec)); reflexivity.
Qed.

Lemma round_aux_abs (s : bool) (m e : Z) (l : location) :
  SFabs (binary_round_aux prec emax s m e l) = binary_round_aux prec emax false m e l.
Proof.
  unfold binary_round_aux.
  destruct (shr_fexp prec emax m e l) as [mrs' e'].
  destruct (shr_fexp prec emax _ e' loc_Exact) as [mrs'' e''].
  destruct (shr_m mrs''); [reflexivity | | reflexivity].
  destruct (Z.leb e'' (emax - prec)); reflexivity.
Qed.

Lemma SFabs_nonneg (f : spec_float) : sign_is false f -> SFabs f = f.
Proof. destruct f; cbn; intros Hs; subst; reflexivity. Qed.

Lemma SFmul_square_sign (f : spec_float) : sign_is false (SF64mul f f).
Proof.
  destruct f as [s | s | | s m e]; cbn; try (destruct s; reflexivity).
  - exact I.
  - replace (xorb s s) with false by (destruct s; reflexivity).
    apply round_aux_sign.
Qed.

Lemma SFadd_nonneg (f g : spec_float) :
  sign_is false f -> sign_is false g -> sign_is false (SF64add f g).
Proof.
  destruct f as [s | s | | s m e], g as [t | t | | t n e'];
    cbn; intros Hf Hg; subst; cbn; try reflexivity; try exact I.
  unfold binary_normalize.
  destruct (shl_align m e (Z.min e e')) as [mf ef].
  destruct (shl_align n e' (Z.min e e')) as [mg eg]. cbn.
  change (Z.pos mf + Z.pos mg)%Z with (Z.pos (mf + mg)).
  unfold binary_round.
  match goal with |- context [shl_align ?a ?b ?c] =>
    destruct (shl_align a b c) as [mz ez] end.
  apply round_aux_sign.
Qed.

Lemma float_abs_sum_squares (a b : float) :
  PrimFloat.abs (a * a + b * b)%float = (a * a + b * b)%float.
Proof.
  apply Prim2SF_inj. rewrite abs_spec. apply SFabs_nonneg.
  rewrite add_spec, !mul_spec.
  apply SFadd_nonneg; apply SFmul_square_sign.
Qed.

Lemma SFcompare_antisym (f g : spec_float) :
  SFcompare g f = option_map CompOpp (SFcompare f g).
Proof.
  destruct f as [s | s | | s m e], g as [t | t | | t n e'];
    cbn; try reflexivity;
    try (destruct s; reflexivity); try (destruct t; reflexivity);
    try (destruct s, t; reflexivity).
  rewrite (Z.compare_antisym e e'), !Pos.compare_cont_spec.
  rewrite (Pos.compare_antisym m n).
  destruct s, t; cbn; try reflexivity;
    destruct (e ?= e')%Z; cbn; try reflexivity;
    destruct (m ?= n)%positive; reflexivity.
Qed.

Lemma float_leb_not_ltb (a b : float) :
  (a <=? b)%float = true -> (b <? a)%float = false.
Proof.
  rewrite leb_spec, ltb_spec. unfold SFleb, SFltb.
  rewrite (SFcompare_antisym (Prim2SF a) (Prim2SF b)).
  destruct (SFcompare (Prim2SF a) (Prim2SF b)) as [[ | | ] | ]; cbn;
    congruence.
Qed.

Lemma SFabs_div (f g : spec_float) :
  SFabs (SF64div f g) = SF64div (SFabs f) (SFabs g).
Proof.
  destruct f as [s | s | | s m e], g as [t | t | | t n e'];
    cbn; try reflexivity.
  destruct (SFdiv_core_binary prec emax (Z.pos m) e (Z.pos n) e')
    as [[mz ez] lz].
  apply round_aux_abs.
Qed.

Lemma float_abs_div (a b : float) :
  PrimFloat.abs (a / b)%float = (PrimFloat.abs a / PrimFloat.abs b)%float.
Proof.
  apply Prim2SF_inj.
  rewrite abs_spec, !div_spec, !abs_spec. apply SFabs_div.
Qed.

End Binary64Facts.

#[export] Instance float_laws : JSNumberLaws float.
Proof.
  split.
  - exact float_abs_sum_squares.
  - exact float_leb_not_ltb.
  - exact float_abs_div.
  - reflexivity.
Qed.

(** ** Binary64: zeros, NaN and the order of the factors *)

Section Binary64Degenerate.
Local Open Scope js_scope.

Lemma is_finite_spec (a : float) : is_finite a = true -> SFfinite (Prim2SF a).
Proof.
  unfold is_finite, is_nan, is_infinity.
  rewrite !FloatAxioms.eqb_spec, abs_spec.
  change (Prim2SF infinity) with (S754_infinity false).
  destruct (Prim2SF a) as [s | [] | | s m e]; cbn; try discriminate; trivial.
Qed.

Lemma SFsub_diag (f : spec_float) :
  SFfinite f -> SF64sub f f = S754_zero false.
Proof.
  destruct f as [s | s | | s m e]; cbn; try contradiction; intros _.
  - destruct s; reflexivity.
  - rewrite Z.sub_diag. reflexivity.
Qed.

Lemma float_sub_diag (a : float) : is_finite a = true -> (a - a)%float = zero.
Proof.
  intros Ha. apply Prim2SF_inj. rewrite sub_spec.
  rewrite (SFsub_diag _ (is_finite_spec _ Ha)). reflexivity.
Qed.

Lemma SFmul_zero_r (f : spec_float) :
  SFfinite f -> exists s, SF64mul f (S754_zero false) = S754_zero s.
Proof.
  destruct f as [s | s | | s m e]; cbn; try contradiction; intros _; eauto.
Qed.

(** A finite number times zero is a zero, of either sign. *)
Lemma float_mul_zero_r (a : float) :
  is_finite a = true -> (a * zero)%float = zero \/ (a * zero)%float = neg_zero.
Proof.
  intros Ha. destruct (SFmul_zero_r _ (is_finite_spec _ Ha)) as [s Hs].
  assert (Hz : Prim2SF (a * zero) = S754_zero s) by (rewrite mul_spec; exact Hs).
  destruct s; [right | left]; apply Prim2SF_inj; rewrite Hz; reflexivity.
Qed.

Lemma float_mul_zero_l (a : float) :
  is_finite a = true -> (zero * a)%float = zero \/ (zero * a)%float = neg_zero.
Proof.
  intros Ha. pose proof (is_finite_spec _ Ha) as Hf.
  assert (Hz : exists s, Prim2SF (zero * a) = S754_zero s).
  { rewrite mul_spec. change (Prim2SF zero) with (S754_zero false).
    destruct (Prim2SF a) as [s | s | | s m e]; cbn in *; try contradiction;
      eauto. }
  destruct Hz as [[] Hz]; [right | left]; apply Prim2SF_inj; rewrite Hz;
    reflexivity.
Qed.

Lemma float_add_nan_r (a : float) : (a + nan)%float = nan.
Proof.
  apply Prim2SF_inj. rewrite add_spec. change (Prim2SF nan) with S754_nan.
  destruct (Prim2SF a); reflexivity.
Qed.

Lemma float_sub_nan_r (a : float) : (a - nan)%float = nan.
Proof.
  apply Prim2SF_inj. rewrite sub_spec. change (Prim2SF nan) with S754_nan.
  destruct (Prim2SF a); reflexivity.
Qed.

End Binary64Degenerate.

Section Binary64NoNaN.
Local Open Scope Z_scope.

Lemma shr_1_nonneg (mrs : shr_record) :
  0 <= shr_m mrs -> 0 <= shr_m (shr_1 mrs).
Proof.
  destruct mrs as [m r s]. cbn. destruct m as [| [p | p |] | p]; cbn; lia.
Qed.

Lemma iter_shr_1_nonneg (p : positive) :
  forall mrs, 0 <= shr_m mrs -> 0 <= shr_m (SpecFloat.iter_pos shr_1 p mrs).
Proof.
  induction p as [p IH | p IH |]; intros mrs Hm; cbn.
  - apply IH, IH, shr_1_nonneg, Hm.
  - apply IH, IH, Hm.
  - apply shr_1_nonneg, Hm.
Qed.

Lemma shr_fexp_nonneg (m e : Z) (l : location) :
  0 <= m -> 0 <= shr_m (fst (shr_fexp prec emax m e l)).
Proof.
  intros Hm. unfold shr_fexp, shr.
  assert (H0 : 0 <= shr_m (shr_record_of_loc m l)).
  { destruct l as [| []]; exact Hm. }
  destruct (fexp prec emax (Zdigits2 m + e) - e); cbn; try exact H0.
  apply iter_shr_1_nonneg, H0.
Qed.

Lemma round_nearest_even_nonneg (m : Z) (l : location) :
  0 <= m -> 0 <= round_nearest_even m l.
Proof.
  intros Hm. destruct l as [| []]; cbn; try lia.
  destruct (Z.even m); lia.
Qed.

Lemma round_aux_number (s : bool) (m e : Z) (l : location) :
  0 <= m -> binary_round_aux prec emax s m e l <> S754_nan.
Proof.
  intros Hm. unfold binary_round_aux.
  pose proof (shr_fexp_nonneg m e l Hm) as H1.
  destruct (shr_fexp prec emax m e l) as [mrs' e']. cbn in H1.
  pose proof (shr_fexp_nonneg _ e' loc_Exact
                (round_nearest_even_nonneg _ (loc_of_shr_record mrs') H1)) as H2.
  destruct (shr_fexp prec emax _ e' loc_Exact) as [mrs'' e'']. cbn in H2.
  destruct (shr_m mrs''); [discriminate | | lia].
  destruct (Z.leb e'' (emax - prec)); discriminate.
Qed.

Lemma round_aux_nonneg (m e : Z) (l : location) :
  0 <= m -> SFnonneg (binary_round_aux prec emax false m e l).
Proof.
  intros Hm. pose proof (round_aux_number false m e l Hm) as Hn.
  pose proof (round_aux_sign false m e l) as Hs.
  destruct (binary_round_aux prec emax false m e l); cbn in *;
    congruence.
Qed.

Lemma SFmul_square_nonneg (f : spec_float) :
  SFfinite f -> SFnonneg (SF64mul f f).
Proof.
  destruct f as [s | s | | s m e]; cbn; try contradiction; intros _.
  - destruct s; reflexivity.
  - replace (xorb s s) with false by (destruct s; reflexivity).
    apply round_aux_nonneg. lia.
Qed.

Lemma SFadd_nonneg_number (f g : spec_float) :
  SFnonneg f -> SFnonneg g -> SFnonneg (SF64add f g).
Proof.
  destruct f as [s | s | | s m e], g as [t | t | | t n e'];
    cbn; intros Hf Hg; subst; cbn; try reflexivity; try contradiction.
  unfold binary_normalize.
  destruct (shl_align m e (Z.min e e')) as [mf ef].
  destruct (shl_align n e' (Z.min e e')) as [mg eg]. cbn.
  change (Z.pos mf + Z.pos mg)%Z with (Z.pos (mf + mg)).
  unfold binary_round.
  match goal with |- context [shl_align ?a ?b ?c] =>
    destruct (shl_align a b c) as [mz ez] end.
  apply round_aux_nonneg. lia.
Qed.

Lemma SFsqrt_number (f : spec_float) : SFnonneg f -> SF64sqrt f <> S754_nan.
Proof.
  destruct f as [s | s | | s m e]; cbn; intros Hf; subst; try discriminate;
    try contradiction.
  unfold SFsqrt_core_binary.
  match goal with |- context [Z.sqrtrem ?a] =>
    pose proof (Z.sqrtrem_sqrt a) as Hq; pose proof (Z.sqrt_nonneg a);
    destruct (Z.sqrtrem a) as [q r] end.
  cbn in Hq. subst q. cbv zeta. apply round_aux_number. assumption.
Qed.

(** The square root of a sum of two squares of finite doubles is not NaN. *)
Lemma float_norm_number (a b : float) :
  is_finite a = true -> is_finite b = true ->
  is_nan (PrimFloat.sqrt (a * a + b * b))%float = false.
Proof.
  intros Ha Hb.
  assert (Hn : Prim2SF (PrimFloat.sqrt (a * a + b * b)) <> S754_nan).
  { rewrite sqrt_spec, add_spec, !mul_spec.
    apply SFsqrt_number, SFadd_nonneg_number;
      apply SFmul_square_nonneg, is_finite_spec; assumption. }
  unfold is_nan. rewrite FloatAxioms.eqb_spec.
  destruct (Prim2SF (PrimFloat.sqrt (a * a + b * b))) as [s | [] | | [] m e];
    cbn; try reflexivity; try congruence.
  - rewrite Z.compare_refl, Pos.compare_cont_refl. reflexivity.
  - rewrite Z.compare_refl, Pos.compare_cont_refl. reflexivity.
Qed.

End Binary64NoNaN.

Section Binary64Segment.
Local Open Scope js_scope.

(** On doubles, as long as the offsets of [p] from [p0] do not overflow:
    on a degenerate segment [pointToSegmentDistance] takes its first
    branch and returns what [l2Norm(p, p0)] computes, which is not NaN,
    and [pointToLineDistancee] returns NaN. *)
Lemma degenerate_segment_distance_binary64 (x0 y0 px py : float) :
  is_finite x0 = true -> is_finite y0 = true ->
  is_finite (px - x0)%float = true -> is_finite (py - y0)%float = true ->
  pointToSegmentDistance (pt x0 y0) (pt x0 y0) (pt px py)
    = l2Norm (Given (pt px py)) (Given (pt x0 y0)) /\
  isNaN (pointToSegmentDistance (pt x0 y0) (pt x0 y0) (pt px py)) = false /\
  isNaN (pointToLineDistancee (pt x0 y0) (pt x0 y0) (pt px py)) = true.
Proof.
  intros Hx0 Hy0 Hwx Hwy.
  pose proof (float_norm_number _ _ Hwx Hwy) as Hnorm.
  unfold pointToSegmentDistance, pointToLineDistancee, l2Norm. cbn.
  rewrite (float_sub_diag x0 Hx0), (float_sub_diag y0 Hy0).
  destruct (float_mul_zero_r _ Hwx) as [-> | ->],
           (float_mul_zero_r _ Hwy) as [-> | ->],
           (float_mul_zero_l _ Hwx) as [-> | ->],
           (float_mul_zero_l _ Hwy) as [-> | ->];
    cbn; rewrite ?float_add_nan_r, ?float_sub_nan_r;
    repeat split; exact Hnorm.
Qed.

Lemma SFmul_comm (f g : spec_float) : SF64mul f g = SF64mul g f.
Proof.
  destruct f as [s | s | | s m e], g as [t | t | | t n e'];
    cbn; rewrite ?(xorb_comm s t); try reflexivity.
  rewrite (Pos.mul_comm m n), (Z.add_comm e e'). reflexivity.
Qed.

Lemma float_mul_comm (a b : float) : (a * b)%float = (b * a)%float.
Proof. apply Prim2SF_inj. rewrite !mul_spec. apply SFmul_comm. Qed.

(** On doubles, when the projection of [p] falls strictly inside the
    segment the two distances are the same number: the two functions then
    evaluate the same expression. *)
Lemma segment_distance_inside_binary64 (p0 p1 p : Point float) :
  let vx := p1.(x) - p0.(x) in
  let vy := p1.(y) - p0.(y) in
  let wx := p.(x) - p0.(x) in
  let wy := p.(y) - p0.(y) in
  (wx * vx + wy * vy <=? #0) = false ->
  (vx * vx + vy * vy <=? wx * vx + wy * vy) = false ->
  pointToSegmentDistance p0 p1 p = pointToLineDistancee p0 p1 p.
Proof.
  cbv zeta. intros Hc1 Hc2. unfold pointToSegmentDistance, pointToLineDistancee.
  cbv zeta. rewrite Hc1, Hc2.
  cbn [nmul nadd nsub float_number].
  rewrite (float_mul_comm (x p1 - x p0) (x p - x p0)).
  rewrite (float_mul_comm (y p1 - y p0) (y p - y p0)). reflexivity.
Qed.

End Binary64Segment.

(** ** Running commands on a heap *)

Section Running.
Context {T : Type} `{JSNumber T}.
Local Open Scope js_scope.
Implicit Types (h : gmap loc (object T)) (l : loc).

Lemma bind_run {A B} (m : M T A) (f : A -> M T B) h :
  (m ≫= f) h =
  match m h with (Ok a, h') => f a h' | (Throw e, h') => (Throw e, h') end.
Proof. reflexivity. Qed.

Lemma ret_run {A} (a : A) h : (mret a : M T A) h = (Ok a, h).
Proof. reflexivity. Qed.

Lemma read_run h l o : h !! l = Some o -> read l h = (Ok o, h).
Proof. intros Hl. unfold read. rewrite Hl. reflexivity. Qed.

Lemma load_run h l P : point_at h l = Some P -> load l h = (Ok P, h).
Proof.
  unfold point_at, load. intros Hl. rewrite bind_run.
  destruct (h !! l) as [o |] eqn:Ho; [| discriminate].
  rewrite (read_run _ _ _ Ho), ret_run. cbn in Hl.
  destruct o; cbn in *; congruence.
Qed.

Lemma index_point_run h l P i :
  point_at h l = Some P -> index l i h = (Ok Undefined, h).
Proof.
  unfold point_at, index. intros Hl. rewrite bind_run.
  destruct (h !! l) as [o |] eqn:Ho; [| discriminate].
  rewrite (read_run _ _ _ Ho), ret_run. cbn in Hl.
  destruct o; cbn in *; congruence.
Qed.

Lemma index_array_run h l elems i :
  h !! l = Some (OArray elems) ->
  index l i h =
  (Ok (match elems !! i with Some e => Given e | None => Undefined end), h).
Proof.
  intros Hl. unfold index. rewrite bind_run, (read_run _ _ _ Hl).
  reflexivity.
Qed.

Lemma array_length_run h l elems :
  h !! l = Some (OArray elems) ->
  array_length l h = (Ok (List.length elems), h).
Proof.
  intros Hl. unfold array_length. rewrite bind_run, (read_run _ _ _ Hl).
  reflexivity.
Qed.

(** [closestPointToLine] on a cloud of two or more points: the first
    iteration fetches [p = points[1]], a point, then reads [p[1]], which no
    point has, and reading [x] of it throws. *)
Lemma closestPointToLine_throws h points p0 p1 P0 P1 elems e0 e1 Q0 Q1 :
  point_at h p0 = Some P0 ->
  point_at h p1 = Some P1 ->
  h !! points = Some (OArray elems) ->
  elems !! 0%nat = Some e0 ->
  elems !! 1%nat = Some e1 ->
  point_at h e0 = Some Q0 ->
  point_at h e1 = Some Q1 ->
  closestPointToLine points p0 p1 h = (Throw TypeError, h).
Proof.
  intros H0 H1 Hpts He0 He1 HQ0 HQ1.
  unfold closestPointToLine.
  rewrite bind_run, (load_run _ _ _ H0).
  rewrite bind_run, (load_run _ _ _ H1).
  rewrite bind_run, (array_length_run _ _ _ Hpts).
  rewrite bind_run, bind_run, (index_array_run _ _ _ _ Hpts), He0.
  cbn [load_arg]. rewrite (load_run _ _ _ HQ0).
  destruct elems as [| a [| b rest]]; try discriminate.
  cbn [List.length Nat.sub for_].
  rewrite bind_run, bind_run, bind_run. rewrite (index_array_run _ _ _ _ Hpts), He1.
  rewrite !bind_run. cbn [index_arg]. rewrite (index_point_run _ _ _ _ HQ1).
  reflexivity.
Qed.

End Running.

(** ** Commands that only read *)

Section ReadOnly.
Context {T : Type} `{JSNumber T}.
Local Open Scope js_scope.
Implicit Types (h : gmap loc (object T)) (l : loc).

Lemma readonly_ret {A} (a : A) : readonly (mret a : M T A).
Proof. intros h. reflexivity. Qed.

Lemma readonly_throw {A} e : readonly (throw e : M T A).
Proof. intros h. reflexivity. Qed.

Lemma readonly_bind {A B} (m : M T A) (f : A -> M T B) :
  readonly m -> (forall a, readonly (f a)) -> readonly (m ≫= f).
Proof.
  intros Hm Hf h. rewrite bind_run. specialize (Hm h).
  destruct (m h) as [[a | e] h1]; cbn in Hm; subst h1; [apply Hf | reflexivity].
Qed.

Lemma readonly_read l : readonly (read (T := T) l).
Proof. intros h. unfold read. destruct (h !! l); reflexivity. Qed.

(** What a command that only reads returns, with the heap it was run on. *)
Lemma readonly_run {A} (m : M T A) h r h' :
  readonly m -> m h = (r, h') -> h' = h.
Proof. intros Hm Hrun. specialize (Hm h). rewrite Hrun in Hm. exact Hm. Qed.

Lemma readonly_load l : readonly (load (T := T) l).
Proof.
  apply readonly_bind; [apply readonly_read | intros o; apply readonly_ret].
Qed.

Lemma readonly_load_arg a : readonly (load_arg (T := T) a).
Proof.
  destruct a; [apply readonly_throw | apply readonly_throw | apply readonly_load].
Qed.

Lemma readonly_load_opt a : readonly (load_opt (T := T) a).
Proof.
  destruct a; cbn [load_opt]; try apply readonly_ret.
  apply readonly_bind; [apply readonly_load | intros p; apply readonly_ret].
Qed.

Lemma readonly_index l i : readonly (index (T := T) l i).
Proof.
  apply readonly_bind; [apply readonly_read | intros o; apply readonly_ret].
Qed.

Lemma readonly_index_arg a i : readonly (index_arg (T := T) a i).
Proof.
  destruct a; [apply readonly_throw | apply readonly_throw | apply readonly_index].
Qed.

Lemma readonly_array_length l : readonly (array_length (T := T) l).
Proof.
  apply readonly_bind; [apply readonly_read | intros o; apply readonly_ret].
Qed.

Lemma readonly_for {St} (body : nat -> St -> M T St) n :
  (forall i s, readonly (body i s)) ->
  forall i s, readonly (for_ i n body s).
Proof.
  intros Hbody. induction n as [| n IH]; intros i s; cbn [for_].
  - apply readonly_ret.
  - apply readonly_bind; [apply Hbody | intros s'; apply IH].
Qed.

Lemma readonly_bottomLeft points : readonly (bottomLeft (T := T) points).
Proof.
  apply readonly_bind; [apply readonly_array_length | intros len].
  apply readonly_for. intros i s.
  apply readonly_bind;
    [apply readonly_bind; [apply readonly_index | apply readonly_load_arg] |].
  intros pt.
  apply readonly_bind;
    [apply readonly_bind; [apply readonly_index | apply readonly_load_arg] |].
  intros cur.
  match goal with |- readonly (if ?c then _ else _) => destruct c end;
    apply readonly_ret.
Qed.

Lemma readonly_bottomRight points : readonly (bottomRight (T := T) points).
Proof.
  apply readonly_bind; [apply readonly_array_length | intros len].
  apply readonly_for. intros i s.
  apply readonly_bind;
    [apply readonly_bind; [apply readonly_index | apply readonly_load_arg] |].
  intros pt.
  apply readonly_bind;
    [apply readonly_bind; [apply readonly_index | apply readonly_load_arg] |].
  intros cur.
  match goal with |- readonly (if ?c then _ else _) => destruct c end;
    apply readonly_ret.
Qed.

Lemma readonly_closestPointToLine points p0 p1 :
  readonly (closestPointToLine (T := T) points p0 p1).
Proof.
  unfold closestPointToLine.
  apply readonly_bind; [apply readonly_load | intros P0].
  apply readonly_bind; [apply readonly_load | intros P1]. cbv zeta.
  apply readonly_bind; [apply readonly_array_length | intros len].
  apply readonly_bind;
    [apply readonly_bind; [apply readonly_index | apply readonly_load_arg] |].
  intros first.
  apply readonly_bind; [| intros [m ?]; apply readonly_ret].
  apply readonly_for. intros i [minIndex min].
  apply readonly_bind; [apply readonly_index | intros p].
  apply readonly_bind;
    [apply readonly_bind; [apply readonly_index_arg | apply readonly_load_arg] |].
  intros q. cbv zeta.
  match goal with |- readonly (if ?c then _ else _) => destruct c end;
    apply readonly_ret.
Qed.

End ReadOnly.

Section Reflect.
Context {T : Type} `{JSNumber T}.
Local Open Scope js_scope.
Implicit Types (h : gmap loc (object T)) (l : loc).

Lemma alloc_run h (o : object T) :
  alloc o h = (Ok (fresh (dom h)), <[fresh (dom h) := o]> h).
Proof. reflexivity. Qed.

Lemma fresh_unused h : h !! fresh (dom h) = None.
Proof. apply not_elem_of_dom, is_fresh. Qed.

Lemma push_run h out elems q :
  h !! out = Some (OArray elems) ->
  push out q h = (Ok tt, <[out := OArray (elems ++ [q])]> h).
Proof. intros Hout. unfold push. rewrite Hout. reflexivity. Qed.

Lemma point_at_new h l (a b : T) :
  h !! l = Some (OTSMT_Point (TSMT_Point.new (Some a) (Some b))) ->
  point_at h l = Some {| x := a; y := b |}.
Proof. intros Hl. unfold point_at. rewrite Hl. reflexivity. Qed.

(** One iteration: what [reflect_body] does to the heap. *)
Lemma reflect_body_run h points out a b x0 y0 i elems e p done :
  h !! points = Some (OArray elems) ->
  elems !! i = Some e ->
  point_at h e = Some p ->
  h !! out = Some (OArray done) ->
  let q := fresh (dom h) in
  let o := OTSMT_Point (TSMT_Point.new
             (Some (a * (p.(x) - x0) + b * (p.(y) - y0) + x0))
             (Some (b * (p.(x) - x0) - a * (p.(y) - y0) + y0))) in
  reflect_body points out a b x0 y0 i tt h =
  (Ok tt, <[out := OArray (done ++ [q])]> (<[q := o]> h)).
Proof.
  intros Hpts He Hp Hout q o. unfold reflect_body.
  rewrite !bind_run, (index_array_run _ _ _ _ Hpts), He.
  cbn [load_arg]. rewrite (load_run _ _ _ Hp). cbv zeta.
  rewrite bind_run, alloc_run.
  apply push_run. rewrite lookup_insert_ne; [exact Hout |].
  intros Heq. pose proof (fresh_unused h) as Hf. fold q in Hf.
  rewrite Heq in Hf. congruence.
Qed.

(** The same iteration on any heap: it adds an instance and pushes its
    reference, or it throws before it has written anything. *)
Lemma reflect_body_inv h points out a b x0 y0 i done :
  h !! out = Some (OArray done) ->
  (exists q,
     reflect_body points out a b x0 y0 i tt h =
     (Ok tt, <[out := OArray (done ++ [fresh (dom h)])]>
               (<[fresh (dom h) := OTSMT_Point q]> h))) \/
  (exists e, reflect_body points out a b x0 y0 i tt h = (Throw e, h)).
Proof.
  intros Hout. unfold reflect_body. rewrite bind_run.
  destruct ((index points i ≫= load_arg) h) as [[p | e] h2] eqn:Hp.
  - apply readonly_run in Hp as ->;
      [| apply readonly_bind; [apply readonly_index | apply readonly_load_arg]].
    left. cbv zeta. rewrite bind_run, alloc_run. eexists. apply push_run.
    rewrite lookup_insert_ne; [exact Hout |].
    intros Heq. pose proof (fresh_unused h) as Hf.
    rewrite Heq in Hf. congruence.
  - apply readonly_run in Hp as ->;
      [| apply readonly_bind; [apply readonly_index | apply readonly_load_arg]].
    right. exists e. reflexivity.
Qed.

(** The loop only adds, however it ends: new instances, and their
    references at the end of [out]. *)
Lemma reflect_loop_frame points out a b x0 y0 n :
  forall i h done r h',
    h !! out = Some (OArray done) ->
    for_ i n (reflect_body points out a b x0 y0) tt h = (r, h') ->
    exists new,
      h' !! out = Some (OArray (done ++ new)) /\
      (r = Ok tt -> List.length new = n) /\
      unchanged_off out h h' /\
      Forall (new_point h h') new /\
      NoDup new.
Proof.
  induction n as [| n IH]; intros i h done r h' Hout Hrun; cbn [for_] in Hrun.
  - injection Hrun as <- <-. exists []. rewrite app_nil_r.
    repeat split; [exact Hout | | constructor | constructor].
    intros l o _ Hl. exact Hl.
  - rewrite bind_run in Hrun.
    destruct (reflect_body_inv h points out a b x0 y0 i done Hout)
      as [[q Hbody] | [e Hbody]]; rewrite Hbody in Hrun.
    + set (l := fresh (dom h)) in *.
      assert (Hl : h !! l = None) by apply fresh_unused.
      assert (Hlo : l <> out) by (intros ->; congruence).
      destruct (IH _ _ (done ++ [l]) _ _ (lookup_insert_eq _ _ _) Hrun)
        as (new & Hnew & Hlen & Hoff & Hall & Hdistinct).
      exists (l :: new). rewrite <- app_assoc in Hnew. cbn in Hnew.
      repeat split.
      * exact Hnew.
      * intros Hr. cbn. rewrite (Hlen Hr). reflexivity.
      * intros l' o Hne Hl'. apply Hoff; [exact Hne |].
        rewrite lookup_insert_ne by congruence.
        rewrite lookup_insert_ne by congruence. exact Hl'.
      * constructor.
        -- split; [exact Hl |]. exists q. apply Hoff; [exact Hlo |].
           rewrite lookup_insert_ne by congruence. apply lookup_insert_eq.
        -- eapply Forall_impl; [exact Hall |].
           intros e [He1 He2]. split; [| exact He2].
           destruct (decide (e = out)) as [-> | Heo].
           { rewrite lookup_insert_eq in He1. discriminate. }
           rewrite lookup_insert_ne in He1 by congruence.
           destruct (decide (e = l)) as [-> | Hel]; [exact Hl |].
           rewrite lookup_insert_ne in He1 by congruence. exact He1.
      * (* the instance of this iteration is in the heap the later ones
           are new to *)
        apply NoDup_cons. split; [| exact Hdistinct].
        intros Hin. rewrite Forall_forall in Hall.
        destruct (Hall l Hin) as [Hnone _].
        rewrite lookup_insert_ne, lookup_insert_eq in Hnone by congruence.
        discriminate.
    + injection Hrun as <- <-. exists []. rewrite app_nil_r.
      repeat split; [exact Hout | discriminate | | constructor | constructor].
      intros l o _ Hl. exact Hl.
Qed.

(** On a cloud of points the loop runs to its end, and the new instances
    carry the reflected coordinates, in order. *)
Lemma reflect_loop_run points out a b x0 y0 elems :
  points <> out ->
  forall rest ps i h done,
    Forall2 (fun e p => point_at h e = Some p) rest ps ->
    h !! points = Some (OArray elems) ->
    (forall k e, rest !! k = Some e -> elems !! (i + k)%nat = Some e) ->
    h !! out = Some (OArray done) ->
    exists h' new,
      for_ i (List.length rest) (reflect_body points out a b x0 y0) tt h
        = (Ok tt, h') /\
      h' !! out = Some (OArray (done ++ new)) /\
      Forall2 (fun e p => point_at h' e = Some
                 {| x := a * (p.(x) - x0) + b * (p.(y) - y0) + x0;
                    y := b * (p.(x) - x0) - a * (p.(y) - y0) + y0 |})
              new ps.
Proof.
  intros Hpo rest. induction rest as [| e rest IH];
    intros ps i h done Hps Hpts Hsuffix Hout.
  - inversion Hps; subst. exists h, []. rewrite app_nil_r.
    repeat split; [exact Hout | constructor].
  - inversion Hps as [| ? p ? ps' Hp Hps']; subst. cbn [List.length for_].
    rewrite bind_run.
    assert (He : elems !! i = Some e).
    { rewrite <- (Nat.add_0_r i). apply Hsuffix. reflexivity. }
    rewrite (reflect_body_run _ _ _ a b x0 y0 _ _ _ _ _ Hpts He Hp Hout).
    set (l := fresh (dom h)).
    set (o := OTSMT_Point _).
    set (h1 := <[out := OArray (done ++ [l])]> (<[l := o]> h)).
    assert (Hl : h !! l = None) by apply fresh_unused.
    assert (Hlo : l <> out) by (intros Heq; rewrite Heq in Hl; congruence).
    assert (Hkeep : forall e' p', point_at h e' = Some p' ->
                                  point_at h1 e' = Some p').
    { intros e' p' He'. unfold point_at in *. subst h1.
      destruct (h !! e') as [o' |] eqn:Ho'; [| discriminate].
      assert (e' <> out).
      { intros ->. rewrite Hout in Ho'. injection Ho' as <-. discriminate. }
      assert (e' <> l) by congruence.
      rewrite !lookup_insert_ne by congruence. rewrite Ho'. exact He'. }
    destruct (IH ps' (S i) h1 (done ++ [l])) as (h' & new & Hrun & Hnew & Hcontent).
    + eapply Forall2_impl; [exact Hps' |]. intros e' p'. apply Hkeep.
    + subst h1. rewrite !lookup_insert_ne by congruence. exact Hpts.
    + intros k e' Hk. replace (S i + k)%nat with (i + S k)%nat by lia.
      apply Hsuffix. exact Hk.
    + subst h1. apply lookup_insert_eq.
    + exists h', (l :: new). rewrite <- app_assoc in Hnew.
      repeat split; [exact Hrun | exact Hnew |].
      constructor; [| exact Hcontent].
      assert (Hout1 : h1 !! out = Some (OArray (done ++ [l])))
        by apply lookup_insert_eq.
      destruct (reflect_loop_frame _ _ _ _ _ _ _ _ _ _ _ _ Hout1 Hrun)
        as (new' & _ & _ & Hoff & _ & _).
      apply point_at_new. apply Hoff; [exact Hlo |].
      subst h1. rewrite lookup_insert_ne by congruence. apply lookup_insert_eq.
Qed.

End Reflect.

Section ReflectCall.
Context {T : Type} `{JSNumber T}.
Local Open Scope js_scope.
Implicit Types (h : gmap loc (object T)) (l : loc).

Lemma cloud_at_elems h points cloud :
  cloud_at h points = Some cloud <->
  exists elems, h !! points = Some (OArray elems) /\
                Forall2 (fun e p => point_at h e = Some p) elems cloud.
Proof.
  unfold cloud_at. split.
  - destruct (h !! points) as [[| | elems] |]; try discriminate.
    intros Hm. exists elems. split; [reflexivity |].
    apply mapM_Some. exact Hm.
  - intros (elems & -> & Hall). apply mapM_Some. exact Hall.
Qed.

Lemma reflect_degenerate_run h points p0 p1 P0 P1 :
  point_at h p0 = Some P0 ->
  point_at h p1 = Some P1 ->
  (Math_abs (squared_length P0 P1) <? dec 1 8) = true ->
  reflect points p0 p1 h = (Ok points, h).
Proof.
  intros H0 H1 Hd. unfold reflect.
  rewrite bind_run, (load_run _ _ _ H0), bind_run, (load_run _ _ _ H1).
  cbv zeta. unfold squared_length in Hd. rewrite Hd. reflexivity.
Qed.

Lemma reflect_run h points p0 p1 P0 P1 cloud :
  point_at h p0 = Some P0 ->
  point_at h p1 = Some P1 ->
  cloud_at h points = Some cloud ->
  (Math_abs (squared_length P0 P1) <? dec 1 8) = false ->
  exists out h' new,
    reflect points p0 p1 h = (Ok out, h') /\
    h !! out = None /\
    h ⊆ h' /\
    h' !! out = Some (OArray new) /\
    Forall (new_point h h') new /\
    cloud_at h' out = Some (map (householder P0 P1) cloud).
Proof.
  intros H0 H1 Hcloud Hd.
  apply cloud_at_elems in Hcloud as (elems & Hpts & Hall).
  unfold reflect.
  rewrite bind_run, (load_run _ _ _ H0), bind_run, (load_run _ _ _ H1).
  cbv zeta. unfold squared_length in Hd. rewrite Hd.
  rewrite bind_run, (array_length_run _ _ _ Hpts), bind_run, alloc_run.
  set (out := fresh (dom h)).
  set (h1 := <[out := OArray []]> h).
  assert (Hout : h !! out = None) by apply fresh_unused.
  assert (Hpo : points <> out) by congruence.
  assert (Hout1 : h1 !! out = Some (OArray [])) by apply lookup_insert_eq.
  assert (Hkeep : forall l o, h !! l = Some o -> h1 !! l = Some o).
  { intros l o Hl. subst h1. rewrite lookup_insert_ne by congruence. exact Hl. }
  set (dx := P1.(x) - P0.(x)) in *. set (dy := P1.(y) - P0.(y)) in *.
  set (a := (dx * dx - dy * dy) / (dx * dx + dy * dy)).
  set (b := #2 * dx * dy / (dx * dx + dy * dy)).
  destruct (reflect_loop_run points out a b P0.(x) P0.(y) elems Hpo
              elems cloud 0%nat h1 [])
    as (h' & new & Hrun & Hnew & Hcontent).
  - eapply Forall2_impl; [exact Hall |]. intros e p. unfold point_at.
    destruct (h !! e) as [o |] eqn:He; [| discriminate].
    rewrite (Hkeep _ _ He). trivial.
  - apply Hkeep, Hpts.
  - intros k e Hk. exact Hk.
  - exact Hout1.
  - destruct (reflect_loop_frame _ _ _ _ _ _ _ _ _ _ _ _ Hout1 Hrun)
      as (new' & Hnew' & _ & Hoff & Hfresh & _).
    rewrite Hnew in Hnew'. injection Hnew' as <-.
    exists out, h', new. rewrite bind_run, Hrun.
    repeat split.
    + exact Hout.
    + apply map_subseteq_spec. intros l o Hl. apply Hoff; [congruence |].
      apply Hkeep, Hl.
    + exact Hnew.
    + eapply Forall_impl; [exact Hfresh |]. intros e [He1 He2].
      split; [| exact He2].
      destruct (h !! e) as [o |] eqn:He; [| reflexivity].
      rewrite (Hkeep _ _ He) in He1. discriminate.
    + apply cloud_at_elems. exists new. split; [exact Hnew |].
      apply Forall2_fmap_r. exact Hcontent.
Qed.

(** Whatever the arguments and however the call ends, it has changed no
    object that existed; if it returns, it returns its argument and an
    untouched heap, or a new array of new instances. *)
Lemma reflect_frame h points p0 p1 r h' :
  reflect points p0 p1 h = (r, h') ->
  h ⊆ h' /\
  forall out, r = Ok out ->
    (out = points /\ h' = h) \/
    (h !! out = None /\
     exists new, h' !! out = Some (OArray new) /\ Forall (new_point h h') new).
Proof.
  unfold reflect. intros Hrun.
  rewrite bind_run in Hrun.
  destruct (load p0 h) as [[P0 | e] h0] eqn:H0;
    apply readonly_run in H0 as ->; try apply readonly_load;
    [| injection Hrun as <- <-; split; [reflexivity | discriminate]].
  rewrite bind_run in Hrun.
  destruct (load p1 h) as [[P1 | e] h0] eqn:H1;
    apply readonly_run in H1 as ->; try apply readonly_load;
    [| injection Hrun as <- <-; split; [reflexivity | discriminate]].
  cbv zeta in Hrun.
  destruct (Math_abs _ <? dec 1 8).
  { rewrite ret_run in Hrun. injection Hrun as <- <-.
    split; [reflexivity |]. intros out [= <-]. left. split; reflexivity. }
  rewrite bind_run in Hrun.
  destruct (array_length points h) as [[len | e] h0] eqn:Hlen;
    apply readonly_run in Hlen as ->; try apply readonly_array_length;
    [| injection Hrun as <- <-; split; [reflexivity | discriminate]].
  rewrite bind_run, alloc_run in Hrun.
  set (l := fresh (dom h)) in *.
  assert (Hl : h !! l = None) by apply fresh_unused.
  rewrite bind_run in Hrun.
  destruct (for_ 0 len _ tt _) as [ru h2] eqn:Hloop.
  destruct (reflect_loop_frame _ _ _ _ _ _ _ _ _ _ _ _
              (lookup_insert_eq _ _ _) Hloop)
    as (new & Hnew & _ & Hoff & Hfresh & _).
  assert (Hsub : h ⊆ h2).
  { apply map_subseteq_spec. intros l' o Hl'. apply Hoff; [congruence |].
    rewrite lookup_insert_ne by congruence. exact Hl'. }
  destruct ru as [[] | e]; injection Hrun as <- <-;
    (split; [exact Hsub |]); [| discriminate].
  intros out [= <-]. right. split; [exact Hl |].
  exists new. split; [exact Hnew |].
  eapply Forall_impl; [exact Hfresh |]. intros e [He1 He2].
  split; [| exact He2].
  destruct (decide (e = l)) as [-> | Hne]; [exact Hl |].
  rewrite lookup_insert_ne in He1 by congruence. exact He1.
Qed.

(** What a call that returns has done: with the coordinates it read from
    [p0] and [p1], it took the branch of a line without length and
    returned its argument, or it built a new array of as many new
    instances, all different, as the loop bound read from [points]. *)
Lemma reflect_returns h points p0 p1 out h' :
  reflect points p0 p1 h = (Ok out, h') ->
  exists P0 P1,
    load p0 h = (Ok P0, h) /\
    load p1 h = (Ok P1, h) /\
    if Math_abs (squared_length P0 P1) <? dec 1 8
    then out = points /\ h' = h
    else h !! out = None /\
         exists new,
           h' !! out = Some (OArray new) /\
           Forall (new_point h h') new /\
           NoDup new /\
           array_length points h = (Ok (List.length new), h).
Proof.
  unfold reflect. intros Hrun.
  rewrite bind_run in Hrun.
  destruct (load p0 h) as [[P0 | e] h0] eqn:H0; [| discriminate].
  pose proof (readonly_run _ _ _ _ (readonly_load p0) H0) as ->.
  rewrite bind_run in Hrun.
  destruct (load p1 h) as [[P1 | e] h0] eqn:H1; [| discriminate].
  pose proof (readonly_run _ _ _ _ (readonly_load p1) H1) as ->.
  exists P0, P1. split; [reflexivity |]. split; [reflexivity |].
  cbv zeta in Hrun. unfold squared_length.
  destruct (Math_abs _ <? dec 1 8).
  { rewrite ret_run in Hrun. injection Hrun as <- <-. split; reflexivity. }
  rewrite bind_run in Hrun.
  destruct (array_length points h) as [[len | e] h0] eqn:Hlen;
    [| discriminate].
  pose proof (readonly_run _ _ _ _ (readonly_array_length points) Hlen) as ->.
  rewrite bind_run, alloc_run in Hrun.
  set (l := fresh (dom h)) in *.
  assert (Hl : h !! l = None) by apply fresh_unused.
  rewrite bind_run in Hrun.
  destruct (for_ 0 len _ tt _) as [ru h2] eqn:Hloop.
  destruct (reflect_loop_frame _ _ _ _ _ _ _ _ _ _ _ _
              (lookup_insert_eq _ _ _) Hloop)
    as (new & Hnew & Hcount & Hoff & Hfresh & Hdistinct).
  destruct ru as [[] | e]; [| discriminate].
  rewrite ret_run in Hrun. injection Hrun as <- <-.
  split; [exact Hl |]. exists new. split; [exact Hnew |].
  split; [| split; [exact Hdistinct |]].
  - eapply Forall_impl; [exact Hfresh |]. intros e [He1 He2].
    split; [| exact He2].
    destruct (decide (e = l)) as [-> | Hne]; [exact Hl |].
    rewrite lookup_insert_ne in He1 by congruence. exact He1.
  - rewrite (Hcount eq_refl). reflexivity.
Qed.

End ReflectCall.

(* ===================================================================== *)
(** * Part III: the claims of the specification                           *)
(* ===================================================================== *)

Section StructuralClaims.
Context {T : Type} {num : JSNumber T} {laws : JSNumberLaws T}.
Local Open Scope js_scope.

(** C7. [l2Norm] with a point argument left out or [null] is [0], whatever
    the other argument is, and on two points it is the square root of the
    sum of the squared coordinate differences.  The function is total:
    there is no argument on which it raises. *)
Theorem l2Norm_absent_or_distance :
  (forall p1 : arg (Point T), l2Norm Undefined p1 = #0) /\
  (forall p1 : arg (Point T), l2Norm Null p1 = #0) /\
  (forall p0 : arg (Point T), l2Norm p0 Undefined = #0) /\
  (forall p0 : arg (Point T), l2Norm p0 Null = #0) /\
  (forall p0 p1 : Point T,
     l2Norm (Given p0) (Given p1) =
     Math_sqrt ((p0.(x) - p1.(x)) * (p0.(x) - p1.(x))
                + (p0.(y) - p1.(y)) * (p0.(y) - p1.(y)))).
Proof.
  repeat split; try reflexivity; intros [| |]; reflexivity.
Qed.

(** C10. Assigning a number [v] to [x] or to [y] stores [v] if it is
    neither NaN nor infinite and [0] otherwise, so what is stored is a
    finite number; the assignment leaves the other coordinate as it was,
    and the next [length()] is the square root of the sum of the squares of
    the coordinates then stored. *)
Theorem setters_store_finite_and_invalidate
    (parseFloat : string -> T) (this : TSMT_Point.TSMT_Point T) (v : T) :
  let stored := if negb (isNaN v) && isFinite v then v else #0 in
  isFinite stored = true /\
  (exists this',
     TSMT_Point.set_x parseFloat (TSMT_Point.VNumber v) this = Some this' /\
     TSMT_Point.get_x this' = stored /\
     TSMT_Point.get_y this' = TSMT_Point.get_y this /\
     fst (TSMT_Point.length this') =
       Math_sqrt (stored * stored
                  + TSMT_Point.get_y this * TSMT_Point.get_y this)) /\
  (exists this',
     TSMT_Point.set_y parseFloat (TSMT_Point.VNumber v) this = Some this' /\
     TSMT_Point.get_y this' = stored /\
     TSMT_Point.get_x this' = TSMT_Point.get_x this /\
     fst (TSMT_Point.length this') =
       Math_sqrt (TSMT_Point.get_x this * TSMT_Point.get_x this
                  + stored * stored)).
Proof.
  intros stored. split.
  - subst stored. destruct (isNaN v), (isFinite v) eqn:Hv; cbn;
      first [exact Hv | apply zero_finite].
  - split; eexists; (split; [reflexivity |]); repeat split; reflexivity.
Qed.

(** C6. [compare] is [false] when an argument is left out, [null] or NaN;
    otherwise [true] when the two numbers are equal; otherwise it tells
    whether [|a - b|] divided by the larger of [|a|] and [|b|] is at most
    the tolerance, which is [0.001] when none is passed. *)
Theorem compare_relative_error (a b : arg T) (tol : option T) :
  TSMT_ApproxEqual.compare a b tol =
  match a, b with
  | Given a, Given b =>
      if isNaN a || isNaN b then false
      else if a ==? b then true
      else Math_abs (a - b) / larger (Math_abs a) (Math_abs b)
           <=? match tol with None => dec 1 3 | Some t => t end
  | _, _ => false
  end.
Proof.
  unfold TSMT_ApproxEqual.compare, larger.
  destruct a as [| | a], b as [| | b]; try reflexivity.
  destruct (isNaN a || isNaN b); [reflexivity |].
  destruct (a ==? b); [reflexivity |].
  destruct (Math_abs a <? Math_abs b); rewrite abs_div; reflexivity.
Qed.

End StructuralClaims.

Section HeapClaims.
Context {T : Type} {num : JSNumber T} {laws : JSNumberLaws T}.
Local Open Scope js_scope.
Implicit Types (h : gmap loc (object T)) (l : loc).

(** C3. With [d] the squared length of [p1 - p0]: if [d < 1e-8],
    [reflect] returns the reference it was given and leaves the heap as it
    was; if [d >= 1e-8], it returns a reference that was not in use, to an
    array of new [TSMT$Point] instances, one per element of the cloud and in
    the same order, each with the coordinates of the Householder reflection
    of that element, and every object that existed is unchanged. *)
Theorem reflect_degenerate_or_householder h points p0 p1 P0 P1 cloud :
  point_at h p0 = Some P0 ->
  point_at h p1 = Some P1 ->
  cloud_at h points = Some cloud ->
  let d := squared_length P0 P1 in
  ((d <? dec 1 8) = true -> reflect points p0 p1 h = (Ok points, h)) /\
  ((d >=? dec 1 8) = true ->
   exists out h' new,
     reflect points p0 p1 h = (Ok out, h') /\
     h !! out = None /\
     h ⊆ h' /\
     h' !! out = Some (OArray new) /\
     Forall (new_point h h') new /\
     List.length new = List.length cloud /\
     cloud_at h' out = Some (map (householder P0 P1) cloud)).
Proof.
  intros H0 H1 Hcloud d. subst d. split; intros Hd.
  - apply (reflect_degenerate_run _ _ _ _ _ _ H0 H1).
    unfold squared_length in *. rewrite abs_sum_squares. exact Hd.
  - apply nle_not_nlt in Hd.
    destruct (reflect_run h points p0 p1 P0 P1 cloud H0 H1 Hcloud)
      as (out & h' & new & Hrun & Hfresh & Hsub & Hnew & Hall & Hres).
    { unfold squared_length in *. rewrite abs_sum_squares. exact Hd. }
    exists out, h', new. repeat split; try assumption.
    apply cloud_at_elems in Hres as (new' & Hnew' & Hres).
    rewrite Hnew in Hnew'. injection Hnew' as <-.
    rewrite (Forall2_length _ _ _ Hres). apply length_map.
Qed.

(** C1. On a cloud of two or more points [closestPointToLine] returns no
    index: it throws a [TypeError] in the first iteration of its loop, where
    it reads [p[i].x] of the point [p = points[i]] it has just fetched. *)
Theorem closestPointToLine_throws_on_two_points h points p0 p1 P0 P1 cloud :
  point_at h p0 = Some P0 ->
  point_at h p1 = Some P1 ->
  cloud_at h points = Some cloud ->
  (2 <= List.length cloud)%nat ->
  closestPointToLine points p0 p1 h = (Throw TypeError, h).
Proof.
  intros H0 H1 Hcloud Hlen.
  apply cloud_at_elems in Hcloud as (elems & Hpts & Hall).
  destruct Hall as [| e0 Q0 elems' cloud' HQ0 Hall]; [cbn in Hlen; lia |].
  destruct Hall as [| e1 Q1 elems' cloud' HQ1 Hall]; [cbn in Hlen; lia |].
  exact (closestPointToLine_throws h points p0 p1 P0 P1 _ e0 e1 Q0 Q1
           H0 H1 Hpts eq_refl eq_refl HQ0 HQ1).
Qed.

(** On a cloud of one point the loop does not run and the index is [0]. *)
Lemma closestPointToLine_single h points p0 p1 P0 P1 Q :
  point_at h p0 = Some P0 ->
  point_at h p1 = Some P1 ->
  cloud_at h points = Some [Q] ->
  closestPointToLine points p0 p1 h = (Ok 0%nat, h).
Proof.
  intros H0 H1 Hcloud.
  apply cloud_at_elems in Hcloud as (elems & Hpts & Hall).
  inversion Hall as [| e0 Q0 elems' cloud' HQ0 Hall']; subst.
  inversion Hall'; subst.
  unfold closestPointToLine.
  rewrite bind_run, (load_run _ _ _ H0), bind_run, (load_run _ _ _ H1).
  cbv zeta.
  rewrite bind_run, (array_length_run _ _ _ Hpts).
  rewrite !bind_run, (index_array_run _ _ _ _ Hpts). cbn [lookup list_lookup].
  cbn [load_arg]. rewrite (load_run _ _ _ HQ0). reflexivity.
Qed.

End HeapClaims.

Section FrameClaim.
Context {T : Type} {num : JSNumber T} {trig : JSTrig T}.
Local Open Scope js_scope.
Implicit Types (h : gmap loc (object T)) (l : loc).

(** One read of the coordinates of an argument: it leaves the heap as it
    was, and the call ends there if it throws. *)
Local Ltac load_step Hrun :=
  rewrite bind_run in Hrun;
  match type of Hrun with
  | context [match ?m ?h0 with _ => _ end] =>
      let Hld := fresh "Hld" in
      destruct (m h0) as [[? | ?] ?] eqn:Hld;
      apply readonly_run in Hld as ->;
      try first [apply readonly_load | apply readonly_load_opt];
      [| injection Hrun as <- <-;
         split; [reflexivity | intros _; reflexivity]]
  end.

Local Ltac returned Hrun := rewrite ret_run in Hrun; injection Hrun as <- <-.

(** A loop over the cloud that only reads. *)
Local Ltac scan_step Hrun lem :=
  rewrite bind_run in Hrun;
  match type of Hrun with
  | context [match ?m ?h0 with _ => _ end] =>
      let Hsc := fresh "Hsc" in
      destruct (m h0) as [[? | ?] ?] eqn:Hsc;
      apply readonly_run in Hsc as ->; try apply lem;
      [returned Hrun; split; reflexivity
      | injection Hrun as <- <-;
        split; [reflexivity | intros _; reflexivity]]
  end.

(** C8. A call of any operation of the library, whether it returns or
    throws, has changed no object that existed before it, and a call that
    throws has left the heap as it was unless it is a call of [reflect].
    If the call returns a number, an index or a boolean the heap is as it
    was; a point returned is a new [TSMT$Point] instance.  A cloud is
    returned by [reflect] alone: with the coordinates of [p0] and [p1] it
    read, when the squared length of [p1 - p0] is below [1e-8] in magnitude
    it is the cloud argument, returned with the heap as it was, and
    otherwise it is a new array of new instances, all different, as many as
    the loop bound read from the cloud argument. *)
Theorem invoke_changes_no_object (c : call T) h r h' :
  invoke c h = (r, h') ->
  h ⊆ h' /\
  match r with
  | Throw _ =>
      (forall points p0 p1, c <> call_reflect points p0 p1) -> h' = h
  | Ok (RNumber _ | RIndex _ | RBoolean _) => h' = h
  | Ok (RPoint l) => new_point h h' l
  | Ok (RCloud l) =>
      exists points p0 p1 P0 P1,
        c = call_reflect points p0 p1 /\
        load p0 h = (Ok P0, h) /\
        load p1 h = (Ok P1, h) /\
        if Math_abs (squared_length P0 P1) <? dec 1 8
        then l = points /\ h' = h
        else h !! l = None /\
             exists new,
               h' !! l = Some (OArray new) /\
               Forall (new_point h h') new /\
               NoDup new /\
               array_length points h = (Ok (List.length new), h)
  end.
Proof.
  intros Hrun. destruct c; cbn [invoke] in Hrun.
  all: try (repeat load_step Hrun; returned Hrun; split; reflexivity).
  - (* project *)
    repeat load_step Hrun. rewrite bind_run, alloc_run in Hrun. returned Hrun.
    split; [apply insert_subseteq, fresh_unused |].
    split; [apply fresh_unused | eexists; apply lookup_insert_eq].
  - (* bottomLeft *) scan_step Hrun readonly_bottomLeft.
  - (* bottomRight *) scan_step Hrun readonly_bottomRight.
  - (* closestPointToLine *) scan_step Hrun readonly_closestPointToLine.
  - (* pointSegmentProjection *)
    repeat load_step Hrun. rewrite bind_run, alloc_run in Hrun. returned Hrun.
    split; [apply insert_subseteq, fresh_unused |].
    split; [apply fresh_unused | eexists; apply lookup_insert_eq].
  - (* reflect *)
    rewrite bind_run in Hrun.
    destruct (reflect points p0 p1 h) as [[out | e] h1] eqn:Hr;
      destruct (reflect_frame _ _ _ _ _ _ Hr) as [Hsub _].
    + returned Hrun. split; [exact Hsub |].
      exists points, p0, p1.
      destruct (reflect_returns _ _ _ _ _ _ Hr) as (P0 & P1 & H0 & H1 & Hres).
      exists P0, P1. auto.
    + injection Hrun as <- <-. split; [exact Hsub |].
      intros Hother. destruct (Hother points p0 p1 eq_refl).
Qed.

End FrameClaim.

(** ** Exact arithmetic *)

Section ExactClaims.
Local Open Scope R_scope.


Lemma xsqrt_fin (r : R) : 0 <= r -> xsqrt (XFin r) = XFin (sqrt r).
Proof. intros Hr. cbn. rewrite Rltb_false by exact Hr. reflexivity. Qed.

Lemma xdiv_fin (a b : R) : b <> 0 -> xdiv (XFin a) (XFin b) = XFin (a / b).
Proof. intros Hb. cbn. rewrite Reqb_false by exact Hb. reflexivity. Qed.

(** In exact arithmetic, for finite points with [p0 <> p1], the distance
    from [p] to the segment is at least its distance to the line through
    [p0] and [p1]. *)
Lemma segment_distance_ge_line_distance_exact (x0 y0 x1 y1 px py : R) :
  x0 <> x1 \/ y0 <> y1 ->
  (pointToLineDistancee (fin x0 y0) (fin x1 y1) (fin px py)
   <=? pointToSegmentDistance (fin x0 y0) (fin x1 y1) (fin px py))%js = true.
Proof.
  intros Hne.
  set (vx := x1 - x0). set (vy := y1 - y0).
  set (wx := px - x0). set (wy := py - y0).
  set (c1 := wx * vx + wy * vy). set (c2 := vx * vx + vy * vy).
  assert (Hc2 : 0 < c2).
  { unfold c2. destruct Hne as [Hx | Hy].
    - assert (vx <> 0) by (unfold vx; lra).
      destruct (Rtotal_order vx 0) as [? | [? | ?]]; [nra | lra | nra].
    - assert (vy <> 0) by (unfold vy; lra).
      destruct (Rtotal_order vy 0) as [? | [? | ?]]; [nra | lra | nra]. }
  unfold pointToLineDistancee, pointToSegmentDistance. cbn.
  fold vx vy wx wy. fold c2.
  rewrite (Reqb_false c2 0) by lra. cbn.
  replace (vx * wx + vy * wy) with c1 by (unfold c1; ring).
  fold c1.
  set (dx := px - (x0 + c1 / c2 * vx)). set (dy := py - (y0 + c1 / c2 * vy)).
  assert (Hperp : dx * dx + dy * dy = wx * wx + wy * wy - c1 * c1 / c2).
  { assert (Hnz : c2 <> 0) by lra.
    unfold dx, dy, c1, c2, wx, wy in *. field. exact Hnz. }
  assert (Hsq : 0 <= c1 * c1 / c2).
  { apply Rmult_le_pos; [nra | left; apply Rinv_0_lt_compat; exact Hc2]. }
  assert (Hd : 0 <= dx * dx + dy * dy) by nra.
  rewrite (Rltb_false (dx * dx + dy * dy) 0) by exact Hd.
  destruct (Rle_dec c1 0) as [Hneg | Hpos].
  - rewrite (Rleb_true c1 0) by exact Hneg. cbn.
    rewrite (Rltb_false (wx * wx + wy * wy) 0) by nra.
    apply Rleb_true, sqrt_le_1; lra.
  - rewrite (Rleb_false c1 0) by lra.
    destruct (Rle_dec c2 c1) as [Hfar | Hnear].
    + rewrite (Rleb_true c2 c1) by exact Hfar. cbn.
      set (ex := x1 - px). set (ey := y1 - py).
      assert (He : ex * ex + ey * ey = wx * wx + wy * wy - 2 * c1 + c2).
      { unfold ex, ey, c1, c2, wx, wy, vx, vy. ring. }
      assert (Hgap : 0 <= (c2 - c1) * (c2 - c1) / c2).
      { apply Rmult_le_pos; [nra | left; apply Rinv_0_lt_compat; exact Hc2]. }
      assert (Hle : dx * dx + dy * dy <= ex * ex + ey * ey).
      { rewrite Hperp, He.
        replace (wx * wx + wy * wy - 2 * c1 + c2)
          with (wx * wx + wy * wy - c1 * c1 / c2 + (c2 - c1) * (c2 - c1) / c2)
          by (field; lra).
        lra. }
      rewrite (Rltb_false (ex * ex + ey * ey) 0) by nra.
      apply Rleb_true, sqrt_le_1; lra.
    + rewrite (Rleb_false c2 c1) by lra. cbn.
      apply Rleb_true. lra.
Qed.

(** C5.  The distance from [p] to the segment from [p0] to [p1] against
    its distance to the line through them.  On doubles the two are the same
    number whenever neither clamp fires ([0 < c1 < c2]), since both
    functions then evaluate the same expression.  In exact arithmetic, for
    finite points with [p0 <> p1], the distance to the segment is at least
    the distance to the line in every branch. *)
Theorem segment_distance_ge_line_distance :
  (forall p0 p1 p : Point float,
     ((p.(x) - p0.(x)) * (p1.(x) - p0.(x))
      + (p.(y) - p0.(y)) * (p1.(y) - p0.(y)) <=? #0)%js = false ->
     ((p1.(x) - p0.(x)) * (p1.(x) - p0.(x))
      + (p1.(y) - p0.(y)) * (p1.(y) - p0.(y))
      <=? (p.(x) - p0.(x)) * (p1.(x) - p0.(x))
          + (p.(y) - p0.(y)) * (p1.(y) - p0.(y)))%js = false ->
     pointToSegmentDistance p0 p1 p = pointToLineDistancee p0 p1 p) /\
  (forall x0 y0 x1 y1 px py : R,
     x0 <> x1 \/ y0 <> y1 ->
     (pointToLineDistancee (fin x0 y0) (fin x1 y1) (fin px py)
      <=? pointToSegmentDistance (fin x0 y0) (fin x1 y1) (fin px py))%js
     = true).
Proof.
  split.
  - exact segment_distance_inside_binary64.
  - exact segment_distance_ge_line_distance_exact.
Qed.

(** In exact arithmetic, on a degenerate segment ([p1] has the coordinates
    of [p0]) with finite coordinates, [pointToSegmentDistance] takes its
    first branch and returns the finite distance from [p] to [p0], the
    number [l2Norm(p, p0)] computes, while [pointToLineDistancee] divides
    zero by zero and returns NaN. *)
Lemma degenerate_segment_distance_exact (x0 y0 px py : R) :
  pointToSegmentDistance (fin x0 y0) (fin x0 y0) (fin px py)
    = XFin (sqrt ((px - x0) * (px - x0) + (py - y0) * (py - y0))) /\
  pointToSegmentDistance (fin x0 y0) (fin x0 y0) (fin px py)
    = l2Norm (Given (fin px py)) (Given (fin x0 y0)) /\
  pointToLineDistancee (fin x0 y0) (fin x0 y0) (fin px py) = XNaN.
Proof.
  assert (Hsq : 0 <= (px - x0) * (px - x0) + (py - y0) * (py - y0)).
  { pose proof (Rle_0_sqr (px - x0)). pose proof (Rle_0_sqr (py - y0)).
    unfold Rsqr in *. lra. }
  unfold pointToSegmentDistance, pointToLineDistancee, l2Norm. cbn.
  rewrite (Rleb_true _ 0) by (right; ring).
  cbn. rewrite (Rltb_false _ 0) by exact Hsq.
  repeat split.
  rewrite (Reqb_true ((x0 - x0) * (x0 - x0) + (y0 - y0) * (y0 - y0)) 0)
    by ring.
  rewrite (Reqb_true _ 0) by ring. reflexivity.
Qed.

(** C9.  On a degenerate segment ([p1] has the coordinates of [p0], both
    finite) [pointToSegmentDistance] takes its first branch, [c1 <= 0], and
    returns the distance from [p] to [p0] as [l2Norm(p, p0)] computes it,
    while [pointToLineDistancee] returns NaN.  On doubles this holds
    whenever the offsets of [p] from [p0] do not overflow, and the distance
    is then not NaN; in exact arithmetic, where nothing overflows, it is
    the finite number [sqrt ((p.x - p0.x)^2 + (p.y - p0.y)^2)]. *)
Theorem degenerate_segment_distance_clamps :
  (forall x0 y0 px py : float,
     is_finite x0 = true -> is_finite y0 = true ->
     is_finite (px - x0)%float = true -> is_finite (py - y0)%float = true ->
     pointToSegmentDistance (pt x0 y0) (pt x0 y0) (pt px py)
       = l2Norm (Given (pt px py)) (Given (pt x0 y0)) /\
     isNaN (pointToSegmentDistance (pt x0 y0) (pt x0 y0) (pt px py)) = false /\
     isNaN (pointToLineDistancee (pt x0 y0) (pt x0 y0) (pt px py)) = true) /\
  (forall x0 y0 px py : R,
     pointToSegmentDistance (fin x0 y0) (fin x0 y0) (fin px py)
       = XFin (sqrt ((px - x0) * (px - x0) + (py - y0) * (py - y0))) /\
     pointToSegmentDistance (fin x0 y0) (fin x0 y0) (fin px py)
       = l2Norm (Given (fin px py)) (Given (fin x0 y0)) /\
     pointToLineDistancee (fin x0 y0) (fin x0 y0) (fin px py) = XNaN).
Proof.
  split.
  - exact degenerate_segment_distance_binary64.
  - exact degenerate_segment_distance_exact.
Qed.

Lemma dec_exact (m : Z) (k : nat) :
  (dec m k : xnum) = XFin (IZR m / IZR (10 ^ Z.of_nat k)).
Proof.
  unfold dec. cbn [ofZ ndiv xnum_number]. apply xdiv_fin.
  apply not_0_IZR. apply Z.pow_nonzero; lia.
Qed.

Lemma finite_point_fin (p : Point xnum) :
  finite_point p -> exists a b, p = fin a b.
Proof.
  destruct p as [[| s | a] [| t | b]]; unfold finite_point; cbn;
    try discriminate.
  intros _. exists a, b. reflexivity.
Qed.

Lemma householder_involutive_exact (P0 P1 p : Point xnum) :
  finite_point P0 -> finite_point P1 -> finite_point p ->
  (squared_length P0 P1 >=? dec 1 8)%js = true ->
  householder P0 P1 (householder P0 P1 p) = p.
Proof.
  intros H0 H1 Hp Hd.
  apply finite_point_fin in H0 as (x0 & y0 & ->).
  apply finite_point_fin in H1 as (x1 & y1 & ->).
  apply finite_point_fin in Hp as (px & py & ->).
  rewrite dec_exact in Hd. unfold squared_length in Hd. cbn in Hd.
  apply Rleb_spec in Hd.
  set (dx := x1 - x0) in *. set (dy := y1 - y0) in *.
  assert (Hpos : 0 < dx * dx + dy * dy).
  { eapply Rlt_le_trans; [| exact Hd].
    apply Rdiv_lt_0_compat; apply IZR_lt; reflexivity. }
  unfold householder. cbn. fold dx dy.
  rewrite !(Reqb_false (dx * dx + dy * dy) 0) by lra. cbn.
  f_equal; f_equal; field; lra.
Qed.

Lemma point_at_weaken (h h' : gmap loc (object xnum)) l P :
  h ⊆ h' -> point_at h l = Some P -> point_at h' l = Some P.
Proof.
  intros Hsub. unfold point_at.
  destruct (h !! l) as [o |] eqn:Hl; [| discriminate].
  rewrite (lookup_weaken _ _ _ _ Hl Hsub). trivial.
Qed.

(** C4, in exact arithmetic.  Reflecting a cloud of finite points twice
    about the same line, of squared length at least [1e-8], gives a cloud
    whose elements have exactly the coordinates of the original ones. *)
Theorem reflect_twice_exact (h : gmap loc (object xnum))
    points p0 p1 P0 P1 cloud :
  point_at h p0 = Some P0 ->
  point_at h p1 = Some P1 ->
  cloud_at h points = Some cloud ->
  finite_point P0 -> finite_point P1 -> Forall finite_point cloud ->
  (squared_length P0 P1 >=? dec 1 8)%js = true ->
  exists out1 h1 out2 h2,
    reflect points p0 p1 h = (Ok out1, h1) /\
    reflect out1 p0 p1 h1 = (Ok out2, h2) /\
    cloud_at h2 out2 = Some cloud.
Proof.
  intros H0 H1 Hcloud Hf0 Hf1 Hfin Hd.
  assert (Hnd : (Math_abs (squared_length P0 P1) <? dec 1 8)%js = false).
  { unfold squared_length. rewrite abs_sum_squares.
    apply nle_not_nlt. exact Hd. }
  destruct (reflect_run h points p0 p1 P0 P1 cloud H0 H1 Hcloud Hnd)
    as (out1 & h1 & new1 & Hrun1 & _ & Hsub1 & _ & _ & Hcloud1).
  destruct (reflect_run h1 out1 p0 p1 P0 P1 _
              (point_at_weaken _ _ _ _ Hsub1 H0)
              (point_at_weaken _ _ _ _ Hsub1 H1) Hcloud1 Hnd)
    as (out2 & h2 & new2 & Hrun2 & _ & _ & _ & _ & Hcloud2).
  exists out1, h1, out2, h2. repeat split; [exact Hrun1 | exact Hrun2 |].
  rewrite Hcloud2. f_equal. rewrite <- list_fmap_compose.
  clear -Hfin Hf0 Hf1 Hd. induction Hfin as [| p cloud Hp _ IH]; cbn.
  - reflexivity.
  - rewrite IH. f_equal.
    apply householder_involutive_exact; assumption.
Qed.

End ExactClaims.

Section ProjectClaim.
Local Open Scope R_scope.

Lemma PI_bounds : 313 / 100 < PI < 315 / 100.
Proof.
  pose proof (PI_2_3_7_ineq 1) as [Hlo Hhi].
  unfold sum_f_R0, tg_alt, PI_2_3_7_tg, Ratan_seq in Hlo, Hhi.
  simpl in Hlo, Hhi. lra.
Qed.

Lemma cos_90_nonzero : cos 90 <> 0.
Proof.
  intros Hcos. apply cos_eq_0_0 in Hcos as [k Hk].
  pose proof PI_bounds as [Hlo Hhi].
  destruct (Z_le_gt_dec k 28) as [Hle | Hgt].
  - apply IZR_le in Hle. nra.
  - assert (Hge : (29 <= k)%Z) by lia. apply IZR_le in Hge. nra.
Qed.

(** Products, quotients and decimal literals whose zero is [+0]. *)
Lemma smul_real (a b : R) :
  (a = 0 -> 0 <= b) -> (b = 0 -> 0 <= a) ->
  smul (SReal a) (SReal b) = SReal (a * b).
Proof.
  intros Ha Hb. unfold smul, signed. cbn [sreal ssign].
  destruct (Req_dec_T (a * b) 0) as [Hab | Hab].
  - rewrite (Reqb_true _ _ Hab), Hab.
    destruct (Rmult_integral _ _ Hab) as [Hz | Hz];
      rewrite (Rltb_false a 0), (Rltb_false b 0)
        by first [lra | apply Ha; exact Hz | apply Hb; exact Hz];
      reflexivity.
  - rewrite (Reqb_false _ _ Hab). reflexivity.
Qed.

Lemma sdiv_real (a b : R) :
  b <> 0 -> (a = 0 -> 0 < b) ->
  sdiv (SReal a) (SReal b) = SReal (a / b).
Proof.
  intros Hb Hz. unfold sdiv, signed. cbn [sreal ssign].
  rewrite (Reqb_false b 0 Hb).
  destruct (Req_dec_T a 0) as [-> | Ha].
  - specialize (Hz eq_refl).
    replace (0 / b) with 0 by (field; exact Hb).
    rewrite (Reqb_true 0 0), (Rltb_false 0 0), (Rltb_false b 0)
      by first [reflexivity | lra].
    reflexivity.
  - rewrite Reqb_false; [reflexivity |].
    intros Hq. apply Ha.
    replace a with (a / b * b) by (field; exact Hb). rewrite Hq. ring.
Qed.

Lemma dec_signed (m : Z) (k : nat) :
  (dec m k : snum) = SReal (IZR m / IZR (10 ^ Z.of_nat k)).
Proof.
  unfold dec. cbn [ofZ ndiv snum_number].
  assert (Hp : 0 < IZR (10 ^ Z.of_nat k)) by (apply IZR_lt; lia).
  apply sdiv_real; [lra | intros _; exact Hp].
Qed.

(** The conversion to degrees of an angle that is a real number. *)
Lemma degrees_real (v : R) :
  (#180 * SReal v / Math_PI)%js = SReal (180 * v / PI).
Proof.
  pose proof PI_RGT_0 as Hpi.
  cbn [ofZ nmul ndiv snum_number Math_PI snum_trig].
  rewrite smul_real by (intros Hz; lra).
  apply sdiv_real; [lra | intros _; exact Hpi].
Qed.

Lemma angle_up_radians :
  angle (real_pt 0 0) (real_pt 0 1) (Some false) = SReal (PI / 2).
Proof.
  unfold angle. cbn.
  rewrite (Rltb_false 0 (0 - 0)), (Rltb_false (0 - 0) 0) by lra.
  rewrite (Rltb_true 0 (1 - 0)) by lra. reflexivity.
Qed.

Lemma angle_up_default : angle (real_pt 0 0) (real_pt 0 1) None = SReal 90.
Proof.
  pose proof angle_up_radians as Hrad. unfold angle in *. cbv zeta in *.
  rewrite Hrad, degrees_real. f_equal. field.
  pose proof PI_RGT_0. lra.
Qed.

(** C2, at the point [(0,1)] straight above the origin and distance [1].
    The direction is [PI/2] radians, [angle] called with two arguments
    returns it in degrees, [90], and [project] takes the cosine and the sine
    of that number: the point it constructs is [(cos 90, sin 90)], whose
    first coordinate is not [0 + 1 * cos (PI/2) = 0]. *)
Theorem project_takes_cosine_of_degrees :
  let q := project (real_pt 0 0) (real_pt 0 1) (SReal 1) in
  angle (real_pt 0 0) (real_pt 0 1) (Some false) = SReal (PI / 2) /\
  TSMT_Point.get_x q = SReal (0 + cos 90 * 1) /\
  TSMT_Point.get_y q = SReal (0 + sin 90 * 1) /\
  TSMT_Point.get_x q <> SReal (0 + cos (PI / 2) * 1).
Proof.
  cbv zeta. unfold project. rewrite angle_up_default, angle_up_radians.
  unfold TSMT_Point.get_x, TSMT_Point.get_y, TSMT_Point.new, TSMT_Point.length.
  cbn [TSMT_Point._x TSMT_Point._y TSMT_Point._invalidated x y
       Math_cos Math_sin snum_trig scos ssin nadd nmul snum_number].
  rewrite !smul_real by (intros Hz; lra).
  repeat split.
  intros Heq. injection Heq as Heq. rewrite cos_PI2 in Heq.
  apply cos_90_nonzero. lra.
Qed.

(** When [p1] has the coordinates of [p0], none of them [-0], the angle is
    [0] in either unit, and the point constructed is [(p0.x + d, p0.y)]. *)
Lemma project_degenerate (x0 y0 d : R) :
  let q := project (real_pt x0 y0) (real_pt x0 y0) (SReal d) in
  TSMT_Point.get_x q = SReal (x0 + d) /\ TSMT_Point.get_y q = SReal y0.
Proof.
  cbv zeta. unfold project, angle. cbv zeta.
  cbn [x y nsub snum_number ssub Math_atan2 snum_trig satan2].
  rewrite (Rltb_false 0 (x0 - x0)), (Rltb_false (x0 - x0) 0) by lra.
  rewrite (Rltb_false 0 (y0 - y0)), (Rltb_false (y0 - y0) 0) by lra.
  rewrite degrees_real. pose proof PI_RGT_0.
  replace (180 * 0 / PI) with 0 by (field; lra).
  unfold TSMT_Point.get_x, TSMT_Point.get_y, TSMT_Point.new, TSMT_Point.length.
  cbn [TSMT_Point._x TSMT_Point._y TSMT_Point._invalidated x y
       Math_cos Math_sin snum_trig scos ssin nadd nmul snum_number].
  rewrite cos_0, sin_0. split.
  - rewrite smul_real by (intros Hz; lra). cbn [sadd]. f_equal. ring.
  - unfold smul, signed. cbn [sreal ssign].
    rewrite (Reqb_true (0 * d) 0), (Rltb_false 0 0) by first [ring | lra].
    destruct (Rltb d 0); cbn [xorb szero sadd]; [reflexivity |].
    f_equal. ring.
Qed.

End ProjectClaim.

(** ** Binary64: the numbers the code runs on *)

Section Binary64Claims.
Local Open Scope js_scope.
Local Set Warnings "-inexact-float".


(** The decimal literals of the library, read as JavaScript reads them. *)
Lemma dec_literals_binary64 :
  (dec 1 3 : float) = 0.001%float /\
  (dec 1 4 : float) = 0.0001%float /\
  (dec 1 7 : float) = 0.0000001%float /\
  (dec 1 8 : float) = 0.00000001%float.
Proof. repeat split. Qed.

(** The scenario [l2Norm({x:0,y:1}, {x:1,y:0})] of the specification. *)
Lemma l2Norm_scenario :
  l2Norm (Given (pt 0 1)) (Given (pt 1 0)) = 1.4142135623730951%float.
Proof. reflexivity. Qed.

(** The demo cloud reflected about the demo line: the first element,
    [(20,10)], goes to [(284,538)]. *)
Lemma reflect_demo_golden :
  exists out h',
    reflect ref_points ref_p0 ref_p1 demo_heap = (Ok out, h') /\
    cloud_at h' out =
      Some [pt 284 538; pt 262 509; pt 260 420; pt 194.4 465.8; pt 270 490;
            pt 342 419; pt 328 346; pt 268 326; pt 388 366; pt 205 410;
            pt 196 372].
Proof. do 2 eexists. split; vm_compute; reflexivity. Qed.

(** A line whose two points coincide: the cloud comes back as it is. *)
Lemma reflect_degenerate_scenario :
  reflect ref_points ref_p0 ref_p0 demo_heap = (Ok ref_points, demo_heap).
Proof. reflexivity. Qed.

Lemma closestPointToLine_scenario :
  closestPointToLine ref_points ref_p0 ref_p1 scenario_heap
  = (Throw TypeError, scenario_heap).
Proof.
  apply (closestPointToLine_throws_on_two_points scenario_heap
           ref_points ref_p0 ref_p1 (pt 0 5) (pt 10 5) [pt 0 0; pt 10 10]).
  - reflexivity.
  - reflexivity.
  - reflexivity.
  - cbn. lia.
Defined.

(** C4 as stated fails on doubles: reflected twice about the line through
    [(0,0)] and [(2,3)], the point [(1000000, 1000000000)] comes back with
    [y = 1000000000.0000001], more than [1e-9] away. *)
Lemma reflect_twice_drifts_binary64 :
  exists out1 h1 out2 h2 q,
    reflect ref_points ref_p0 ref_p1 far_heap = (Ok out1, h1) /\
    reflect out1 ref_p0 ref_p1 h1 = (Ok out2, h2) /\
    cloud_at h2 out2 = Some [q] /\
    (Math_abs (q.(y) - 1000000000%float) <=? dec 1 9) = false.
Proof.
  do 5 eexists. split; [vm_compute; reflexivity |].
  split; [vm_compute; reflexivity |].
  split; [vm_compute; reflexivity |].
  vm_compute. reflexivity.
Qed.

(** On the demo cloud and line the two reflections do come back within
    [1e-9] of every original coordinate on doubles. *)
Lemma reflect_twice_demo_binary64 :
  exists out1 h1 out2 h2 cloud,
    reflect ref_points ref_p0 ref_p1 demo_heap = (Ok out1, h1) /\
    reflect out1 ref_p0 ref_p1 h1 = (Ok out2, h2) /\
    cloud_at h2 out2 = Some cloud /\
    Forall2 (fun p q =>
               (Math_abs (q.(x) - p.(x)) <=? dec 1 9) = true /\
               (Math_abs (q.(y) - p.(y)) <=? dec 1 9) = true)
            (map point_of demo_cloud) cloud.
Proof.
  do 5 eexists. split; [vm_compute; reflexivity |].
  split; [vm_compute; reflexivity |].
  split; [vm_compute; reflexivity |].
  repeat constructor.
Qed.

(** C5 as stated fails on doubles: [p = p1 = (0, 0.1)] is an end of the
    segment from [(0,1)], at distance [0] from it, and its computed
    distance to the line is positive. *)
Lemma segment_distance_below_line_distance_binary64 :
  pointToSegmentDistance (pt 0 1) (pt 0 0.1) (pt 0 0.1) = 0%float /\
  (0%float <? pointToLineDistancee (pt 0 1) (pt 0 0.1) (pt 0 0.1)) = true /\
  (pointToLineDistancee (pt 0 1) (pt 0 0.1) (pt 0 0.1)
   <=? pointToSegmentDistance (pt 0 1) (pt 0 0.1) (pt 0 0.1)) = false.
Proof. repeat split. Qed.

(** C9 as stated fails on doubles: the square of a large offset
    overflows, and the difference of two large coordinates does. *)
Lemma degenerate_segment_distance_overflows_binary64 :
  pointToSegmentDistance (pt 0 0) (pt 0 0) (pt 1e200 0) = infinity /\
  isNaN (pointToSegmentDistance (pt (-1.7e308) 0) (pt (-1.7e308) 0)
           (pt 1.7e308 0)) = true.
Proof. repeat split. Qed.

End Binary64Claims.

Section Witnesses.
Local Open Scope js_scope.

Lemma reflect_demo_cloud :
  exists out h' new,
    reflect ref_points ref_p0 ref_p1 demo_heap = (Ok out, h') /\
    demo_heap !! out = None /\
    demo_heap ⊆ h' /\
    h' !! out = Some (OArray new) /\
    Forall (new_point demo_heap h') new /\
    List.length new = 11%nat /\
    cloud_at h' out =
      Some (map (householder (pt 50 325) (pt 500 100))
                (map point_of demo_cloud)).
Proof.
  apply (reflect_degenerate_or_householder demo_heap
           ref_points ref_p0 ref_p1 (pt 50 325) (pt 500 100)
           (map point_of demo_cloud)); reflexivity.
Defined.

Lemma segment_distance_ge_line_distance_unit :
  (pointToLineDistancee (fin 0 0) (fin 1 0) (fin 0 1)
   <=? pointToSegmentDistance (fin 0 0) (fin 1 0) (fin 0 1)) = true.
Proof.
  apply (proj2 segment_distance_ge_line_distance 0 0 1 0 0 1)%R.
  left. lra.
Defined.

Lemma demo_line_long_enough :
  (squared_length (fin 50 325) (fin 500 100) >=? dec 1 8) = true.
Proof.
  rewrite dec_exact. unfold squared_length. cbn.
  change (10 ^ Z.of_nat 8)%Z with 100000000%Z.
  apply Rleb_true. lra.
Defined.

Lemma reflect_twice_demo_exact :
  exists out1 h1 out2 h2,
    reflect ref_points ref_p0 ref_p1 demo_heap_exact = (Ok out1, h1) /\
    reflect out1 ref_p0 ref_p1 h1 = (Ok out2, h2) /\
    cloud_at h2 out2 = Some (map point_of demo_cloud).
Proof.
  apply (reflect_twice_exact demo_heap_exact ref_points ref_p0 ref_p1
           (fin 50 325) (fin 500 100) (map point_of demo_cloud)).
  - reflexivity.
  - reflexivity.
  - reflexivity.
  - reflexivity.
  - reflexivity.
  - repeat constructor.
  - exact demo_line_long_enough.
Defined.

(** The line of the demo has a length, over [ExactSigned]. *)
Lemma demo_line_has_length :
  (Math_abs (squared_length (real_pt 50 325) (real_pt 500 100)) <? dec 1 8)
  = false.
Proof.
  rewrite dec_signed. unfold squared_length.
  cbn [x y nsub nmul nadd snum_number ssub].
  rewrite !smul_real by (intros Hz; lra).
  cbn [sadd Math_abs snum_number sabs nlt slt sreal].
  change (10 ^ Z.of_nat 8)%Z with 100000000%Z.
  apply Rltb_false. rewrite Rabs_pos_eq; lra.
Defined.

(** [project] and [reflect] called on the demo. *)
Lemma demo_calls_change_no_object :
  (let l := fresh (dom demo_heap_signed) in
   let h' :=
     <[l := OTSMT_Point
              (project (real_pt 50 325) (real_pt 500 100) (SReal 1))]>
       demo_heap_signed in
   demo_heap_signed ⊆ h' /\ new_point demo_heap_signed h' l) /\
  (exists out h',
     invoke (call_reflect ref_points ref_p0 ref_p1) demo_heap_signed
       = (Ok (RCloud out), h') /\
     demo_heap_signed ⊆ h' /\
     demo_heap_signed !! out = None /\
     exists new,
       h' !! out = Some (OArray new) /\
       Forall (new_point demo_heap_signed h') new /\
       NoDup new /\
       List.length new = 11%nat).
Proof.
  split.
  - intros l h'.
    apply (invoke_changes_no_object (call_project ref_p0 ref_p1 (SReal 1))
             demo_heap_signed (Ok (RPoint l)) h').
    reflexivity.
  - destruct (reflect_run demo_heap_signed ref_points ref_p0 ref_p1
                (real_pt 50 325) (real_pt 500 100) (map point_of demo_cloud)
                eq_refl eq_refl eq_refl demo_line_has_length)
      as (out & h' & _ & Hrun & _).
    assert (Hcall : invoke (call_reflect ref_points ref_p0 ref_p1)
                      demo_heap_signed = (Ok (RCloud out), h')).
    { cbn [invoke]. rewrite bind_run, Hrun. reflexivity. }
    exists out, h'. split; [exact Hcall |].
    destruct (invoke_changes_no_object _ _ _ _ Hcall)
      as (Hsub & points & p0 & p1 & P0 & P1 & Hc & H0 & H1 & Hres).
    split; [exact Hsub |].
    injection Hc as <- <- <-.
    assert (E0 : P0 = real_pt 50 325).
    { enough (Ok P0 = Ok (real_pt 50 325)) as [= ->] by reflexivity.
      apply (f_equal fst) in H0. symmetry. exact H0. }
    assert (E1 : P1 = real_pt 500 100).
    { enough (Ok P1 = Ok (real_pt 500 100)) as [= ->] by reflexivity.
      apply (f_equal fst) in H1. symmetry. exact H1. }
    rewrite E0, E1, demo_line_has_length in Hres.
    destruct Hres as (Hfresh & new & Hnew & Hall & Hdistinct & Hlen).
    split; [exact Hfresh |]. exists new.
    repeat split; try assumption.
    injection Hlen as Hlen. symmetry. exact Hlen.
Defined.

Lemma compare_doubles_a_thousandth_apart :
  TSMT_ApproxEqual.compare (Given 1000%float) (Given 1001%float) None =
  (Math_abs (1000%float - 1001%float)
   / larger (Math_abs 1000%float) (Math_abs 1001%float) <=? dec 1 3).
Proof.
  exact (compare_relative_error (Given 1000%float) (Given 1001%float) None).
Defined.

Lemma degenerate_segment_distance_three_four_five :
  pointToSegmentDistance (pt 1 2) (pt 1 2) (pt 4 6)
    = l2Norm (Given (pt 4 6)) (Given (pt 1 2)) /\
  isNaN (pointToSegmentDistance (pt 1 2) (pt 1 2) (pt 4 6)) = false /\
  isNaN (pointToLineDistancee (pt 1 2) (pt 1 2) (pt 4 6)) = true.
Proof.
  apply (proj1 degenerate_segment_distance_clamps 1 2 4 6)%float;
    reflexivity.
Defined.

Lemma assign_infinity_stores_zero :
  let this := TSMT_Point.new (Some 3%float) (Some 4%float) in
  let stored := 0%float in
  isFinite stored = true /\
  (exists this',
     TSMT_Point.set_x (fun _ => nan) (TSMT_Point.VNumber infinity) this
       = Some this' /\
     TSMT_Point.get_x this' = stored /\
     TSMT_Point.get_y this' = TSMT_Point.get_y this /\
     fst (TSMT_Point.length this') =
       Math_sqrt (stored * stored
                  + TSMT_Point.get_y this * TSMT_Point.get_y this)) /\
  (exists this',
     TSMT_Point.set_y (fun _ => nan) (TSMT_Point.VNumber infinity) this
       = Some this' /\
     TSMT_Point.get_y this' = stored /\
     TSMT_Point.get_x this' = TSMT_Point.get_x this /\
     fst (TSMT_Point.length this') =
       Math_sqrt (TSMT_Point.get_x this * TSMT_Point.get_x this
                  + stored * stored)).
Proof.
  exact (setters_store_finite_and_invalidate (fun _ => nan)
           (TSMT_Point.new (Some 3%float) (Some 4%float)) infinity).
Defined.

End Witnesses.

(* ===================================================================== *)
(** * Part IV: further properties of the code                             *)
(* ===================================================================== *)

(** The rest of [TSMT$Point], the behaviour of [TSMT$ApproxEqual] and
    [TSMT$PointUtils] at the edges of their inputs and as operations of
    plane geometry, and the lazy loader.  As before: what only depends on
    the structure of the code is proved for every implementation of the
    numbers, what depends on the arithmetic is proved on doubles where it
    holds there, and in exact arithmetic otherwise. *)

(** ** Binary64: subtraction with its operands swapped *)
Section Binary64Symmetry.

Lemma binary_round_abs (s : bool) (m : positive) (e : Z) :
  SFabs (binary_round prec emax s m e) = binary_round prec emax false m e.
Proof.
  unfold binary_round.
  match goal with |- context [shl_align ?a ?b ?c] =>
    destruct (shl_align a b c) as [mz ez] end.
  apply round_aux_abs.
Qed.

Lemma binary_normalize_abs_opp (m e : Z) :
  SFabs (binary_normalize prec emax (- m) e false)
  = SFabs (binary_normalize prec emax m e false).
Proof.
  destruct m as [| p | p]; unfold binary_normalize, Z.opp;
    rewrite ?binary_round_abs; reflexivity.
Qed.

Lemma SFabs_sub_swap (f g : spec_float) :
  SFabs (SF64sub f g) = SFabs (SF64sub g f).
Proof.
  destruct f as [s | s | | s m e], g as [t | t | | t n e'];
    cbn; try reflexivity; try (destruct s, t; reflexivity).
  rewrite (Z.min_comm e' e).
  rewrite <- binary_normalize_abs_opp. f_equal. f_equal. lia.
Qed.

Lemma float_abs_sub_swap (a b : float) :
  PrimFloat.abs (a - b)%float = PrimFloat.abs (b - a)%float.
Proof.
  apply Prim2SF_inj. rewrite !abs_spec, !sub_spec. apply SFabs_sub_swap.
Qed.

Lemma SFmul_abs (f g : spec_float) :
  SFabs f = SFabs g -> SF64mul f f = SF64mul g g.
Proof.
  destruct f as [s | s | | s m e], g as [t | t | | t n e'];
    cbn; try discriminate; try reflexivity; intros [= ]; subst;
    rewrite ?xorb_nilpotent; reflexivity.
Qed.

Lemma float_sq_sub_swap (a b : float) :
  ((a - b) * (a - b))%float = ((b - a) * (b - a))%float.
Proof.
  apply Prim2SF_inj. rewrite !mul_spec, !sub_spec.
  apply SFmul_abs, SFabs_sub_swap.
Qed.

End Binary64Symmetry.

Section Binary64Swap.

Lemma round_aux_opp (s : bool) (m e : Z) (l : location) :
  SFopp (binary_round_aux prec emax s m e l)
  = binary_round_aux prec emax (negb s) m e l.
Proof.
  unfold binary_round_aux.
  destruct (shr_fexp prec emax m e l) as [mrs' e'].
  destruct (shr_fexp prec emax _ e' loc_Exact) as [mrs'' e''].
  destruct (shr_m mrs''); [reflexivity | | reflexivity].
  destruct (Z.leb e'' (emax - prec)); reflexivity.
Qed.

Lemma binary_round_opp (s : bool) (m : positive) (e : Z) :
  SFopp (binary_round prec emax s m e) = binary_round prec emax (negb s) m e.
Proof.
  unfold binary_round.
  match goal with |- context [shl_align ?a ?b ?c] =>
    destruct (shl_align a b c) as [mz ez] end.
  apply round_aux_opp.
Qed.

(** Swapping the operands of a subtraction changes the sign of the
    difference, a zero apart. *)
Lemma SFsub_swap (f g : spec_float) :
  SF64sub g f = SFopp (SF64sub f g) \/
  exists s t, SF64sub f g = S754_zero s /\ SF64sub g f = S754_zero t.
Proof.
  destruct f as [s | s | | s m e], g as [t | t | | t n e'];
    cbn; try (left; reflexivity);
    try (destruct s, t; cbn;
         first [left; reflexivity | right; do 2 eexists; split; reflexivity]);
    try (destruct s; left; reflexivity); try (destruct t; left; reflexivity).
  rewrite (Z.min_comm e' e).
  match goal with
  | |- context [binary_normalize _ _ ?m _ _
                = _ (binary_normalize _ _ ?k _ _)] =>
      replace m with (- k)%Z by lia; destruct k as [| p | p]
  end; cbn [Z.opp binary_normalize]; rewrite ?binary_round_opp;
    first [left; reflexivity | right; do 2 eexists; split; reflexivity].
Qed.

Lemma float_sub_swap_sign (a b : float) :
  ((a - b <? zero) = (zero <? b - a))%float /\
  ((zero <? a - b) = (b - a <? zero))%float.
Proof.
  rewrite !ltb_spec, !sub_spec. change (Prim2SF zero) with (S754_zero false).
  destruct (SFsub_swap (Prim2SF a) (Prim2SF b)) as [-> | (s & t & -> & ->)];
    [| split; reflexivity].
  destruct (SF64sub (Prim2SF a) (Prim2SF b)) as [s | [] | | [] m e];
    split; reflexivity.
Qed.

End Binary64Swap.

(** ** Binary64: the order of the numbers *)

Section Binary64Order.

Lemma is_nan_spec (a : float) :
  is_nan a = match Prim2SF a with S754_nan => true | _ => false end.
Proof.
  unfold is_nan. rewrite FloatAxioms.eqb_spec.
  destruct (Prim2SF a) as [s | [] | | [] m e]; cbn; try reflexivity;
    rewrite Z.compare_refl, Pos.compare_cont_refl; reflexivity.
Qed.

Lemma float_eqb_sym (a b : float) : (a =? b)%float = (b =? a)%float.
Proof.
  rewrite !FloatAxioms.eqb_spec. unfold SFeqb.
  rewrite (SFcompare_antisym (Prim2SF a) (Prim2SF b)).
  destruct (SFcompare (Prim2SF a) (Prim2SF b)) as [[ | | ] | ]; reflexivity.
Qed.

Lemma float_eqb_refl (a : float) : is_nan a = false -> (a =? a)%float = true.
Proof.
  rewrite is_nan_spec, FloatAxioms.eqb_spec. unfold SFeqb.
  destruct (Prim2SF a) as [s | [] | | [] m e]; cbn; try reflexivity;
    try discriminate; intros _;
    rewrite Z.compare_refl, Pos.compare_cont_refl; reflexivity.
Qed.

Lemma float_ltb_asym (a b : float) :
  (a <? b)%float = true -> (b <? a)%float = false.
Proof.
  rewrite !ltb_spec. unfold SFltb.
  rewrite (SFcompare_antisym (Prim2SF a) (Prim2SF b)).
  destruct (SFcompare (Prim2SF a) (Prim2SF b)) as [[ | | ] | ]; cbn;
    congruence.
Qed.

Lemma SFcompare_abs_eq (f g : spec_float) :
  SFcompare (SFabs f) (SFabs g) = Some Eq -> SFabs f = SFabs g.
Proof.
  destruct f as [s | s | | s m e], g as [t | t | | t n e'];
    cbn; try discriminate; try reflexivity.
  destruct (Z.compare_spec e e') as [-> | |]; try discriminate.
  rewrite Pos.compare_cont_spec. cbn.
  destruct (Pos.compare_spec m n) as [-> | |]; try discriminate. reflexivity.
Qed.

(** Two numbers neither of whose magnitudes is below the other have the
    same magnitude. *)
Lemma float_abs_eq (a b : float) :
  is_nan a = false -> is_nan b = false ->
  (PrimFloat.abs a <? PrimFloat.abs b)%float = false ->
  (PrimFloat.abs b <? PrimFloat.abs a)%float = false ->
  PrimFloat.abs a = PrimFloat.abs b.
Proof.
  rewrite !is_nan_spec, !ltb_spec, !abs_spec. unfold SFltb.
  intros Ha Hb Hab Hba. apply Prim2SF_inj. rewrite !abs_spec.
  apply SFcompare_abs_eq.
  rewrite (SFcompare_antisym (SFabs (Prim2SF a)) (SFabs (Prim2SF b))) in Hba.
  destruct (SFcompare (SFabs (Prim2SF a)) (SFabs (Prim2SF b)))
    as [[ | | ] | ] eqn:Hc; cbn in *; try discriminate; try reflexivity.
  destruct (Prim2SF a), (Prim2SF b); cbn in *; discriminate.
Qed.

End Binary64Order.

Section Binary64Total.

(** [SFcompare] orders the numbers: what is below or equal composes. *)
Lemma SFcompare_trans (f g h : spec_float) (c1 c2 : comparison) :
  SFcompare f g = Some c1 -> SFcompare g h = Some c2 ->
  c1 <> Gt -> c2 <> Gt ->
  SFcompare f h = Some (match c1 with Eq => c2 | _ => Lt end).
Proof.
  destruct f as [s | s | | s m e], g as [t | t | | t n e'],
           h as [u | u | | u k e''];
    cbn; try discriminate;
    rewrite ?Pos.compare_cont_spec; cbn [Pos.switch_Eq];
    destruct s, t, u; cbn; intros [= <-] [= <-] H1 H2; try congruence;
    repeat match goal with
      | H : context [(?a ?= ?b)%Z] |- _ => destruct (Z.compare_spec a b)
      | |- context [(?a ?= ?b)%Z] => destruct (Z.compare_spec a b)
      end; try lia; try congruence; subst;
    repeat match goal with
      | H : context [(?a ?= ?b)%positive] |- _ =>
          destruct (Pos.compare_spec a b)
      | |- context [(?a ?= ?b)%positive] => destruct (Pos.compare_spec a b)
      end; cbn in *; try lia; try congruence.
Qed.

End Binary64Total.

(** ** Binary64: zeros and NaN *)

Section Binary64Null.

(** A zero of either sign, or NaN: what the difference of a number with
    itself is, and what stays so under products and differences. *)
Local Abbreviation SFnull f :=
  (match f with S754_zero _ | S754_nan => True | _ => False end).

Lemma SFsub_self_null (f : spec_float) : SFnull (SF64sub f f).
Proof.
  destruct f as [s | s | | s m e]; cbn; try exact I; try (destruct s; exact I).
  rewrite Z.sub_diag. exact I.
Qed.

Lemma SFmul_null_r (f g : spec_float) : SFnull g -> SFnull (SF64mul f g).
Proof.
  destruct f as [s | s | | s m e], g as [t | t | | t n e'];
    cbn; intros Hg; try contradiction; exact I.
Qed.

Lemma SFmul_null_l (f g : spec_float) : SFnull f -> SFnull (SF64mul f g).
Proof. rewrite SFmul_comm. apply SFmul_null_r. Qed.

Lemma SFsub_null (f g : spec_float) :
  SFnull f -> SFnull g -> SFnull (SF64sub f g).
Proof.
  destruct f as [s | s | | s m e], g as [t | t | | t n e'];
    cbn; intros Hf Hg; try contradiction; try exact I.
  destruct s, t; exact I.
Qed.

Lemma SFnull_not_positive (f : spec_float) :
  SFnull f -> SFltb (S754_zero false) f = false.
Proof. destruct f; cbn; intros Hf; try contradiction; reflexivity. Qed.

Lemma SFdiv_zero_not_finite (f : spec_float) :
  match SF64div f (S754_zero false) with
  | S754_nan | S754_infinity _ => True
  | _ => False
  end.
Proof. destruct f as [s | s | | s m e]; cbn; exact I. Qed.

End Binary64Null.

(** ** Binary64: a number divided by itself *)

Section Binary64Quotient.

(** A finite number divided by a number of the same magnitude is [1] or
    [-1], exactly. *)
Lemma SFdiv_same_magnitude (s t : bool) (m : positive) (e : Z) :
  SF64div (S754_finite s m e) (S754_finite t m e)
  = S754_finite (xorb s t) 4503599627370496 (-52).
Proof.
  unfold SF64div, SFdiv, SFdiv_core_binary. cbv zeta.
  rewrite !Z.sub_diag.
  change (Z.min (fexp prec emax 0) 0) with (-53)%Z.
  change (0 - -53)%Z with 53%Z. cbv iota.
  rewrite Z.shiftl_mul_pow2 by lia.
  destruct (Z.div_eucl (Z.pos m * 2 ^ 53) (Z.pos m)) as [q r] eqn:Hqr.
  assert (Hq : q = 9007199254740992%Z).
  { change q with (fst (q, r)). rewrite <- Hqr.
    change (fst (Z.div_eucl (Z.pos m * 2 ^ 53) (Z.pos m)))
      with (Z.pos m * 2 ^ 53 / Z.pos m)%Z.
    rewrite Z.mul_comm, Z.div_mul by lia. reflexivity. }
  assert (Hr : r = 0%Z).
  { change r with (snd (q, r)). rewrite <- Hqr.
    change (snd (Z.div_eucl (Z.pos m * 2 ^ 53) (Z.pos m)))
      with ((Z.pos m * 2 ^ 53) mod Z.pos m)%Z.
    rewrite Z.mul_comm. apply Z.mod_mul. lia. }
  subst q r.
  assert (Hloc : new_location (Z.pos m) 0 = loc_Exact).
  { unfold new_location. destruct (Z.even (Z.pos m)); reflexivity. }
  rewrite Hloc. destruct s, t; reflexivity.
Qed.

End Binary64Quotient.

(** ** [TSMT$Point] *)

Section PointCache.
Context {T : Type} {num : JSNumber T}.
Context (parseFloat : string -> T).
Local Open Scope js_scope.

(** What [length()] hands out without computing is the norm of the
    coordinates stored. *)
Local Abbreviation coherent :=
  (fun this : TSMT_Point.TSMT_Point T =>
     TSMT_Point._invalidated this = false ->
     TSMT_Point._norm this =
     Math_sqrt (TSMT_Point._x this * TSMT_Point._x this
                + TSMT_Point._y this * TSMT_Point._y this)).

Lemma new_coherent (x y : option T) : coherent (TSMT_Point.new x y).
Proof. intros _. destruct x, y; reflexivity. Qed.

Lemma calls_coherent (ms : list (TSMT_Point.method T)) :
  forall this this',
    coherent this ->
    TSMT_Point.calls parseFloat ms this = Some this' -> coherent this'.
Proof.
  induction ms as [| m ms IH]; intros this this' Hthis Hrun.
  - injection Hrun as <-. exact Hthis.
  - destruct m as [v | v |]; cbn [TSMT_Point.calls] in Hrun.
    + unfold TSMT_Point.set_x in Hrun.
      destruct (TSMT_Point.__assign parseFloat v); try discriminate.
      eapply IH; [| exact Hrun]. cbn. discriminate.
    + unfold TSMT_Point.set_y in Hrun.
      destruct (TSMT_Point.__assign parseFloat v); try discriminate.
      eapply IH; [| exact Hrun]. cbn. discriminate.
    + eapply IH; [| exact Hrun].
      unfold TSMT_Point.length.
      destruct (TSMT_Point._invalidated this) eqn:Hi; cbn; [reflexivity |].
      intros _. apply Hthis. reflexivity.
Qed.

(** X1. The cached norm is never stale.  After any sequence of
    assignments to [x] and [y] and calls of [length()] on a constructed
    point (a clone is one), [length()] returns the square root of the sum of
    the squares of the coordinates the point has then, leaves the
    coordinates as they are, and a second call returns the same number and
    changes nothing. *)
Theorem length_never_stale
    (x y : option T) (ms : list (TSMT_Point.method T))
    (this : TSMT_Point.TSMT_Point T) :
  TSMT_Point.calls parseFloat ms (TSMT_Point.new x y) = Some this ->
  let '(n, this') := TSMT_Point.length this in
  n = Math_sqrt (TSMT_Point.get_x this * TSMT_Point.get_x this
                 + TSMT_Point.get_y this * TSMT_Point.get_y this) /\
  TSMT_Point.get_x this' = TSMT_Point.get_x this /\
  TSMT_Point.get_y this' = TSMT_Point.get_y this /\
  TSMT_Point.length this' = (n, this').
Proof.
  intros Hrun.
  pose proof (calls_coherent ms _ _ (new_coherent x y) Hrun) as Hc.
  unfold TSMT_Point.length, TSMT_Point.get_x, TSMT_Point.get_y.
  destruct (TSMT_Point._invalidated this) eqn:Hi; cbn.
  - repeat split; reflexivity.
  - rewrite Hi. repeat split. apply Hc; first [exact Hi | reflexivity].
Qed.

End PointCache.

Section ExactNorms.
Local Open Scope R_scope.

Lemma sqrt_sum_squares_bounds (a b : R) :
  Rmax (Rabs a) (Rabs b) <= sqrt (a * a + b * b) <= Rabs a + Rabs b.
Proof.
  pose proof (Rabs_pos a) as Ha. pose proof (Rabs_pos b) as Hb.
  assert (Haa : a * a = Rabs a * Rabs a).
  { fold (Rsqr a) (Rsqr (Rabs a)). apply Rsqr_abs. }
  assert (Hbb : b * b = Rabs b * Rabs b).
  { fold (Rsqr b) (Rsqr (Rabs b)). apply Rsqr_abs. }
  rewrite Haa, Hbb. split.
  - apply Rmax_lub.
    + rewrite <- (sqrt_square (Rabs a)) at 1 by exact Ha.
      apply sqrt_le_1; nra.
    + rewrite <- (sqrt_square (Rabs b)) at 1 by exact Hb.
      apply sqrt_le_1; nra.
  - rewrite <- (sqrt_square (Rabs a + Rabs b)) by lra.
    apply sqrt_le_1; nra.
Qed.

(** X2. In exact arithmetic, for a point constructed with finite
    coordinates the three norms are ordered: [lInfNorm() <= length() <=
    l1Norm() <= 2 * lInfNorm()]. *)
Theorem norms_ordered (a b : R) :
  let this := TSMT_Point.new (Some (XFin a)) (Some (XFin b)) in
  (TSMT_Point.lInfNorm this <=? fst (TSMT_Point.length this))%js = true /\
  (fst (TSMT_Point.length this) <=? TSMT_Point.l1Norm this)%js = true /\
  (TSMT_Point.l1Norm this <=? #2 * TSMT_Point.lInfNorm this)%js = true.
Proof.
  pose proof (sqrt_sum_squares_bounds a b) as [Hlo Hhi].
  pose proof (Rabs_pos a) as Ha. pose proof (Rabs_pos b) as Hb.
  assert (Hsq : 0 <= a * a + b * b) by nra.
  cbv zeta. unfold TSMT_Point.lInfNorm, TSMT_Point.l1Norm. cbn.
  rewrite (Rltb_false _ 0) by exact Hsq. cbn.
  unfold Rmax in Hlo.
  destruct (Rle_dec (Rabs a) (Rabs b)) as [Hab | Hab].
  - destruct (Rlt_dec (Rabs a) (Rabs b)) as [Hlt | Hnlt].
    + rewrite (Rltb_true _ _ Hlt). cbn.
      repeat split; apply Rleb_true; lra.
    + rewrite (Rltb_false (Rabs a) (Rabs b)) by lra. cbn.
      repeat split; apply Rleb_true; lra.
  - rewrite (Rltb_false (Rabs a) (Rabs b)) by lra. cbn.
    repeat split; apply Rleb_true; lra.
Qed.

End ExactNorms.

Section PointAlgebra.
Local Open Scope js_scope.
Implicit Types this point : TSMT_Point.TSMT_Point float.

(** X3. On doubles, a distance does not depend on the order of the two
    points: [l2Norm] is symmetric in its arguments, absent ones included,
    [p.distance(q)] is [q.distance(p)], and it is the number [l2Norm]
    computes for the same two points. *)
Theorem distance_symmetric :
  (forall p0 p1 : arg (Point float), l2Norm p0 p1 = l2Norm p1 p0) /\
  (forall this point,
     TSMT_Point.distance this point = TSMT_Point.distance point this /\
     TSMT_Point.distance this point =
       l2Norm (Given {| x := TSMT_Point.get_x point;
                        y := TSMT_Point.get_y point |})
              (Given {| x := TSMT_Point.get_x this;
                        y := TSMT_Point.get_y this |})).
Proof.
  split.
  - intros [| | p0] [| | p1]; try reflexivity.
    unfold l2Norm. cbn [nsub nmul nadd float_number].
    rewrite (float_sq_sub_swap (x p0) (x p1)),
            (float_sq_sub_swap (y p0) (y p1)).
    reflexivity.
  - intros this point. split; [| reflexivity].
    unfold TSMT_Point.distance, TSMT_Point.get_x, TSMT_Point.get_y.
    cbn [nsub nmul nadd float_number].
    rewrite (float_sq_sub_swap (TSMT_Point._x point) (TSMT_Point._x this)).
    rewrite (float_sq_sub_swap (TSMT_Point._y point) (TSMT_Point._y this)).
    reflexivity.
Qed.

(** X4. On doubles, the inner product is symmetric, and swapping the
    operands of the outer product keeps its magnitude and turns a positive
    result into a negative one and back. *)
Theorem dot_symmetric_cross_antisymmetric this point :
  TSMT_Point.dot this point = TSMT_Point.dot point this /\
  Math_abs (TSMT_Point.cross this point)
    = Math_abs (TSMT_Point.cross point this) /\
  (TSMT_Point.cross this point >? #0)
    = (TSMT_Point.cross point this <? #0) /\
  (TSMT_Point.cross this point <? #0)
    = (TSMT_Point.cross point this >? #0).
Proof.
  unfold TSMT_Point.dot, TSMT_Point.cross, TSMT_Point.get_x, TSMT_Point.get_y.
  cbn [nsub nmul nadd nlt Math_abs float_number].
  rewrite (float_mul_comm (TSMT_Point._x point) (TSMT_Point._x this)).
  rewrite (float_mul_comm (TSMT_Point._y point) (TSMT_Point._y this)).
  rewrite (float_mul_comm (TSMT_Point._x point) (TSMT_Point._y this)).
  rewrite (float_mul_comm (TSMT_Point._y point) (TSMT_Point._x this)).
  set (u := (TSMT_Point._x this * TSMT_Point._y point)%float).
  set (v := (TSMT_Point._y this * TSMT_Point._x point)%float).
  change (float_ofZ 0) with zero.
  destruct (float_sub_swap_sign u v) as [H1 H2].
  repeat split; [apply float_abs_sub_swap | exact H2 | exact H1].
Qed.

End PointAlgebra.

(** ** [TSMT$ApproxEqual] *)

Section CompareOnDoubles.
Local Open Scope js_scope.

(** X5. On doubles, [compare] does not depend on the order of the two
    numbers, whatever they and the tolerance are, absent arguments
    included; and it holds every number that is not NaN for equal to
    itself under every tolerance, that of an infinity included. *)
Theorem compare_symmetric_reflexive :
  (forall (a b : arg float) (tol : option float),
     TSMT_ApproxEqual.compare a b tol = TSMT_ApproxEqual.compare b a tol) /\
  (forall (a : float) (tol : option float),
     TSMT_ApproxEqual.compare (Given a) (Given a) tol = negb (isNaN a)).
Proof.
  split.
  - intros [| | a] [| | b] tol; try reflexivity.
    unfold TSMT_ApproxEqual.compare.
    cbn [isNaN neq nlt nle nsub ndiv Math_abs float_number].
    rewrite (orb_comm (is_nan b)), (float_eqb_sym b a).
    destruct (is_nan a) eqn:Ha; [reflexivity |].
    destruct (is_nan b) eqn:Hb; [reflexivity |]. cbn [orb].
    destruct (a =? b)%float; [reflexivity |].
    rewrite !float_abs_div, (float_abs_sub_swap b a).
    destruct (PrimFloat.abs a <? PrimFloat.abs b)%float eqn:Hab.
    + rewrite (float_ltb_asym _ _ Hab). reflexivity.
    + destruct (PrimFloat.abs b <? PrimFloat.abs a)%float eqn:Hba;
        [reflexivity |].
      rewrite (float_abs_eq a b Ha Hb Hab Hba). reflexivity.
  - intros a tol.
    unfold TSMT_ApproxEqual.compare. cbn [isNaN neq float_number].
    destruct (is_nan a) eqn:Ha; [reflexivity |]. cbn.
    rewrite (float_eqb_refl a Ha). reflexivity.
Qed.

End CompareOnDoubles.

Section CompareZeroOnDoubles.
Local Open Scope js_scope.

Lemma float_against_zero (b : float) :
  is_finite b = true -> (b =? zero)%float = false ->
  is_nan b = false /\
  (zero =? b)%float = false /\
  (PrimFloat.abs zero <? PrimFloat.abs b)%float = true /\
  (PrimFloat.abs b <? PrimFloat.abs zero)%float = false /\
  PrimFloat.abs ((zero - b) / b)%float = one /\
  PrimFloat.abs ((b - zero) / b)%float = one.
Proof.
  intros Hfin Hnz. pose proof (is_finite_spec b Hfin) as Hf.
  rewrite (float_eqb_sym zero b), Hnz.
  rewrite is_nan_spec, !ltb_spec, !abs_spec.
  rewrite FloatAxioms.eqb_spec in Hnz.
  assert (H1 : Prim2SF (PrimFloat.abs ((zero - b) / b)) = Prim2SF one
               /\ Prim2SF (PrimFloat.abs ((b - zero) / b)) = Prim2SF one).
  { rewrite !abs_spec, !div_spec, !sub_spec.
    change (Prim2SF zero) with (S754_zero false) in *.
    change (Prim2SF one) with (S754_finite false 4503599627370496 (-52)).
    destruct (Prim2SF b) as [s | s | | s m e]; try contradiction;
      try discriminate.
    cbn [SF64sub SFsub]. rewrite !SFdiv_same_magnitude. split; reflexivity. }
  destruct H1 as [H1 H2].
  change (Prim2SF zero) with (S754_zero false) in *.
  destruct (Prim2SF b) as [s | s | | s m e]; try contradiction;
    try discriminate.
  repeat split; try reflexivity; apply Prim2SF_inj; assumption.
Qed.

(** X6. On doubles, the relative error of a number against zero is [1]:
    for a finite number [b] other than zero, [compare(0, b, tol)] and
    [compare(b, 0, tol)] are [1 <= tol], and [false] under the default
    tolerance, however small [b] is. *)
Theorem compare_with_zero (b tol : float) :
  is_finite b = true -> (b ==? #0) = false ->
  TSMT_ApproxEqual.compare (Given #0) (Given b) (Some tol) = (#1 <=? tol) /\
  TSMT_ApproxEqual.compare (Given b) (Given #0) (Some tol) = (#1 <=? tol) /\
  TSMT_ApproxEqual.compare (Given #0) (Given b) None = false /\
  TSMT_ApproxEqual.compare (Given b) (Given #0) None = false.
Proof.
  intros Hfin Hnz.
  cbn [neq ofZ float_number] in Hnz. change (float_ofZ 0) with zero in Hnz.
  destruct (float_against_zero b Hfin Hnz)
    as (Hnan & Hne & Hlt & Hgt & H1 & H2).
  unfold TSMT_ApproxEqual.compare.
  cbn [isNaN neq nlt nle nsub ndiv Math_abs ofZ float_number].
  change (float_ofZ 0) with zero. change (float_ofZ 1) with one.
  change (is_nan zero) with false.
  rewrite Hnan, Hne, Hnz, Hlt, Hgt, H1, H2. cbn [orb].
  repeat split; reflexivity.
Qed.

End CompareZeroOnDoubles.

Section ExactCompare.
Local Open Scope R_scope.

(** [compare] of a finite number with itself, in exact arithmetic. *)
Lemma compare_fin_same (a : R) (tol : option xnum) :
  TSMT_ApproxEqual.compare (Given (XFin a)) (Given (XFin a)) tol = true.
Proof.
  unfold TSMT_ApproxEqual.compare. cbn. rewrite Reqb_true; reflexivity.
Qed.

End ExactCompare.

(** ** [TSMT$PointUtils]: directions *)

Section SignedAngle.
Local Open Scope R_scope.

Lemma atan_pos (r : R) : 0 < r -> 0 < atan r.
Proof. intros Hr. rewrite <- atan_0. apply atan_increasing, Hr. Qed.

Lemma atan_neg (r : R) : r < 0 -> atan r < 0.
Proof. intros Hr. rewrite <- atan_0. apply atan_increasing, Hr. Qed.

Lemma quotient_sign (b a : R) :
  a <> 0 ->
  (0 < b / a <-> 0 < a * b) /\ (b / a < 0 <-> a * b < 0) /\
  (b / a = 0 <-> b = 0).
Proof.
  intros Ha.
  assert (Hs : 0 < a * a).
  { destruct (Rtotal_order a 0) as [? | [? | ?]]; [nra | lra | nra]. }
  assert (Hab : a * b = a * a * (b / a)) by (field; exact Ha).
  assert (Hb : b = a * (b / a)) by (field; exact Ha).
  rewrite Hab. set (q := b / a) in *. set (s := a * a) in *.
  clearbody q s. repeat split; intros; nra.
Qed.

(** A zero or a finite number is [-0] or a real number. *)
Lemma finite_cases (a : snum) :
  isFinite a = true -> a = SNeg0 \/ exists r, a = SReal r.
Proof.
  destruct a as [| s | | r]; cbn; intros Ha; try discriminate;
    [left; reflexivity | right; exists r; reflexivity].
Qed.

(** The difference of two finite numbers is their real difference; it is
    [-0] only as [(-0) - (+0)], and its sign bit is set when it is negative
    or [-0]. *)
Lemma ssub_finite (a b : snum) :
  isFinite a = true -> isFinite b = true ->
  isFinite (a - b)%js = true /\
  sreal (a - b)%js = sreal a - sreal b /\
  ((a - b)%js = SNeg0 <-> a = SNeg0 /\ b = SReal 0) /\
  (ssign (a - b)%js = true <->
   sreal a < sreal b \/ (a = SNeg0 /\ b = SReal 0)).
Proof.
  intros Ha Hb.
  destruct (finite_cases a Ha) as [-> | [ra ->]],
           (finite_cases b Hb) as [-> | [rb ->]];
    cbn [nsub snum_number ssub sreal ssign isFinite sisFinite].
  - rewrite (Rltb_false 0 0) by lra.
    repeat split; try reflexivity; try lra; try discriminate.
    + intros [_ [=]].
    + intros [? | [_ [=]]]; lra.
  - destruct (Req_dec_T rb 0) as [-> | Hrb].
    + rewrite (Reqb_true 0 0) by reflexivity. cbn [sreal ssign sisFinite].
      repeat split; try reflexivity; try lra; auto.
    + rewrite (Reqb_false rb 0 Hrb). cbn [sreal ssign sisFinite].
      repeat split; try reflexivity; try lra; try discriminate.
      * intros [_ [= ->]]. contradiction.
      * intros Hs. apply Rltb_spec in Hs. left. lra.
      * intros [? | [_ [= ->]]]; [apply Rltb_true; lra | contradiction].
  - repeat split; try reflexivity; try lra; try discriminate.
    + intros [[=] _].
    + intros Hs. apply Rltb_spec in Hs. left. lra.
    + intros [? | [[=] _]]. apply Rltb_true. lra.
  - repeat split; try reflexivity; try discriminate.
    + intros [[=] _].
    + intros Hs. apply Rltb_spec in Hs. left. lra.
    + intros [? | [[=] _]]. apply Rltb_true. lra.
Qed.

(** [Math.atan2] on real numbers, zero being [+0]: the angle it returns,
    the arguments it is zero on, what it returns for the opposite
    direction and for a direction scaled by a positive factor. *)
Lemma satan2_real (b a : R) :
  exists v,
    satan2 (SReal b) (SReal a) = SReal v /\
    - PI < v <= PI /\
    (v = 0 <-> b = 0 /\ 0 <= a) /\
    (a <> 0 \/ b <> 0 ->
     satan2 (SReal (- b)) (SReal (- a))
     = SReal (if Rlt_dec 0 v then v - PI else v + PI)) /\
    (forall k, 0 < k -> satan2 (SReal (k * b)) (SReal (k * a)) = SReal v).
Proof.
  pose proof PI_RGT_0 as Hpi.
  unfold satan2.
  destruct (Rtotal_order a 0) as [Ha | [-> | Ha]].
  - (* a < 0 *)
    destruct (quotient_sign b a ltac:(lra)) as (Hq1 & Hq2 & Hq3).
    pose proof (atan_bound (b / a)) as Hb.
    rewrite (Rltb_false 0 a), (Rltb_true a 0) by lra.
    rewrite (Rltb_true 0 (- a)) by lra.
    assert (Hopp : - b / - a = b / a) by (field; lra).
    destruct (Rlt_dec b 0) as [Hb0 | Hb0].
    + rewrite (Rltb_true b 0 Hb0).
      pose proof (atan_pos (b / a) ltac:(apply Hq1; nra)).
      exists (atan (b / a) - PI). split; [reflexivity |].
      split; [lra |]. split; [split; intros; lra |]. split.
      * intros _. rewrite Hopp.
        destruct (Rlt_dec 0 (atan (b / a) - PI)); [lra |]. f_equal. ring.
      * intros k Hk. rewrite (Rltb_false 0 (k * a)) by nra.
        rewrite (Rltb_true (k * a) 0), (Rltb_true (k * b) 0) by nra.
        replace (k * b / (k * a)) with (b / a) by (field; lra). reflexivity.
    + rewrite (Rltb_false b 0) by lra.
      assert (atan (b / a) <= 0).
      { destruct (Rtotal_order b 0) as [? | [-> | ?]]; [lra | |].
        - replace (0 / a) with 0 by (field; lra). rewrite atan_0. lra.
        - left. apply atan_neg, Hq2. nra. }
      exists (atan (b / a) + PI). split; [reflexivity |].
      split; [lra |]. split; [split; intros; lra |]. split.
      * intros _. rewrite Hopp.
        destruct (Rlt_dec 0 (atan (b / a) + PI)); [| lra]. f_equal. ring.
      * intros k Hk. rewrite (Rltb_false 0 (k * a)) by nra.
        rewrite (Rltb_true (k * a) 0), (Rltb_false (k * b) 0) by nra.
        replace (k * b / (k * a)) with (b / a) by (field; lra). reflexivity.
  - (* a = 0 *)
    replace (- 0) with 0 by ring.
    rewrite !(Rltb_false 0 0) by lra.
    destruct (Rtotal_order b 0) as [Hb | [-> | Hb]].
    + rewrite (Rltb_false 0 b), (Rltb_true b 0) by lra.
      exists (- (PI / 2)). split; [reflexivity |].
      split; [lra |]. split; [split; intros; lra |]. split.
      * intros _. rewrite (Rltb_true 0 (- b)) by lra.
        destruct (Rlt_dec 0 (- (PI / 2))); [lra |]. f_equal. field.
      * intros k Hk. replace (k * 0) with 0 by ring.
        rewrite !(Rltb_false 0 0) by lra.
        rewrite (Rltb_false 0 (k * b)), (Rltb_true (k * b) 0) by nra.
        reflexivity.
    + rewrite !(Rltb_false 0 0) by lra.
      exists 0. split; [reflexivity |].
      split; [lra |]. split; [split; intros; lra |]. split.
      * intros [? | ?]; lra.
      * intros k Hk. replace (k * 0) with 0 by ring.
        rewrite !(Rltb_false 0 0) by lra. reflexivity.
    + rewrite (Rltb_true 0 b) by lra.
      exists (PI / 2). split; [reflexivity |].
      split; [lra |]. split; [split; intros; lra |]. split.
      * intros _. rewrite (Rltb_false 0 (- b)), (Rltb_true (- b) 0) by lra.
        destruct (Rlt_dec 0 (PI / 2)); [| lra]. f_equal. field.
      * intros k Hk. replace (k * 0) with 0 by ring.
        rewrite !(Rltb_false 0 0) by lra.
        rewrite (Rltb_true 0 (k * b)) by nra. reflexivity.
  - (* 0 < a *)
    destruct (quotient_sign b a ltac:(lra)) as (Hq1 & Hq2 & Hq3).
    pose proof (atan_bound (b / a)) as Hb.
    rewrite (Rltb_true 0 a) by lra.
    rewrite (Rltb_false 0 (- a)), (Rltb_true (- a) 0) by lra.
    assert (Hopp : - b / - a = b / a) by (field; lra).
    exists (atan (b / a)). split; [reflexivity |].
    split; [lra |]. split; [| split].
    + split.
      * intros Hv. split; [| lra].
        destruct (Rtotal_order b 0) as [? | [? | ?]]; [| assumption |].
        -- pose proof (atan_neg (b / a) ltac:(apply Hq2; nra)). lra.
        -- pose proof (atan_pos (b / a) ltac:(apply Hq1; nra)). lra.
      * intros [-> _]. replace (0 / a) with 0 by (field; lra). apply atan_0.
    + intros _. rewrite Hopp.
      destruct (Rtotal_order b 0) as [Hb0 | [-> | Hb0]].
      * pose proof (atan_neg (b / a) ltac:(apply Hq2; nra)).
        rewrite (Rltb_false (- b) 0) by lra.
        destruct (Rlt_dec 0 (atan (b / a))); [lra | reflexivity].
      * replace (- 0) with 0 by ring. rewrite (Rltb_false 0 0) by lra.
        replace (0 / a) with 0 by (field; lra). rewrite atan_0.
        destruct (Rlt_dec 0 0); [lra | reflexivity].
      * pose proof (atan_pos (b / a) ltac:(apply Hq1; nra)).
        rewrite (Rltb_true (- b) 0) by lra.
        destruct (Rlt_dec 0 (atan (b / a))); [reflexivity | lra].
    + intros k Hk. rewrite (Rltb_true 0 (k * a)) by nra.
      replace (k * b / (k * a)) with (b / a) by (field; lra). reflexivity.
Qed.

(** [Math.atan2] on zeros and finite numbers, by the position of [x]:
    to the right, to the left, where the sign of a zero [y] chooses
    between [PI] and [-PI], and on the [y] axis. *)
Lemma satan2_right (y x : snum) :
  isFinite y = true -> isFinite x = true -> 0 < sreal x ->
  isFinite (satan2 y x) = true /\
  sreal (satan2 y x) = atan (sreal y / sreal x).
Proof.
  intros Hy Hx Hpos.
  destruct (finite_cases x Hx) as [-> | [a ->]]; cbn [sreal] in Hpos; [lra |].
  destruct (finite_cases y Hy) as [-> | [b ->]]; cbn [satan2 ssign sreal].
  - rewrite (Rltb_false a 0) by lra. cbn.
    replace (0 / a) with 0 by (field; lra). rewrite atan_0. auto.
  - rewrite (Rltb_true 0 a) by lra. cbn. auto.
Qed.

Lemma satan2_left (y x : snum) :
  isFinite y = true -> isFinite x = true -> sreal x < 0 ->
  isFinite (satan2 y x) = true /\
  sreal (satan2 y x)
  = atan (sreal y / sreal x) + (if ssign y then - PI else PI).
Proof.
  intros Hy Hx Hneg.
  destruct (finite_cases x Hx) as [-> | [a ->]]; cbn [sreal] in Hneg; [lra |].
  destruct (finite_cases y Hy) as [-> | [b ->]]; cbn [satan2 ssign sreal].
  - rewrite (Rltb_true a 0) by lra. cbn.
    replace (0 / a) with 0 by (field; lra). rewrite atan_0.
    split; [reflexivity | ring].
  - rewrite (Rltb_false 0 a), (Rltb_true a 0) by lra.
    destruct (Rltb b 0); cbn; split; reflexivity.
Qed.

Lemma satan2_vertical (y x : snum) :
  isFinite y = true -> isFinite x = true -> sreal x = 0 -> sreal y <> 0 ->
  satan2 y x = SReal (if Rlt_dec 0 (sreal y) then PI / 2 else - (PI / 2)).
Proof.
  intros Hy Hx Hzero Hny.
  destruct (finite_cases y Hy) as [-> | [b ->]]; cbn [sreal] in Hny;
    [contradiction |].
  cbn [sreal].
  destruct (finite_cases x Hx) as [-> | [a ->]]; cbn [sreal] in Hzero;
    [| subst a]; cbn [satan2]; rewrite ?(Rltb_false 0 0) by lra;
    destruct (Rlt_dec 0 b) as [Hb | Hb].
  - rewrite (Rltb_true 0 b Hb). reflexivity.
  - rewrite (Rltb_false 0 b), (Rltb_true b 0) by lra. reflexivity.
  - rewrite (Rltb_true 0 b Hb). reflexivity.
  - rewrite (Rltb_false 0 b), (Rltb_true b 0) by lra. reflexivity.
Qed.

(** With both arguments zeros the result is the zero [y] if the sign bit
    of [x] is clear, and [PI] with the sign of [y] if it is set. *)
Lemma satan2_zeros (y x : snum) :
  isFinite y = true -> isFinite x = true -> sreal x = 0 -> sreal y = 0 ->
  satan2 y x = if ssign x then SReal (if ssign y then - PI else PI) else y.
Proof.
  intros Hy Hx Hzx Hzy.
  destruct (finite_cases y Hy) as [-> | [b ->]]; cbn [sreal] in Hzy;
    [| subst b];
    (destruct (finite_cases x Hx) as [-> | [a ->]]; cbn [sreal] in Hzx;
     [| subst a]); cbn [satan2 ssign];
    rewrite ?(Rltb_false 0 0) by lra; reflexivity.
Qed.

(** The range of [Math.atan2] on zeros and finite numbers: [-PI] is what
    it returns for [y = -0] and an [x] with the sign bit set, and for no
    other arguments. *)
Lemma satan2_finite (y x : snum) :
  isFinite y = true -> isFinite x = true ->
  isFinite (satan2 y x) = true /\
  - PI <= sreal (satan2 y x) <= PI /\
  (sreal (satan2 y x) = - PI <-> y = SNeg0 /\ ssign x = true).
Proof.
  intros Hy Hx. pose proof PI_RGT_0 as Hpi.
  destruct (finite_cases y Hy) as [-> | [b ->]],
           (finite_cases x Hx) as [-> | [a ->]].
  - cbn. repeat split; try lra; auto.
  - cbn [satan2 ssign]. destruct (Rltb a 0); cbn.
    + repeat split; try lra; auto.
    + repeat split; try lra; try (intros [_ [=]]).
  - cbn [satan2].
    destruct (Rltb 0 b); [| destruct (Rltb b 0)]; cbn;
      (repeat split; try lra; try (intros [[=] _])).
  - destruct (satan2_real b a) as (v & -> & Hrange & _). cbn.
    repeat split; try lra; try (intros [[=] _]).
Qed.

(** The conversion to degrees keeps a zero or a finite number one. *)
Lemma degrees_finite (a : snum) :
  isFinite a = true ->
  isFinite (#180 * a / Math_PI)%js = true /\
  sreal (#180 * a / Math_PI)%js = 180 * sreal a / PI.
Proof.
  intros Ha. pose proof PI_RGT_0 as Hpi.
  destruct (finite_cases a Ha) as [-> | [v ->]].
  - cbn [ofZ nmul ndiv snum_number Math_PI snum_trig].
    assert (Hm : smul (SReal 180) SNeg0 = SNeg0).
    { unfold smul, signed. cbn [sreal ssign].
      rewrite (Reqb_true (180 * 0) 0), (Rltb_false 180 0) by lra.
      reflexivity. }
    rewrite Hm. unfold sdiv, signed. cbn [sreal ssign].
    rewrite (Reqb_false PI 0), (Reqb_true (0 / PI) 0), (Rltb_false PI 0)
      by first [lra | field; lra].
    cbn. split; [reflexivity | field; lra].
  - rewrite degrees_real. cbn. split; reflexivity.
Qed.

End SignedAngle.

Section SignedCompare.
Local Open Scope R_scope.

(** The relative error of two different real numbers, against the one
    [compare] divides by. *)
Lemma relative_error (a b : R) :
  a <> b ->
  let m := if Rlt_dec (Rabs a) (Rabs b) then b else a in
  m <> 0 /\ Rabs ((a - b) / m) = Rabs (a - b) / Rmax (Rabs a) (Rabs b).
Proof.
  intros Hab. cbv zeta.
  pose proof (Rabs_pos a) as Ha. pose proof (Rabs_pos b) as Hb.
  unfold Rmax.
  destruct (Rlt_dec (Rabs a) (Rabs b)) as [Hlt | Hge].
  - assert (Hb0 : b <> 0) by (intros ->; rewrite Rabs_R0 in Hlt; lra).
    split; [exact Hb0 |].
    destruct (Rle_dec (Rabs a) (Rabs b)); [| lra].
    unfold Rdiv. rewrite Rabs_mult, Rabs_inv. reflexivity.
  - assert (Ha0 : a <> 0).
    { intros ->. rewrite Rabs_R0 in Hge.
      assert (Rabs b = 0) by lra.
      apply Hab. symmetry.
      destruct (Req_dec b 0) as [-> | Hb0]; [reflexivity |].
      pose proof (Rabs_pos_lt b Hb0). lra. }
    split; [exact Ha0 |].
    destruct (Rle_dec (Rabs a) (Rabs b)) as [Hle | Hnle].
    + assert (Rabs a = Rabs b) as <- by lra.
      unfold Rdiv. rewrite Rabs_mult, Rabs_inv. reflexivity.
    + unfold Rdiv. rewrite Rabs_mult, Rabs_inv. reflexivity.
Qed.

(** [compare] on two zeros or finite numbers that differ: the relative
    error against the larger magnitude. *)
Lemma compare_finite (a b : snum) (tol : R) :
  isFinite a = true -> isFinite b = true -> sreal a <> sreal b ->
  TSMT_ApproxEqual.compare (Given a) (Given b) (Some (SReal tol))
  = Rleb (Rabs (sreal a - sreal b)
          / Rmax (Rabs (sreal a)) (Rabs (sreal b))) tol.
Proof.
  intros Ha Hb Hne.
  destruct (relative_error _ _ Hne) as [Hm Hrel]. rewrite <- Hrel. clear Hrel.
  unfold TSMT_ApproxEqual.compare.
  destruct (finite_cases a Ha) as [-> | [ra ->]],
           (finite_cases b Hb) as [-> | [rb ->]];
    cbn [sreal] in *; rewrite ?Rabs_R0 in *;
    cbn [isNaN neq nlt nle nsub ndiv Math_abs snum_number sisNaN seq sabs
         slt sle ssub sreal orb].
  - contradiction.
  - assert (Hrb : rb <> 0) by (intros ->; apply Hne; reflexivity).
    pose proof (Rabs_pos_lt rb Hrb) as Hpos.
    rewrite (Reqb_false 0 rb Hne), (Rltb_true 0 (Rabs rb) Hpos).
    rewrite (Reqb_false rb 0 Hrb).
    destruct (Rlt_dec 0 (Rabs rb)); [| contradiction].
    rewrite sdiv_real by (intros; lra). cbn [sabs sle].
    replace (- rb) with (0 - rb) by ring. reflexivity.
  - assert (Hra : ra <> 0) by (intros ->; apply Hne; reflexivity).
    pose proof (Rabs_pos ra) as Hpos.
    rewrite (Reqb_false ra 0 Hne), (Rltb_false (Rabs ra) 0 Hpos).
    destruct (Rlt_dec (Rabs ra) 0); [lra |].
    rewrite sdiv_real by (intros; lra). cbn [sabs sle].
    replace (ra - 0) with ra by ring. reflexivity.
  - rewrite (Reqb_false ra rb Hne).
    destruct (Rlt_dec (Rabs ra) (Rabs rb)) as [Hlt | Hge].
    + rewrite (Rltb_true _ _ Hlt), sdiv_real by (intros; lra). reflexivity.
    + rewrite (Rltb_false (Rabs ra) (Rabs rb)) by lra.
      rewrite sdiv_real by (intros; lra). reflexivity.
Qed.

Lemma compare_real_same (a : R) (tol : option snum) :
  TSMT_ApproxEqual.compare (Given (SReal a)) (Given (SReal a)) tol = true.
Proof.
  unfold TSMT_ApproxEqual.compare. cbn. rewrite Reqb_true; reflexivity.
Qed.

End SignedCompare.

Section SignedParallel.
Local Open Scope R_scope.

(** A segment from [p] to [q] whose angle is a zero. *)
Local Abbreviation along_x := (fun p q : Point snum =>
  sreal q.(y) = sreal p.(y) /\ sreal p.(x) <= sreal q.(x) /\
  ~ (q.(x) = SNeg0 /\ p.(x) = SReal 0)).

(** The angle of a segment whose end points have real coordinates, in
    degrees. *)
Lemma angle_real (x0 y0 x1 y1 v : R) :
  satan2 (SReal (y1 - y0)) (SReal (x1 - x0)) = SReal v ->
  angle (real_pt x0 y0) (real_pt x1 y1) None = SReal (180 * v / PI).
Proof.
  intros Hv. unfold angle. cbv zeta.
  cbn [x y nsub snum_number Math_atan2 snum_trig ssub].
  rewrite Hv. apply degrees_real.
Qed.

(** The two coordinates of a finite point. *)
Lemma finite_point_coordinates (p : Point snum) :
  finite_point p -> isFinite p.(x) = true /\ isFinite p.(y) = true.
Proof. unfold finite_point. intros Hp. apply andb_true_iff in Hp. exact Hp. Qed.

(** The angles of opposite directions are [PI] apart. *)
Lemma satan2_opposite (y x y' x' : snum) :
  isFinite y = true -> isFinite x = true ->
  isFinite y' = true -> isFinite x' = true ->
  sreal y' = - sreal y -> sreal x' = - sreal x ->
  sreal y <> 0 \/ sreal x <> 0 ->
  Rabs (sreal (satan2 y x) - sreal (satan2 y' x')) = PI.
Proof.
  intros Hy Hx Hy' Hx' Ey Ex Hne. pose proof PI_RGT_0 as Hpi.
  destruct (Rtotal_order (sreal x) 0) as [Hneg | [Hzero | Hpos]].
  - destruct (satan2_left y x Hy Hx Hneg) as [_ ->].
    destruct (satan2_right y' x' Hy' Hx' ltac:(lra)) as [_ ->].
    rewrite Ey, Ex.
    replace (- sreal y / - sreal x) with (sreal y / sreal x) by (field; lra).
    destruct (ssign y).
    + replace (_ - _) with (- PI) by ring.
      rewrite Rabs_Ropp. apply Rabs_pos_eq. lra.
    + replace (_ - _) with PI by ring. apply Rabs_pos_eq. lra.
  - assert (Hy0 : sreal y <> 0) by (destruct Hne; [assumption | contradiction]).
    rewrite (satan2_vertical y x Hy Hx Hzero Hy0).
    rewrite (satan2_vertical y' x' Hy' Hx') by lra.
    rewrite Ey. cbn [sreal].
    destruct (Rlt_dec 0 (sreal y)), (Rlt_dec 0 (- sreal y)); try lra.
    + replace (_ - _) with PI by field. apply Rabs_pos_eq. lra.
    + replace (_ - _) with (- PI) by field.
      rewrite Rabs_Ropp. apply Rabs_pos_eq. lra.
  - destruct (satan2_right y x Hy Hx Hpos) as [_ ->].
    destruct (satan2_left y' x' Hy' Hx' ltac:(lra)) as [_ ->].
    rewrite Ey, Ex.
    replace (- sreal y / - sreal x) with (sreal y / sreal x) by (field; lra).
    destruct (ssign y').
    + replace (_ - _) with PI by ring. apply Rabs_pos_eq. lra.
    + replace (_ - _) with (- PI) by ring.
      rewrite Rabs_Ropp. apply Rabs_pos_eq. lra.
Qed.

(** The angle is a zero exactly when [y] is one and the sign bit of [x]
    is clear. *)
Lemma satan2_zero_iff (y x : snum) :
  isFinite y = true -> isFinite x = true ->
  sreal (satan2 y x) = 0 <-> sreal y = 0 /\ ssign x = false.
Proof.
  intros Hy Hx. pose proof PI_RGT_0 as Hpi.
  destruct (Rtotal_order (sreal x) 0) as [Hneg | [Hzero | Hpos]].
  - destruct (satan2_left y x Hy Hx Hneg) as [_ ->].
    pose proof (atan_bound (sreal y / sreal x)) as Hb.
    assert (Hs : ssign x = true).
    { destruct (finite_cases x Hx) as [-> | [a ->]]; [reflexivity |].
      cbn in *. apply Rltb_true. exact Hneg. }
    rewrite Hs. split; [| intros [_ [=]]].
    destruct (ssign y); intros; lra.
  - destruct (Req_dec (sreal y) 0) as [Hy0 | Hy0].
    + rewrite (satan2_zeros y x Hy Hx Hzero Hy0).
      destruct (ssign x).
      * split; [| intros [_ [=]]]. destruct (ssign y); cbn; intros; lra.
      * split; auto.
    + rewrite (satan2_vertical y x Hy Hx Hzero Hy0). cbn [sreal].
      split; [| intros [? _]; contradiction].
      destruct (Rlt_dec 0 (sreal y)); intros; lra.
  - destruct (satan2_right y x Hy Hx Hpos) as [_ ->].
    assert (Hs : ssign x = false).
    { destruct (finite_cases x Hx) as [-> | [a ->]]; cbn in *; [lra |].
      apply Rltb_false. lra. }
    destruct (quotient_sign (sreal y) (sreal x) ltac:(lra)) as (Hq1 & Hq2 & Hq3).
    split.
    + intros Hv. split; [| exact Hs].
      destruct (Rtotal_order (sreal y) 0) as [? | [? | ?]]; [| assumption |].
      * pose proof (atan_neg _ ltac:(apply Hq2; nra)). lra.
      * pose proof (atan_pos _ ltac:(apply Hq1; nra)). lra.
    + intros [-> _]. replace (0 / sreal x) with 0 by (field; lra).
      apply atan_0.
Qed.

(** A zero or a finite number is given by its value and its sign bit. *)
Lemma finite_scaled (a a' : snum) (k : R) :
  isFinite a = true -> isFinite a' = true -> 0 < k ->
  sreal a' = k * sreal a -> ssign a' = ssign a ->
  (a = SNeg0 /\ a' = SNeg0) \/
  (exists r, a = SReal r /\ a' = SReal (k * r)).
Proof.
  intros Ha Ha' Hk Hval Hsign.
  destruct (finite_cases a Ha) as [-> | [r ->]],
           (finite_cases a' Ha') as [-> | [r' ->]];
    cbn [sreal ssign] in Hval, Hsign.
  - left. split; reflexivity.
  - exfalso. subst r'. rewrite Rltb_false in Hsign by lra. discriminate.
  - exfalso. assert (r = 0) as -> by nra.
    rewrite Rltb_false in Hsign by lra. discriminate.
  - right. exists r. subst r'. split; reflexivity.
Qed.

(** [Math.atan2] does not change when both arguments are scaled by the
    same positive factor, the signs of the zeros kept. *)
Lemma satan2_scaled (y x y' x' : snum) (k : R) :
  isFinite y = true -> isFinite x = true ->
  isFinite y' = true -> isFinite x' = true ->
  0 < k ->
  sreal y' = k * sreal y -> ssign y' = ssign y ->
  sreal x' = k * sreal x -> ssign x' = ssign x ->
  satan2 y' x' = satan2 y x.
Proof.
  intros Hy Hx Hy' Hx' Hk Ey Sy Ex Sx.
  destruct (finite_scaled y y' k Hy Hy' Hk Ey Sy)
    as [[-> ->] | (b & -> & ->)],
    (finite_scaled x x' k Hx Hx' Hk Ex Sx)
    as [[-> ->] | (a & -> & ->)]; try reflexivity.
  - cbn [satan2 ssign]. cbn [ssign] in Sx. rewrite Sx. reflexivity.
  - cbn [satan2].
    destruct (Rtotal_order b 0) as [Hb | [-> | Hb]].
    + rewrite (Rltb_false 0 (k * b)), (Rltb_true (k * b) 0) by nra.
      rewrite (Rltb_false 0 b), (Rltb_true b 0) by lra. reflexivity.
    + replace (k * 0) with 0 by ring. reflexivity.
    + rewrite (Rltb_true 0 (k * b)), (Rltb_true 0 b) by nra. reflexivity.
  - destruct (satan2_real b a) as (v & -> & _ & _ & _ & Hscale).
    apply Hscale, Hk.
Qed.

(** [compare] holds two zeros or finite numbers of the same value for
    equal. *)
Lemma compare_finite_same (a b : snum) (tol : option snum) :
  isFinite a = true -> isFinite b = true -> sreal a = sreal b ->
  TSMT_ApproxEqual.compare (Given a) (Given b) tol = true.
Proof.
  intros Ha Hb Hab. unfold TSMT_ApproxEqual.compare.
  destruct (finite_cases a Ha) as [-> | [ra ->]],
           (finite_cases b Hb) as [-> | [rb ->]];
    cbn [sreal] in Hab; cbn; rewrite Reqb_true by lra; reflexivity.
Qed.

(** The angle of a segment of finite end points is a zero exactly when
    the segment points in the direction of the [x] axis or has no length,
    the difference of the abscissas not being [-0]. *)
Lemma angle_zero_iff (p q : Point snum) :
  finite_point p -> finite_point q ->
  sreal (angle p q (Some false)) = 0 <-> along_x p q.
Proof.
  intros Hp Hq.
  apply finite_point_coordinates in Hp as [Hpx Hpy].
  apply finite_point_coordinates in Hq as [Hqx Hqy].
  destruct (ssub_finite _ _ Hqy Hpy) as (Hfy & Ey & _).
  destruct (ssub_finite _ _ Hqx Hpx) as (Hfx & Ex & _ & Hxs).
  unfold angle. cbv zeta. cbn [Math_atan2 snum_trig].
  rewrite (satan2_zero_iff _ _ Hfy Hfx), Ey.
  split.
  - intros [Hy Hs]. split; [lra |].
    destruct (Rle_dec (sreal p.(x)) (sreal q.(x))) as [Hle | Hgt].
    + split; [exact Hle |]. intros Hz.
      assert (ssign (q.(x) - p.(x))%js = true) as Ht
        by (apply Hxs; right; exact Hz).
      rewrite Ht in Hs. discriminate.
    + assert (ssign (q.(x) - p.(x))%js = true) as Ht
        by (apply Hxs; left; lra).
      rewrite Ht in Hs. discriminate.
  - intros (Hy & Hle & Hnz). split; [lra |].
    destruct (ssign (q.(x) - p.(x))%js) eqn:Hs; [| reflexivity].
    destruct (proj1 Hxs eq_refl) as [Hlt | Hz]; [lra | contradiction].
Qed.

(** X7. In exact arithmetic, the angle of a segment with finite end
    points is a zero or a finite number: in radians it lies in
    [[-PI, PI]], the call with two arguments returns it in degrees, in
    [[-180, 180]].  The lower end is what it returns exactly when [p1.y]
    is [-0], [p0.y] is [+0] and [p1.x] is left of [p0.x], or is [-0] beside
    [+0]; and it is a zero exactly when [p1.y] equals [p0.y] and [p1.x] is
    not left of [p0.x], nor [-0] beside [+0].  So when no coordinate is
    [-0] the angle lies in [(-PI, PI]], and it is [0] exactly for a
    segment that points in the direction of the [x] axis or has no
    length. *)
Theorem angle_range :
  (forall p0 p1 : Point snum,
     finite_point p0 -> finite_point p1 ->
     let rad := angle p0 p1 (Some false) in
     let deg := angle p0 p1 None in
     isFinite rad = true /\ - PI <= sreal rad <= PI /\
     isFinite deg = true /\ sreal deg = 180 * sreal rad / PI /\
     - 180 <= sreal deg <= 180 /\
     angle p0 p1 (Some true) = deg /\
     (sreal rad = - PI <->
      (p1.(y) = SNeg0 /\ p0.(y) = SReal 0) /\
      (sreal p1.(x) < sreal p0.(x) \/
       (p1.(x) = SNeg0 /\ p0.(x) = SReal 0))) /\
     (sreal rad = 0 <-> along_x p0 p1)) /\
  (forall x0 y0 x1 y1 : R,
     exists v,
       angle (real_pt x0 y0) (real_pt x1 y1) (Some false) = SReal v /\
       - PI < v <= PI /\
       angle (real_pt x0 y0) (real_pt x1 y1) None = SReal (180 * v / PI) /\
       angle (real_pt x0 y0) (real_pt x1 y1) (Some true)
         = SReal (180 * v / PI) /\
       - 180 < 180 * v / PI <= 180 /\
       (v = 0 <-> y1 = y0 /\ x0 <= x1)).
Proof.
  pose proof PI_RGT_0 as Hpi.
  assert (Hdeg : forall v, 180 * v / PI = 180 * (v / PI)) by (intros; field; lra).
  assert (Hlo : forall v, - PI <= v -> - 1 <= v / PI).
  { intros v Hv. apply (Rmult_le_reg_r PI); [lra |].
    replace (v / PI * PI) with v by (field; lra). lra. }
  assert (Hhi : forall v, v <= PI -> v / PI <= 1).
  { intros v Hv. apply (Rmult_le_reg_r PI); [lra |].
    replace (v / PI * PI) with v by (field; lra). lra. }
  split.
  - intros p0 p1 H0 H1.
    pose proof (angle_zero_iff p0 p1 H0 H1) as Hzero.
    apply finite_point_coordinates in H0 as [H0x H0y].
    apply finite_point_coordinates in H1 as [H1x H1y].
    destruct (ssub_finite _ _ H1y H0y) as (Hfy & _ & Hy0 & _).
    destruct (ssub_finite _ _ H1x H0x) as (Hfx & _ & _ & Hxs).
    destruct (satan2_finite _ _ Hfy Hfx) as (Hfin & Hrange & Hlow).
    destruct (degrees_finite _ Hfin) as [Hdfin Hdval].
    unfold angle. cbv zeta. cbn [Math_atan2 snum_trig].
    split; [exact Hfin |]. split; [exact Hrange |].
    split; [exact Hdfin |]. split; [exact Hdval |].
    split; [| split; [reflexivity | split; [| exact Hzero]]].
    + rewrite Hdval, Hdeg.
      pose proof (Hlo _ (proj1 Hrange)). pose proof (Hhi _ (proj2 Hrange)).
      lra.
    + rewrite Hlow, Hy0, Hxs. reflexivity.
  - intros x0 y0 x1 y1.
    destruct (satan2_real (y1 - y0) (x1 - x0)) as (v & Hv & Hrange & Hzero & _).
    exists v. split; [exact Hv |]. split; [exact Hrange |].
    split; [apply angle_real, Hv |].
    split; [apply (angle_real _ _ _ _ _ Hv) |].
    split.
    + rewrite Hdeg.
      assert (- 1 < v / PI).
      { apply (Rmult_lt_reg_r PI); [lra |].
        replace (v / PI * PI) with v by (field; lra). lra. }
      pose proof (Hhi _ (proj2 Hrange)). lra.
    + rewrite Hzero. split; intros [? ?]; split; lra.
Qed.

(** X8. In exact arithmetic, [isParallel] compares directions, not lines:
    a segment of finite, distinct end points is not parallel to itself
    taken from its other end, wherever there are zeros among the
    coordinates and whatever their signs. *)
Theorem isParallel_not_for_reversed_segment (p0 p1 : Point snum) :
  finite_point p0 -> finite_point p1 ->
  (p0.(x) ==? p1.(x))%js && (p0.(y) ==? p1.(y))%js = false ->
  isParallel p0 p1 p1 p0 = false.
Proof.
  intros H0 H1 Hne. pose proof PI_RGT_0 as Hpi.
  apply finite_point_coordinates in H0 as [H0x H0y].
  apply finite_point_coordinates in H1 as [H1x H1y].
  assert (Hdiff : sreal (p1.(y) - p0.(y))%js <> 0
                  \/ sreal (p1.(x) - p0.(x))%js <> 0).
  { assert (Hneq : forall a b, Reqb a b = false -> a <> b).
    { intros a b Hab ->. rewrite Reqb_true in Hab by reflexivity.
      discriminate. }
    destruct (ssub_finite _ _ H1y H0y) as (_ & -> & _).
    destruct (ssub_finite _ _ H1x H0x) as (_ & -> & _).
    apply andb_false_iff in Hne.
    destruct (finite_cases _ H0x) as [E0x | [a0 E0x]],
             (finite_cases _ H1x) as [E1x | [a1 E1x]],
             (finite_cases _ H0y) as [E0y | [b0 E0y]],
             (finite_cases _ H1y) as [E1y | [b1 E1y]];
      rewrite E0x, E1x, E0y, E1y in *;
      cbn [neq snum_number seq sreal] in Hne |- *;
      destruct Hne as [Hne | Hne]; apply Hneq in Hne; lra. }
  destruct (ssub_finite _ _ H1y H0y) as (Hfy & Ey & _).
  destruct (ssub_finite _ _ H1x H0x) as (Hfx & Ex & _).
  destruct (ssub_finite _ _ H0y H1y) as (Hfy' & Ey' & _).
  destruct (ssub_finite _ _ H0x H1x) as (Hfx' & Ex' & _).
  pose proof (satan2_opposite _ _ _ _ Hfy Hfx Hfy' Hfx'
                ltac:(lra) ltac:(lra) Hdiff) as Hopp.
  destruct (satan2_finite _ _ Hfy Hfx) as (Hf1 & Hr1 & _).
  destruct (satan2_finite _ _ Hfy' Hfx') as (Hf2 & Hr2 & _).
  destruct (degrees_finite _ Hf1) as [Hd1 Hv1].
  destruct (degrees_finite _ Hf2) as [Hd2 Hv2].
  unfold isParallel, angle. cbv zeta. cbn [Math_atan2 snum_trig].
  set (v := sreal (satan2 _ _)) in *.
  set (w := sreal (satan2 _ _)) in Hopp, Hr2, Hv2.
  set (a1 := (#180 * _ / Math_PI)%js) in *.
  set (a2 := (#180 * _ / Math_PI)%js) in Hd2, Hv2 |- *.
  assert (Hd : Rabs (sreal a1 - sreal a2) = 180).
  { rewrite Hv1, Hv2.
    replace (180 * v / PI - 180 * w / PI) with (180 / PI * (v - w))
      by (field; lra).
    rewrite Rabs_mult, Hopp, Rabs_pos_eq.
    - field. lra.
    - apply Rlt_le, Rdiv_lt_0_compat; lra. }
  assert (Hbound : forall u, - PI <= u <= PI -> Rabs (180 * u / PI) <= 180).
  { intros u Hu.
    replace (180 * u / PI) with (180 / PI * u) by (field; lra).
    rewrite Rabs_mult, Rabs_pos_eq
      by (apply Rlt_le, Rdiv_lt_0_compat; lra).
    assert (Rabs u <= PI) by (apply Rabs_le; lra).
    apply (Rmult_le_reg_r (PI / 180)); [lra |].
    replace (180 / PI * Rabs u * (PI / 180)) with (Rabs u) by (field; lra).
    replace (180 * (PI / 180)) with PI by field. assumption. }
  pose proof (Hbound v Hr1) as Hbv. pose proof (Hbound w Hr2) as Hbw.
  rewrite <- Hv1 in Hbv. rewrite <- Hv2 in Hbw.
  assert (Hne12 : sreal a1 <> sreal a2).
  { intros Heq. rewrite Heq, Rminus_diag, Rabs_R0 in Hd. lra. }
  rewrite dec_signed.
  rewrite (compare_finite a1 a2 _ Hd1 Hd2 Hne12), Hd.
  change (10 ^ Z.of_nat 4)%Z with 10000%Z.
  apply Rleb_false.
  set (r1 := sreal a1) in *. set (r2 := sreal a2) in *.
  assert (Hm : 0 < Rmax (Rabs r1) (Rabs r2) <= 180).
  { split; [| apply Rmax_lub; assumption].
    destruct (Req_dec r1 0) as [Hz | Hz].
    - assert (r2 <> 0) by lra.
      eapply Rlt_le_trans; [apply Rabs_pos_lt; eassumption | apply Rmax_r].
    - eapply Rlt_le_trans; [apply Rabs_pos_lt; eassumption | apply Rmax_l]. }
  assert (1 <= 180 / Rmax (Rabs r1) (Rabs r2)); [| lra].
  apply (Rmult_le_reg_r (Rmax (Rabs r1) (Rabs r2))); [lra |].
  replace (180 / Rmax (Rabs r1) (Rabs r2) * Rmax (Rabs r1) (Rabs r2))
    with 180 by (field; lra).
  lra.
Qed.

(** X9. In exact arithmetic, a segment is parallel to every segment that
    has its direction: [isParallel] holds for finite end points when the
    differences [p3.y - p2.y] and [p3.x - p2.x] the code computes are
    those of the first segment scaled by a positive factor, a zero among
    them with the sign it has there.  So it is, wherever [p2] is, when
    [p3 - p2] is [p1 - p0] scaled by a positive factor and no coordinate is
    [-0]. *)
Theorem isParallel_for_same_direction :
  (forall (p0 p1 p2 p3 : Point snum) (k : R),
     finite_point p0 -> finite_point p1 ->
     finite_point p2 -> finite_point p3 ->
     0 < k ->
     sreal (p3.(y) - p2.(y))%js = k * sreal (p1.(y) - p0.(y))%js ->
     ssign (p3.(y) - p2.(y))%js = ssign (p1.(y) - p0.(y))%js ->
     sreal (p3.(x) - p2.(x))%js = k * sreal (p1.(x) - p0.(x))%js ->
     ssign (p3.(x) - p2.(x))%js = ssign (p1.(x) - p0.(x))%js ->
     isParallel p0 p1 p2 p3 = true) /\
  (forall x0 y0 x1 y1 x2 y2 k : R,
     0 < k ->
     isParallel (real_pt x0 y0) (real_pt x1 y1)
                (real_pt x2 y2)
                (real_pt (x2 + k * (x1 - x0)) (y2 + k * (y1 - y0)))
     = true).
Proof.
  assert (Hgen : forall (p0 p1 p2 p3 : Point snum) (k : R),
     finite_point p0 -> finite_point p1 ->
     finite_point p2 -> finite_point p3 ->
     0 < k ->
     sreal (p3.(y) - p2.(y))%js = k * sreal (p1.(y) - p0.(y))%js ->
     ssign (p3.(y) - p2.(y))%js = ssign (p1.(y) - p0.(y))%js ->
     sreal (p3.(x) - p2.(x))%js = k * sreal (p1.(x) - p0.(x))%js ->
     ssign (p3.(x) - p2.(x))%js = ssign (p1.(x) - p0.(x))%js ->
     isParallel p0 p1 p2 p3 = true).
  { intros p0 p1 p2 p3 k H0 H1 H2 H3 Hk Ey Sy Ex Sx.
    apply finite_point_coordinates in H0 as [H0x H0y].
    apply finite_point_coordinates in H1 as [H1x H1y].
    apply finite_point_coordinates in H2 as [H2x H2y].
    apply finite_point_coordinates in H3 as [H3x H3y].
    destruct (ssub_finite _ _ H1y H0y) as (Hfy & _).
    destruct (ssub_finite _ _ H1x H0x) as (Hfx & _).
    destruct (ssub_finite _ _ H3y H2y) as (Hfy' & _).
    destruct (ssub_finite _ _ H3x H2x) as (Hfx' & _).
    unfold isParallel, angle. cbv zeta. cbn [Math_atan2 snum_trig].
    rewrite (satan2_scaled _ _ _ _ k Hfy Hfx Hfy' Hfx' Hk Ey Sy Ex Sx).
    destruct (satan2_finite _ _ Hfy Hfx) as (Hfin & _).
    destruct (degrees_finite _ Hfin) as [Hdfin _].
    apply compare_finite_same; [exact Hdfin | exact Hdfin | reflexivity]. }
  split; [exact Hgen |].
  intros x0 y0 x1 y1 x2 y2 k Hk.
  apply (Hgen _ _ _ _ k); try reflexivity; try exact Hk;
    cbn [x y nsub snum_number ssub sreal ssign]; try ring.
  - destruct (Rlt_dec (y1 - y0) 0) as [Hlt | Hge].
    + rewrite (Rltb_true (y1 - y0) 0 Hlt). apply Rltb_true. nra.
    + rewrite (Rltb_false (y1 - y0) 0) by lra. apply Rltb_false. nra.
  - destruct (Rlt_dec (x1 - x0) 0) as [Hlt | Hge].
    + rewrite (Rltb_true (x1 - x0) 0 Hlt). apply Rltb_true. nra.
    + rewrite (Rltb_false (x1 - x0) 0) by lra. apply Rltb_false. nra.
Qed.

(** With a coordinate [-0] the same direction can be one of two angles:
    the segment from [(0, 0)] to [(-1, -0)] has the angle [-180] and its
    translate from [(5, 5)] to [(4, 5)] the angle [180], and [isParallel]
    is [false] for the two. *)
Lemma isParallel_across_negative_zero :
  angle (real_pt 0 0) {| x := SReal (- 1); y := SNeg0 |} None
    = SReal (- 180) /\
  angle (real_pt 5 5) (real_pt 4 5) None = SReal 180 /\
  isParallel (real_pt 0 0) {| x := SReal (- 1); y := SNeg0 |}
             (real_pt 5 5) (real_pt 4 5) = false.
Proof.
  pose proof PI_RGT_0 as Hpi.
  assert (H1 : angle (real_pt 0 0) {| x := SReal (- 1); y := SNeg0 |} None
               = SReal (- 180)).
  { unfold angle. cbv zeta.
    cbn [x y nsub snum_number Math_atan2 snum_trig ssub].
    rewrite (Reqb_true 0 0) by reflexivity. cbn [satan2 ssign].
    rewrite (Rltb_true (- 1 - 0) 0) by lra.
    rewrite degrees_real. f_equal. field. lra. }
  assert (H2 : angle (real_pt 5 5) (real_pt 4 5) None = SReal 180).
  { unfold angle. cbv zeta.
    cbn [x y nsub snum_number Math_atan2 snum_trig ssub satan2].
    rewrite (Rltb_false 0 (4 - 5)), (Rltb_true (4 - 5) 0) by lra.
    rewrite (Rltb_false (5 - 5) 0) by lra.
    rewrite degrees_real. f_equal.
    replace ((5 - 5) / (4 - 5)) with 0 by field. rewrite atan_0. field. lra. }
  split; [exact H1 |]. split; [exact H2 |].
  unfold isParallel. rewrite H1, H2, dec_signed.
  rewrite compare_finite by first [reflexivity | cbn; lra].
  cbn [sreal]. apply Rleb_false.
  change (10 ^ Z.of_nat 4)%Z with 10000%Z.
  assert (Ha : Rabs (-180 - 180) = 360) by (rewrite Rabs_left; lra).
  assert (Hb : Rabs (-180) = 180) by (rewrite Rabs_left; lra).
  assert (Hc : Rabs 180 = 180) by (apply Rabs_pos_eq; lra).
  rewrite Ha, Hb, Hc, Rmax_left by lra. lra.
Qed.

(** X10. In exact arithmetic, the relative tolerance gives no leeway
    around the angle [0]: a segment of finite end points whose angle is a
    zero, that is one that points in the direction of the [x] axis or has
    no length, is parallel only to segments whose angle is one too; the
    slightest slope of the second one makes [isParallel] false.  The angle
    of the segment from [p] to [q] is a zero when [q.y] equals [p.y] and
    [q.x] is not left of [p.x], nor [-0] beside [+0]. *)
Theorem isParallel_with_horizontal :
  (forall p0 p1 p2 p3 : Point snum,
     finite_point p0 -> finite_point p1 ->
     finite_point p2 -> finite_point p3 ->
     along_x p0 p1 ->
     isParallel p0 p1 p2 p3 = true <-> along_x p2 p3) /\
  (forall x0 y0 x1 x2 y2 x3 y3 : R,
     x0 < x1 ->
     isParallel (real_pt x0 y0) (real_pt x1 y0)
                (real_pt x2 y2) (real_pt x3 y3) = true <->
     y3 = y2 /\ x2 <= x3).
Proof.
  pose proof PI_RGT_0 as Hpi.
  assert (Hzero : forall p q : Point snum,
            finite_point p -> finite_point q ->
            isFinite (angle p q None) = true /\
            (sreal (angle p q None) = 0 <-> along_x p q)).
  { intros p q Hp Hq. rewrite <- (angle_zero_iff p q Hp Hq).
    apply finite_point_coordinates in Hp as [Hpx Hpy].
    apply finite_point_coordinates in Hq as [Hqx Hqy].
    destruct (ssub_finite _ _ Hqy Hpy) as (Hfy & _).
    destruct (ssub_finite _ _ Hqx Hpx) as (Hfx & _).
    destruct (satan2_finite _ _ Hfy Hfx) as (Hfin & _).
    destruct (degrees_finite _ Hfin) as [Hdfin Hdval].
    unfold angle. cbv zeta. cbn [Math_atan2 snum_trig].
    split; [exact Hdfin |]. rewrite Hdval.
    set (v := sreal _). split; intros Hz.
    - replace v with (180 * v / PI * (PI / 180)) by (field; lra).
      rewrite Hz. ring.
    - rewrite Hz. field. lra. }
  assert (Hgen : forall p0 p1 p2 p3 : Point snum,
     finite_point p0 -> finite_point p1 ->
     finite_point p2 -> finite_point p3 ->
     along_x p0 p1 ->
     isParallel p0 p1 p2 p3 = true <-> along_x p2 p3).
  { intros p0 p1 p2 p3 H0 H1 H2 H3 Hfirst.
    destruct (Hzero p0 p1 H0 H1) as [Hf1 Hz1].
    destruct (Hzero p2 p3 H2 H3) as [Hf2 Hz2].
    apply Hz1 in Hfirst. rewrite <- Hz2.
    unfold isParallel.
    destruct (Req_dec (sreal (angle p2 p3 None)) 0) as [Hw | Hw].
    - rewrite compare_finite_same by first [assumption | lra].
      split; auto.
    - rewrite dec_signed, compare_finite by first [assumption | lra].
      change (10 ^ Z.of_nat 4)%Z with 10000%Z.
      rewrite Hfirst.
      set (a2 := sreal (angle p2 p3 None)) in *.
      rewrite Rabs_R0, Rmax_right by apply Rabs_pos.
      replace (0 - a2) with (- a2) by ring. rewrite Rabs_Ropp.
      replace (Rabs a2 / Rabs a2) with 1
        by (field; apply Rabs_no_R0; exact Hw).
      rewrite Rleb_false by lra.
      split; [discriminate | contradiction]. }
  split; [exact Hgen |].
  intros x0 y0 x1 x2 y2 x3 y3 Hx.
  rewrite (Hgen (real_pt x0 y0) (real_pt x1 y0) (real_pt x2 y2)
             (real_pt x3 y3)); try reflexivity.
  - cbn [x y sreal]. split.
    + intros (Hy & Hle & _). split; assumption.
    + intros [Hy Hle]. repeat split; try assumption. intros [[=] _].
  - cbn [x y sreal]. repeat split; try lra. intros [[=] _].
Qed.

End SignedParallel.

(** ** [TSMT$PointUtils]: segments *)

Section Binary64Segments.
Local Open Scope js_scope.
Local Set Warnings "-inexact-float".

Lemma float_div_zero_not_finite (a : float) :
  is_finite (a / zero)%float = false.
Proof.
  pose proof (SFdiv_zero_not_finite (Prim2SF a)) as Hd.
  unfold is_finite, is_nan, is_infinity.
  rewrite !FloatAxioms.eqb_spec, abs_spec, div_spec.
  change (Prim2SF zero) with (S754_zero false).
  change (Prim2SF infinity) with (S754_infinity false).
  destruct (SF64div (Prim2SF a) (S754_zero false)) as [s | [] | | s m e];
    try contradiction; reflexivity.
Qed.

Lemma float_l2Norm_diag (p : Point float) :
  finite_point p -> l2Norm (Given p) (Given p) = zero.
Proof.
  unfold finite_point. cbn [isFinite float_number].
  intros [Hx Hy]%andb_true_iff.
  unfold l2Norm. cbn [nsub nmul nadd Math_sqrt float_number].
  rewrite (float_sub_diag _ Hx), (float_sub_diag _ Hy). reflexivity.
Qed.

(** X11. On doubles, a first segment of length zero is not guarded:
    [ratio(p0, p0, p2)] divides by [0] and is never a finite number,
    whatever [p2] is. *)
Theorem ratio_of_zero_length_segment (p0 p2 : Point float) :
  finite_point p0 -> isFinite (ratio p0 p0 p2) = false.
Proof.
  intros Hp0. unfold ratio. rewrite (float_l2Norm_diag p0 Hp0).
  apply float_div_zero_not_finite.
Qed.

(** X12. On doubles, both end points of a segment with finite
    coordinates are on it; and when the two end points coincide,
    [pointOnLine] is its end-point test: the points it reports are those
    within [1e-8] of the end point in both coordinates. *)
Theorem pointOnLine_at_end_points (p0 p1 p : Point float) :
  finite_point p0 -> finite_point p1 ->
  pointOnLine p0 p1 p0 = true /\
  pointOnLine p0 p1 p1 = true /\
  pointOnLine p0 p0 p =
    (Math_abs (p.(x) - p0.(x)) <? dec 1 8)
    && (Math_abs (p.(y) - p0.(y)) <? dec 1 8).
Proof.
  unfold finite_point. cbn [isFinite float_number].
  intros [Hx0 Hy0]%andb_true_iff [Hx1 Hy1]%andb_true_iff.
  unfold pointOnLine. cbv zeta.
  cbn [nsub nlt neq nle ndiv Math_abs float_number].
  rewrite (float_abs_sub_swap (x p0) (x p)), (float_abs_sub_swap (y p0) (y p)).
  rewrite (float_sub_diag _ Hx0), (float_sub_diag _ Hy0).
  rewrite (float_sub_diag _ Hx1), (float_sub_diag _ Hy1).
  split; [reflexivity |]. split.
  - destruct ((PrimFloat.abs (x p1 - x p0) <? dec 1 8)%float
              && (PrimFloat.abs (y p1 - y p0) <? dec 1 8)%float);
      reflexivity.
  - destruct ((PrimFloat.abs (x p - x p0) <? dec 1 8)%float
              && (PrimFloat.abs (y p - y p0) <? dec 1 8)%float);
      reflexivity.
Qed.

(** X13. On doubles, on a vertical segment [pointOnLine] never looks at
    how far to the side the point is: a point whose [y] lies between those
    of the end points is reported on the segment whatever its [x]; and on a
    horizontal segment likewise, whatever its [y]. *)
Theorem pointOnLine_axis_parallel_ignores_offset
    (x0 y0 x1 y1 px py : float) :
  (is_finite x0 = true ->
   (Math_abs (y1 - y0) <? dec 1 8) = false ->
   ((py - y0) / (y1 - y0) >=? #0) && ((py - y0) / (y1 - y0) <=? #1) = true ->
   pointOnLine (pt x0 y0) (pt x0 y1) (pt px py) = true) /\
  (is_finite y0 = true ->
   (Math_abs (x1 - x0) <? dec 1 8) = false ->
   ((px - x0) / (x1 - x0) >=? #0) && ((px - x0) / (x1 - x0) <=? #1) = true ->
   pointOnLine (pt x0 y0) (pt x1 y0) (pt px py) = true).
Proof.
  split; intros Hfin Hlong Hin; unfold pointOnLine; cbv zeta; cbn [x y];
    match goal with |- (if ?c then _ else _) = _ => destruct c end;
    try reflexivity;
    cbn [nsub nlt neq nle ndiv Math_abs float_number] in *;
    rewrite (float_sub_diag _ Hfin).
  - change (PrimFloat.abs zero <? dec 1 8)%float with true. cbv iota.
    rewrite Hlong. exact Hin.
  - rewrite Hlong.
    change (PrimFloat.abs zero <? dec 1 8)%float with true. cbv iota.
    exact Hin.
Qed.

End Binary64Segments.

Section ExactSegments.
Local Open Scope R_scope.

(** X14. In exact arithmetic, [pointOnLine] reports every point of the
    segment: for finite end points and [0 <= t <= 1], the point
    [p0 + t (p1 - p0)] is on the segment from [p0] to [p1]. *)
Theorem pointOnLine_complete (x0 y0 x1 y1 t : R) :
  0 <= t <= 1 ->
  pointOnLine (fin x0 y0) (fin x1 y1)
              (fin (x0 + t * (x1 - x0)) (y0 + t * (y1 - y0))) = true.
Proof.
  intros Ht.
  set (vx := x1 - x0). set (vy := y1 - y0).
  unfold pointOnLine. cbv zeta. rewrite !dec_exact.
  change (10 ^ Z.of_nat 8)%Z with 100000000%Z.
  change (10 ^ Z.of_nat 3)%Z with 1000%Z.
  cbn [x y nsub nlt nle neq ndiv Math_abs ofZ xnum_number xsub xabs xlt xeq].
  fold vx vy.
  replace (x0 + t * vx - x0) with (t * vx) by ring.
  replace (y0 + t * vy - y0) with (t * vy) by ring.
  set (e := 1 / 100000000).
  assert (He : 0 < e) by (unfold e; lra).
  destruct (Rltb (Rabs (t * vx)) e && Rltb (Rabs (t * vy)) e) eqn:Hnear0.
  { cbv iota. cbn [xeq]. rewrite Reqb_true by reflexivity. reflexivity. }
  cbv iota. cbn [xeq]. rewrite (Reqb_false (-1) 0) by lra. cbn [orb].
  destruct (Rltb (Rabs (x1 - (x0 + t * vx))) e
            && Rltb (Rabs (y1 - (y0 + t * vy))) e) eqn:Hnear1.
  { cbv iota. cbn [xeq]. rewrite Reqb_true by reflexivity. reflexivity. }
  cbv iota. cbn [xeq]. rewrite (Reqb_false (-2) 1) by lra.
  assert (Habs : forall v, Rabs (t * v) <= Rabs v).
  { intros v. rewrite Rabs_mult, (Rabs_pos_eq t) by lra.
    pose proof (Rabs_pos v). nra. }
  destruct (Rlt_dec (Rabs vx) e) as [Hvx | Hvx].
  - rewrite (Rltb_true _ _ Hvx).
    destruct (Rlt_dec (Rabs vy) e) as [Hvy | Hvy].
    + exfalso.
      rewrite (Rltb_true (Rabs (t * vx)) e) in Hnear0
        by (pose proof (Habs vx); lra).
      rewrite (Rltb_true (Rabs (t * vy)) e) in Hnear0
        by (pose proof (Habs vy); lra).
      discriminate.
    + rewrite (Rltb_false (Rabs vy) e) by lra.
      assert (Hvy0 : vy <> 0) by (intros H0; rewrite H0, Rabs_R0 in Hvy; lra).
      rewrite (xdiv_fin _ _ Hvy0). cbn [xle].
      replace (t * vy / vy) with t by (field; exact Hvy0).
      rewrite !Rleb_true by lra. reflexivity.
  - rewrite (Rltb_false (Rabs vx) e) by lra.
    assert (Hvx0 : vx <> 0) by (intros H0; rewrite H0, Rabs_R0 in Hvx; lra).
    rewrite (xdiv_fin _ _ Hvx0). cbn [xle].
    replace (t * vx / vx) with t by (field; exact Hvx0).
    destruct (Rlt_dec (Rabs vy) e) as [Hvy | Hvy].
    + rewrite (Rltb_true _ _ Hvy). rewrite !Rleb_true by lra. reflexivity.
    + rewrite (Rltb_false (Rabs vy) e) by lra.
      assert (Hvy0 : vy <> 0) by (intros H0; rewrite H0, Rabs_R0 in Hvy; lra).
      rewrite (xdiv_fin _ _ Hvy0). cbn [xle].
      replace (t * vy / vy) with t by (field; exact Hvy0).
      rewrite !Rleb_true by lra. cbn [andb].
      apply compare_fin_same.
Qed.

(** X15. [isLeft] is strict and antisymmetric.  On doubles, neither end
    point of the segment is to its left, whatever the coordinates.  In
    exact arithmetic, a point is not to the left of both [p0 -> p1] and
    [p1 -> p0], and it is to the left of neither exactly when the three
    points are collinear. *)
Theorem isLeft_strict_antisymmetric :
  (forall p0 p1 : Point float,
     isLeft p0 p1 p0 = false /\ isLeft p0 p1 p1 = false) /\
  (forall x0 y0 x1 y1 px py : R,
     isLeft (fin x0 y0) (fin x1 y1) (fin px py)
       && isLeft (fin x1 y1) (fin x0 y0) (fin px py) = false /\
     (isLeft (fin x0 y0) (fin x1 y1) (fin px py)
        || isLeft (fin x1 y1) (fin x0 y0) (fin px py) = false <->
      (x1 - x0) * (py - y0) - (px - x0) * (y1 - y0) = 0)).
Proof.
  split.
  - intros p0 p1. unfold isLeft. cbn [nsub nmul nlt float_number].
    change (float_ofZ 0) with zero.
    rewrite !ltb_spec, !sub_spec, !mul_spec, !sub_spec.
    change (Prim2SF zero) with (S754_zero false).
    split; apply SFnull_not_positive.
    + apply SFsub_null;
        [apply SFmul_null_r | apply SFmul_null_l]; apply SFsub_self_null.
    + rewrite (SFmul_comm (SF64sub (Prim2SF (x p1)) (Prim2SF (x p0)))).
      apply SFsub_self_null.
  - intros x0 y0 x1 y1 px py. unfold isLeft. cbn.
    set (c := (x1 - x0) * (py - y0) - (px - x0) * (y1 - y0)).
    replace ((x0 - x1) * (py - y1) - (px - x1) * (y0 - y1)) with (- c)
      by (unfold c; ring).
    destruct (Rtotal_order c 0) as [Hc | [Hc | Hc]].
    + rewrite (Rltb_false 0 c), (Rltb_true 0 (- c)) by lra.
      split; [reflexivity |]. split; [discriminate | lra].
    + rewrite (Rltb_false 0 c), (Rltb_false 0 (- c)) by lra.
      split; [reflexivity |]. split; [intros _; exact Hc | reflexivity].
    + rewrite (Rltb_true 0 c), (Rltb_false 0 (- c)) by lra.
      split; [reflexivity |]. split; [discriminate | lra].
Qed.

End ExactSegments.

(** ** [TSMT$PointUtils]: scans of a cloud *)

Section Scan.
Context {T : Type} `{JSNumber T}.
Local Open Scope js_scope.
Implicit Types (h : gmap loc (object T)) (l : loc).

(** The loop of [bottomLeft] and [bottomRight], for the test [better] each
    of them makes: on a cloud whose points [better] orders, the index
    returned is that of a point none is better than, and which is better
    than every point before it. *)
Lemma scan_run (better : Point T -> Point T -> bool) h points elems cloud :
  h !! points = Some (OArray elems) ->
  Forall2 (fun e p => point_at h e = Some p) elems cloud ->
  (forall p, p ∈ cloud -> better p p = false) ->
  (forall p q r, p ∈ cloud -> q ∈ cloud -> r ∈ cloud ->
     better p q = true -> better q r = true -> better p r = true) ->
  (forall p q r, p ∈ cloud -> q ∈ cloud -> r ∈ cloud ->
     better p r = true -> better q r = false -> better p q = true) ->
  cloud <> [] ->
  exists r R,
    for_ 0 (List.length elems) (fun i index_ =>
      pt ← index points i ≫= load_arg;
      cur ← index points index_ ≫= load_arg;
      if better pt cur then mret i else mret index_) 0%nat h = (Ok r, h) /\
    cloud !! r = Some R /\
    (forall j Q, cloud !! j = Some Q -> better Q R = false) /\
    (forall j Q, (j < r)%nat -> cloud !! j = Some Q -> better R Q = true).
Proof.
  intros Hpts Hall Hirr Htrans Hneg Hne.
  assert (Hlen : List.length elems = List.length cloud)
    by exact (Forall2_length _ _ _ Hall).
  assert (Hget : forall i P, cloud !! i = Some P ->
            (index points i ≫= load_arg) h = (Ok P, h)).
  { intros i P HP. rewrite bind_run, (index_array_run _ _ _ _ Hpts).
    destruct (Forall2_lookup_r _ _ _ _ _ Hall HP) as (e & -> & He).
    cbn [load_arg]. apply load_run, He. }
  assert (Hin : forall i P, cloud !! i = Some P -> P ∈ cloud)
    by (intros i P HP; eapply list_elem_of_lookup_2; exact HP).
  set (body := fun (i index_ : nat) => _).
  assert (Hloop : forall n i idx P,
    (i + n = List.length cloud)%nat ->
    cloud !! idx = Some P ->
    (forall j Q, (j < i)%nat -> cloud !! j = Some Q -> better Q P = false) ->
    (forall j Q, (j < idx)%nat -> cloud !! j = Some Q -> better P Q = true) ->
    exists r R,
      for_ i n body idx h = (Ok r, h) /\ cloud !! r = Some R /\
      (forall j Q, cloud !! j = Some Q -> better Q R = false) /\
      (forall j Q, (j < r)%nat -> cloud !! j = Some Q -> better R Q = true)).
  { induction n as [| n IH]; intros i idx P Hi HP Hall1 Hall2.
    - exists idx, P. repeat split; try assumption.
      intros j Q HQ. apply (Hall1 j Q); [| exact HQ].
      apply lookup_lt_Some in HQ. lia.
    - destruct (lookup_lt_is_Some_2 cloud i ltac:(lia)) as [Qi HQi].
      cbn [for_]. rewrite bind_run. unfold body at 1.
      rewrite bind_run, (Hget _ _ HQi), bind_run, (Hget _ _ HP).
      destruct (better Qi P) eqn:HB; rewrite ret_run.
      + apply (IH (S i) i Qi ltac:(lia) HQi).
        * intros j Q Hj HQ.
          destruct (decide (j = i)) as [-> | Hji].
          { rewrite HQi in HQ. injection HQ as <-. apply Hirr; eauto. }
          destruct (better Q Qi) eqn:HQQ; [| reflexivity].
          rewrite <- (Hall1 j Q ltac:(lia) HQ). symmetry.
          apply (Htrans Q Qi P); eauto.
        * intros j Q Hj HQ.
          destruct (decide (j = idx)) as [-> | Hjx].
          { rewrite HP in HQ. injection HQ as <-. exact HB. }
          destruct (decide (j < idx)%nat) as [Hlt | Hge].
          { apply (Htrans Qi P Q); eauto. }
          apply (Hneg Qi Q P); eauto.
      + apply (IH (S i) idx P ltac:(lia) HP); [| exact Hall2].
        intros j Q Hj HQ.
        destruct (decide (j = i)) as [-> | Hji].
        { rewrite HQi in HQ. injection HQ as <-. exact HB. }
        apply (Hall1 j Q); [lia | exact HQ]. }
  destruct cloud as [| P0 cloud'] eqn:Hc; [contradiction |].
  rewrite Hlen.
  apply (Hloop _ 0%nat 0%nat P0); [lia | reflexivity | |]; intros; lia.
Qed.

End Scan.

Section Lexicographic.
Context {A : Type} (number : A -> Prop) (cy cx : A -> A -> option comparison).

(** What a three-way comparison of numbers satisfies. *)
Local Abbreviation order_like c :=
  ((forall a b, number a -> number b -> exists r, c a b = Some r) /\
   (forall a b, c b a = option_map CompOpp (c a b)) /\
   (forall a b d r1 r2, c a b = Some r1 -> c b d = Some r2 ->
      r1 <> Gt -> r2 <> Gt ->
      c a d = Some (match r1 with Eq => r2 | _ => Lt end))).

Local Abbreviation lex a b :=
  (match cy a b with Some Eq => cx a b | r => r end).

Lemma lex_order_like :
  order_like cy -> order_like cx -> order_like (fun a b => lex a b).
Proof.
  intros (Hty & Hay & Hry) (Htx & Hax & Hrx). repeat split.
  - intros a b Ha Hb. destruct (Hty a b Ha Hb) as [[ | | ] ->]; eauto.
  - intros a b. rewrite (Hay a b), (Hax a b).
    destruct (cy a b) as [[ | | ] |]; reflexivity.
  - intros a b d r1 r2 H1 H2 Hr1 Hr2.
    destruct (cy a b) as [[ | | ] |] eqn:Hab; try discriminate;
      destruct (cy b d) as [[ | | ] |] eqn:Hbd; try discriminate;
      try (injection H1 as <-); try (injection H2 as <-); try congruence;
      rewrite (Hry a b d _ _ Hab Hbd) by discriminate; try reflexivity.
    + apply (Hrx a b d r1 r2); assumption.
    + destruct r1; try reflexivity; congruence.
Qed.

Lemma order_like_flip : order_like cx -> order_like (fun a b => cx b a).
Proof.
  intros (Htx & Hax & Hrx). repeat split.
  - intros a b Ha Hb. apply Htx; assumption.
  - intros a b. apply Hax.
  - intros a b d r1 r2 H1 H2 Hr1 Hr2.
    rewrite (Hrx d b a r2 r1 H2 H1 Hr2 Hr1).
    destruct r1, r2; congruence.
Qed.

(** The strict part of such a comparison is irreflexive and transitive,
    and what is below [d] is below all that is not below [d]. *)
Lemma order_like_strict (c : A -> A -> option comparison) :
  order_like c ->
  let below a b := match c a b with Some Lt => true | _ => false end in
  (forall a, below a a = false) /\
  (forall a b d, below a b = true -> below b d = true -> below a d = true) /\
  (forall a b d, number a -> number b -> number d ->
     below a d = true -> below b d = false -> below a b = true).
Proof.
  intros (Ht & Ha & Hr) below. subst below. cbv beta. repeat split.
  - intros a. pose proof (Ha a a) as Haa.
    destruct (c a a) as [[ | | ] |]; try reflexivity; discriminate.
  - intros a b d Hab Hbd.
    destruct (c a b) as [[ | | ] |] eqn:H1; try discriminate.
    destruct (c b d) as [[ | | ] |] eqn:H2; try discriminate.
    rewrite (Hr a b d _ _ H1 H2) by discriminate. reflexivity.
  - intros a b d Na Nb Nd Had Hbd.
    destruct (c a d) as [[ | | ] |] eqn:H1; try discriminate.
    destruct (Ht d b Nd Nb) as [r2 H2].
    pose proof (Ha d b) as Hdb. rewrite H2 in Hdb.
    destruct r2; cbn in Hdb; rewrite Hdb in Hbd; try discriminate;
      rewrite (Hr a d b _ _ H1 H2) by discriminate; reflexivity.
Qed.

End Lexicographic.

Section Binary64Bottom.
Local Open Scope js_scope.
Implicit Types (h : gmap loc (object float)) (p q : Point float).

Local Abbreviation number p := (isNaN p.(x) || isNaN p.(y) = false).
Local Abbreviation fcmp a b := (SFcompare (Prim2SF a) (Prim2SF b)).

Lemma fcmp_total (a b : float) :
  is_nan a = false -> is_nan b = false -> exists r, fcmp a b = Some r.
Proof.
  rewrite !is_nan_spec.
  destruct (Prim2SF a), (Prim2SF b); cbn; try discriminate; eauto.
Qed.

Lemma lex_y_x_order_like :
  let number p := number p in
  let cy p q := fcmp p.(y) q.(y) in
  let cx p q := fcmp p.(x) q.(x) in
  ((forall a b, number a -> number b -> exists r, cy a b = Some r) /\
   (forall a b, cy b a = option_map CompOpp (cy a b)) /\
   (forall a b d r1 r2, cy a b = Some r1 -> cy b d = Some r2 ->
      r1 <> Gt -> r2 <> Gt ->
      cy a d = Some (match r1 with Eq => r2 | _ => Lt end))) /\
  ((forall a b, number a -> number b -> exists r, cx a b = Some r) /\
   (forall a b, cx b a = option_map CompOpp (cx a b)) /\
   (forall a b d r1 r2, cx a b = Some r1 -> cx b d = Some r2 ->
      r1 <> Gt -> r2 <> Gt ->
      cx a d = Some (match r1 with Eq => r2 | _ => Lt end))).
Proof.
  cbv zeta. cbn [isNaN float_number].
  repeat split; intros.
  - apply fcmp_total; [destruct (is_nan (y a)) | destruct (is_nan (y b))];
      rewrite ?orb_true_r in *; congruence.
  - apply SFcompare_antisym.
  - eapply SFcompare_trans; eassumption.
  - apply fcmp_total; [destruct (is_nan (x a)) | destruct (is_nan (x b))];
      cbn in *; congruence.
  - apply SFcompare_antisym.
  - eapply SFcompare_trans; eassumption.
Qed.

Local Abbreviation lexL p q :=
  (match fcmp p.(y) q.(y) with Some Eq => fcmp p.(x) q.(x) | r => r end).
Local Abbreviation lexR p q :=
  (match fcmp p.(y) q.(y) with Some Eq => fcmp q.(x) p.(x) | r => r end).
Local Abbreviation below c p q :=
  (match c p q with Some Lt => true | _ => false end).

Lemma better_left_lex p q :
  (p.(y) <? q.(y)) || ((p.(y) <=? q.(y)) && (p.(x) <? q.(x)))
  = below (fun p q => lexL p q) p q.
Proof.
  cbn [nlt nle float_number]. rewrite !ltb_spec, leb_spec.
  unfold SFltb, SFleb.
  destruct (fcmp (y p) (y q)) as [[ | | ] |]; try reflexivity.
Qed.

Lemma better_right_lex p q :
  (p.(y) <? q.(y)) || ((p.(y) <=? q.(y)) && (p.(x) >? q.(x)))
  = below (fun p q => lexR p q) p q.
Proof.
  cbn [nlt nle float_number]. rewrite !ltb_spec, leb_spec.
  unfold SFltb, SFleb.
  destruct (fcmp (y p) (y q)) as [[ | | ] |]; try reflexivity.
Qed.

(** The three facts [scan_run] asks of a test that is the strict part of
    an order of the points of the cloud. *)
Lemma strict_on_cloud (c : Point float -> Point float -> option comparison)
    (better : Point float -> Point float -> bool) (cloud : list (Point float)) :
  (forall p q, better p q = below c p q) ->
  ((forall a b, number a -> number b -> exists r, c a b = Some r) /\
   (forall a b, c b a = option_map CompOpp (c a b)) /\
   (forall a b d r1 r2, c a b = Some r1 -> c b d = Some r2 ->
      r1 <> Gt -> r2 <> Gt ->
      c a d = Some (match r1 with Eq => r2 | _ => Lt end))) ->
  Forall (fun p => number p) cloud ->
  (forall p, p ∈ cloud -> better p p = false) /\
  (forall p q r, p ∈ cloud -> q ∈ cloud -> r ∈ cloud ->
     better p q = true -> better q r = true -> better p r = true) /\
  (forall p q r, p ∈ cloud -> q ∈ cloud -> r ∈ cloud ->
     better p r = true -> better q r = false -> better p q = true).
Proof.
  intros Hb Hc Hnum.
  destruct (order_like_strict (fun p => number p) c Hc) as (Hi & Ht & Hn).
  rewrite Forall_forall in Hnum.
  repeat split.
  - intros p _. rewrite Hb. apply Hi.
  - intros p q r _ _ _. rewrite !Hb. apply Ht.
  - intros p q r Hp Hq Hr. rewrite !Hb. apply Hn; apply Hnum; assumption.
Qed.

(** X16. On doubles, on a cloud that is not empty and has no NaN
    coordinate, [bottomLeft] returns the index of a lowest point, the
    leftmost of the lowest ones: every point of the cloud lies above it, or
    at its height and not to its left; and every point before it in the
    array lies above it, or at its height and to its right, so that the
    index is the first of such a point. *)
Theorem bottomLeft_lowest_then_leftmost h points cloud :
  cloud_at h points = Some cloud ->
  cloud <> [] ->
  Forall (fun p => number p) cloud ->
  exists r R,
    bottomLeft points h = (Ok r, h) /\
    cloud !! r = Some R /\
    (forall j Q, cloud !! j = Some Q ->
       (R.(y) <? Q.(y)) = true \/
       ((R.(y) ==? Q.(y)) = true /\ (R.(x) <=? Q.(x)) = true)) /\
    (forall j Q, (j < r)%nat -> cloud !! j = Some Q ->
       (R.(y) <? Q.(y)) = true \/
       ((R.(y) ==? Q.(y)) = true /\ (R.(x) <? Q.(x)) = true)).
Proof.
  intros Hcloud Hne Hnum.
  apply cloud_at_elems in Hcloud as (elems & Hpts & Hall).
  pose proof lex_y_x_order_like as [Hy Hx]. cbv zeta in Hy, Hx.
  pose proof (lex_order_like (fun p => number p) _ _ Hy Hx) as Hlex.
  destruct (strict_on_cloud _ _ cloud better_left_lex Hlex Hnum)
    as (Hi & Ht & Hn).
  destruct (scan_run _ h points elems cloud Hpts Hall Hi Ht Hn Hne)
    as (r & R & Hrun & HR & Hmin & Hfirst).
  exists r, R. unfold bottomLeft.
  rewrite bind_run, (array_length_run _ _ _ Hpts).
  split; [exact Hrun |]. split; [exact HR |].
  rewrite Forall_forall in Hnum.
  assert (NR : number R) by (apply Hnum; eapply list_elem_of_lookup_2; eauto).
  destruct Hlex as (Htot & Hanti & _).
  split.
  - intros j Q HQ. specialize (Hmin j Q HQ). rewrite better_left_lex in Hmin.
    assert (NQ : number Q) by (apply Hnum; eapply list_elem_of_lookup_2; eauto).
    destruct (Htot Q R NQ NR) as [c Hc]. pose proof (Hanti Q R) as Ha.
    cbv beta in Hc, Ha. rewrite Hc in Hmin, Ha. cbn in Ha.
    cbn [nlt nle neq float_number].
    rewrite ltb_spec, FloatAxioms.eqb_spec, leb_spec.
    unfold SFltb, SFeqb, SFleb.
    destruct (fcmp (y R) (y Q)) as [[ | | ] |]; try discriminate;
      try (left; reflexivity).
    + right. split; [reflexivity |]. rewrite Ha.
      destruct c; try discriminate; reflexivity.
    + destruct c; discriminate.
  - intros j Q Hj HQ. specialize (Hfirst j Q Hj HQ).
    rewrite better_left_lex in Hfirst.
    cbn [nlt nle neq float_number].
    rewrite !ltb_spec, FloatAxioms.eqb_spec. unfold SFltb, SFeqb.
    destruct (fcmp (y R) (y Q)) as [[ | | ] |]; try discriminate;
      try (left; reflexivity).
    right. split; [reflexivity | exact Hfirst].
Qed.

(** X17. On doubles, on a cloud that is not empty and has no NaN
    coordinate, [bottomRight] returns the index of a lowest point, the
    rightmost of the lowest ones, and the first index of such a point:
    every point of the cloud lies above it, or at its height and not to its
    right; every point before it lies above it, or at its height and to
    its left. *)
Theorem bottomRight_lowest_then_rightmost h points cloud :
  cloud_at h points = Some cloud ->
  cloud <> [] ->
  Forall (fun p => number p) cloud ->
  exists r R,
    bottomRight points h = (Ok r, h) /\
    cloud !! r = Some R /\
    (forall j Q, cloud !! j = Some Q ->
       (R.(y) <? Q.(y)) = true \/
       ((R.(y) ==? Q.(y)) = true /\ (Q.(x) <=? R.(x)) = true)) /\
    (forall j Q, (j < r)%nat -> cloud !! j = Some Q ->
       (R.(y) <? Q.(y)) = true \/
       ((R.(y) ==? Q.(y)) = true /\ (Q.(x) <? R.(x)) = true)).
Proof.
  intros Hcloud Hne Hnum.
  apply cloud_at_elems in Hcloud as (elems & Hpts & Hall).
  pose proof lex_y_x_order_like as [Hy Hx]. cbv zeta in Hy, Hx.
  apply (order_like_flip (fun p => number p)) in Hx.
  pose proof (lex_order_like (fun p => number p) _ _ Hy Hx) as Hlex.
  destruct (strict_on_cloud _ _ cloud better_right_lex Hlex Hnum)
    as (Hi & Ht & Hn).
  destruct (scan_run _ h points elems cloud Hpts Hall Hi Ht Hn Hne)
    as (r & R & Hrun & HR & Hmin & Hfirst).
  exists r, R. unfold bottomRight.
  rewrite bind_run, (array_length_run _ _ _ Hpts).
  split; [exact Hrun |]. split; [exact HR |].
  rewrite Forall_forall in Hnum.
  assert (NR : number R) by (apply Hnum; eapply list_elem_of_lookup_2; eauto).
  destruct Hlex as (Htot & Hanti & _).
  split.
  - intros j Q HQ. specialize (Hmin j Q HQ). rewrite better_right_lex in Hmin.
    assert (NQ : number Q) by (apply Hnum; eapply list_elem_of_lookup_2; eauto).
    destruct (Htot Q R NQ NR) as [c Hc]. pose proof (Hanti Q R) as Ha.
    cbv beta in Hc, Ha. rewrite Hc in Hmin, Ha. cbn in Ha.
    cbn [nlt nle neq float_number].
    rewrite ltb_spec, FloatAxioms.eqb_spec, leb_spec.
    unfold SFltb, SFeqb, SFleb.
    destruct (fcmp (y R) (y Q)) as [[ | | ] |]; try discriminate;
      try (left; reflexivity).
    + right. split; [reflexivity |]. rewrite Ha.
      destruct c; try discriminate; reflexivity.
    + destruct c; discriminate.
  - intros j Q Hj HQ. specialize (Hfirst j Q Hj HQ).
    rewrite better_right_lex in Hfirst.
    cbn [nlt nle neq float_number].
    rewrite !ltb_spec, FloatAxioms.eqb_spec. unfold SFltb, SFeqb.
    destruct (fcmp (y R) (y Q)) as [[ | | ] |]; try discriminate;
      try (left; reflexivity).
    right. split; [reflexivity | exact Hfirst].
Qed.

End Binary64Bottom.

Section ShortClouds.
Context {T : Type} {num : JSNumber T}.
Local Open Scope js_scope.
Implicit Types (h : gmap loc (object T)) (l : loc).

(** X18. The scans on clouds too short to scan.  On an empty array
    [bottomLeft] and [bottomRight] return the index [0], which no element
    has, and [closestPointToLine] throws a [TypeError], reading [x] of
    [points[0]]; on an array of one point [closestPointToLine] returns
    [0]. *)
Theorem scans_of_short_clouds h points p0 p1 P0 P1 :
  point_at h p0 = Some P0 ->
  point_at h p1 = Some P1 ->
  (cloud_at h points = Some [] ->
   bottomLeft points h = (Ok 0%nat, h) /\
   bottomRight points h = (Ok 0%nat, h) /\
   closestPointToLine points p0 p1 h = (Throw TypeError, h)) /\
  (forall Q, cloud_at h points = Some [Q] ->
   closestPointToLine points p0 p1 h = (Ok 0%nat, h)).
Proof.
  intros H0 H1. split.
  - intros Hcloud.
    apply cloud_at_elems in Hcloud as (elems & Hpts & Hall).
    inversion Hall; subst.
    unfold bottomLeft, bottomRight, closestPointToLine.
    rewrite !bind_run, (array_length_run _ _ _ Hpts).
    repeat split; try reflexivity.
    rewrite (load_run _ _ _ H0), bind_run, (load_run _ _ _ H1).
    cbv zeta. rewrite bind_run, (array_length_run _ _ _ Hpts).
    rewrite !bind_run, (index_array_run _ _ _ _ Hpts). reflexivity.
  - intros Q Hcloud.
    apply cloud_at_elems in Hcloud as (elems & Hpts & Hall).
    inversion Hall as [| e0 Q0 elems' cloud' HQ0 Hall']; subst.
    inversion Hall'; subst.
    unfold closestPointToLine.
    rewrite bind_run, (load_run _ _ _ H0), bind_run, (load_run _ _ _ H1).
    cbv zeta.
    rewrite bind_run, (array_length_run _ _ _ Hpts).
    rewrite !bind_run, (index_array_run _ _ _ _ Hpts).
    cbn [lookup list_lookup].
    cbn [load_arg]. rewrite (load_run _ _ _ HQ0). reflexivity.
Qed.

End ShortClouds.

(** ** [TSMT$PointUtils]: distances and projections *)

Section ExactLine.
Local Open Scope R_scope.

Lemma sum_squares_pos (u v : R) : u <> 0 \/ v <> 0 -> 0 < u * u + v * v.
Proof.
  intros [Hu | Hv].
  - destruct (Rtotal_order u 0) as [? | [? | ?]]; [nra | lra | nra].
  - destruct (Rtotal_order v 0) as [? | [? | ?]]; [nra | lra | nra].
Qed.

(** X19. In exact arithmetic, for finite points with [p0 <> p1],
    [pointToLineDistancee] is the distance of [p] from the line through
    [p0] and [p1]: the magnitude of the outer product of [p1 - p0] and
    [p - p0] divided by the length of [p1 - p0]. *)
Theorem pointToLineDistancee_is_cross_over_length (x0 y0 x1 y1 px py : R) :
  x0 <> x1 \/ y0 <> y1 ->
  pointToLineDistancee (fin x0 y0) (fin x1 y1) (fin px py)
  = XFin (Rabs ((x1 - x0) * (py - y0) - (y1 - y0) * (px - x0))
          / sqrt ((x1 - x0) * (x1 - x0) + (y1 - y0) * (y1 - y0))).
Proof.
  intros Hne.
  set (vx := x1 - x0). set (vy := y1 - y0).
  set (wx := px - x0). set (wy := py - y0).
  assert (Hc2 : 0 < vx * vx + vy * vy).
  { apply sum_squares_pos. unfold vx, vy. lra. }
  unfold pointToLineDistancee. cbn. fold vx vy wx wy.
  rewrite (Reqb_false (vx * vx + vy * vy) 0) by lra. cbn.
  set (c2 := vx * vx + vy * vy) in *.
  set (b := (vx * wx + vy * wy) / c2).
  assert (Hsq : (px - (x0 + b * vx)) * (px - (x0 + b * vx))
                + (py - (y0 + b * vy)) * (py - (y0 + b * vy))
                = Rsqr (vx * wy - vy * wx) / c2).
  { unfold Rsqr, b, c2, wx, wy. field. fold c2. lra. }
  rewrite Hsq.
  assert (Hnn : 0 <= Rsqr (vx * wy - vy * wx) / c2).
  { apply Rmult_le_pos; [apply Rle_0_sqr |].
    left. apply Rinv_0_lt_compat. exact Hc2. }
  rewrite (Rltb_false _ 0) by exact Hnn.
  f_equal. rewrite sqrt_div_alt by exact Hc2.
  rewrite sqrt_Rsqr_abs. reflexivity.
Qed.

End ExactLine.

Section ExactProjection.
Local Open Scope R_scope.

Lemma new_fin_eq (a b a' b' : R) :
  a = a' -> b = b' ->
  TSMT_Point.new (Some (XFin a)) (Some (XFin b))
  = TSMT_Point.new (Some (XFin a')) (Some (XFin b')).
Proof. intros -> ->. reflexivity. Qed.

(** The point [pointSegmentProjection] constructs, by the parameter [t] of
    its position on the segment. *)
Lemma projection_exact (x0 y0 x1 y1 px py : R) :
  let vx := x1 - x0 in
  let vy := y1 - y0 in
  let d := vx * vx + vy * vy in
  let c := (px - x0) * vx + (py - y0) * vy in
  exists t,
    pointSegmentProjection (fin x0 y0) (fin x1 y1) (fin px py)
    = TSMT_Point.new (Some (XFin (x0 + t * vx))) (Some (XFin (y0 + t * vy))) /\
    ((d < 1 / 10000000 /\ t = 0) \/
     (1 / 10000000 <= d /\ c / d < 0 /\ t = 0) \/
     (1 / 10000000 <= d /\ 1 < c / d /\ t = 1) \/
     (1 / 10000000 <= d /\ 0 <= c / d <= 1 /\ t = c / d)).
Proof.
  intros vx vy d c.
  unfold pointSegmentProjection. cbv zeta. rewrite dec_exact.
  change (10 ^ Z.of_nat 7)%Z with 10000000%Z.
  cbn [x y nsub nmul nadd nlt ndiv ofZ xnum_number xsub xmul xadd xlt].
  fold vx vy. fold d. fold c.
  destruct (Rlt_dec d (1 / 10000000)) as [Hd | Hd].
  { rewrite (Rltb_true _ _ Hd). exists 0. split; [| left; split; trivial].
    apply new_fin_eq; ring. }
  rewrite (Rltb_false d) by lra.
  assert (Hd0 : d <> 0) by lra.
  rewrite (xdiv_fin c d Hd0). cbn [xlt xsub xmul xadd].
  destruct (Rlt_dec (c / d) 0) as [Hneg | Hneg].
  { rewrite (Rltb_true _ _ Hneg). exists 0.
    split; [apply new_fin_eq; ring | right; left; repeat split; lra]. }
  rewrite (Rltb_false (c / d) 0) by lra.
  destruct (Rlt_dec 1 (c / d)) as [Hbig | Hbig].
  { rewrite (Rltb_true _ _ Hbig). exists 1.
    split; [apply new_fin_eq; unfold vx, vy; ring |].
    right; right; left; repeat split; lra. }
  rewrite (Rltb_false 1 (c / d)) by lra.
  exists (c / d).
  split; [apply new_fin_eq; unfold vx, vy; ring |].
  right; right; right; repeat split; lra.
Qed.

(** X20. In exact arithmetic, [pointSegmentProjection] returns a point of
    the segment from [p0] to [p1], not of the line beyond its ends, and it
    is idempotent: projecting the point it returned returns a point with
    the same coordinates. *)
Theorem pointSegmentProjection_on_segment_idempotent
    (x0 y0 x1 y1 px py : R) :
  let q := pointSegmentProjection (fin x0 y0) (fin x1 y1) (fin px py) in
  (exists t, 0 <= t <= 1 /\
     TSMT_Point.get_x q = XFin (x0 + t * (x1 - x0)) /\
     TSMT_Point.get_y q = XFin (y0 + t * (y1 - y0))) /\
  pointSegmentProjection (fin x0 y0) (fin x1 y1)
    {| x := TSMT_Point.get_x q; y := TSMT_Point.get_y q |} = q.
Proof.
  cbv zeta.
  destruct (projection_exact x0 y0 x1 y1 px py) as (t & -> & Ht).
  cbv zeta in Ht.
  set (vx := x1 - x0) in *. set (vy := y1 - y0) in *.
  set (d := vx * vx + vy * vy) in *.
  assert (Ht01 : 0 <= t <= 1) by (destruct Ht as [? | [? | [? | ?]]]; lra).
  split; [exists t; repeat split; lra |].
  change (TSMT_Point.get_x (TSMT_Point.new (Some (XFin (x0 + t * vx)))
                              (Some (XFin (y0 + t * vy)))))
    with (XFin (x0 + t * vx)).
  change (TSMT_Point.get_y (TSMT_Point.new (Some (XFin (x0 + t * vx)))
                              (Some (XFin (y0 + t * vy)))))
    with (XFin (y0 + t * vy)).
  destruct (projection_exact x0 y0 x1 y1 (x0 + t * vx) (y0 + t * vy))
    as (t' & -> & Ht').
  cbv zeta in Ht'. fold vx vy in Ht'. fold d in Ht'.
  replace ((x0 + t * vx - x0) * vx + (y0 + t * vy - y0) * vy) with (t * d)
    in Ht' by (unfold d; ring).
  assert (Heq : t' = t).
  { destruct Ht as [[Hd ->] | Ht].
    - destruct Ht' as [[_ ->] | [[? _] | [[? _] | [? _]]]]; lra.
    - assert (Hd : 1 / 10000000 <= d)
        by (destruct Ht as [? | [? | ?]]; lra).
      assert (Hq : t * d / d = t) by (field; lra).
      rewrite Hq in Ht'.
      destruct Ht' as [[? _] | [[_ [? ->]] | [[_ [? ->]] | [_ [_ ->]]]]];
        lra. }
  rewrite Heq. reflexivity.
Qed.

(** X21. In exact arithmetic, for a segment of squared length [1e-7] or
    more, [pointToSegmentDistance] is the distance, as [l2Norm] computes it,
    from [p] to the point [pointSegmentProjection] returns. *)
Theorem pointToSegmentDistance_to_projection (x0 y0 x1 y1 px py : R) :
  1 / 10000000 <= (x1 - x0) * (x1 - x0) + (y1 - y0) * (y1 - y0) ->
  let q := pointSegmentProjection (fin x0 y0) (fin x1 y1) (fin px py) in
  pointToSegmentDistance (fin x0 y0) (fin x1 y1) (fin px py)
  = l2Norm (Given (fin px py))
           (Given {| x := TSMT_Point.get_x q; y := TSMT_Point.get_y q |}).
Proof.
  intros Hlen. cbv zeta.
  destruct (projection_exact x0 y0 x1 y1 px py) as (t & -> & Ht).
  cbv zeta in Ht.
  set (vx := x1 - x0) in *. set (vy := y1 - y0) in *.
  set (d := vx * vx + vy * vy) in *.
  set (c := (px - x0) * vx + (py - y0) * vy) in *.
  assert (Hd : 0 < d) by lra.
  change (TSMT_Point.get_x (TSMT_Point.new (Some (XFin (x0 + t * vx)))
                              (Some (XFin (y0 + t * vy)))))
    with (XFin (x0 + t * vx)).
  change (TSMT_Point.get_y (TSMT_Point.new (Some (XFin (x0 + t * vx)))
                              (Some (XFin (y0 + t * vy)))))
    with (XFin (y0 + t * vy)).
  unfold pointToSegmentDistance, l2Norm. cbv zeta.
  cbn [x y nsub nmul nadd nle ndiv ofZ Math_sqrt xnum_number
       xsub xmul xadd xle].
  fold vx vy. fold d. fold c.
  assert (Hcd : forall r, c / d < r <-> c < r * d).
  { intros r. split; intros Hr.
    - apply (Rmult_lt_compat_r d) in Hr; [| exact Hd].
      replace (c / d * d) with c in Hr by (field; lra). exact Hr.
    - apply (Rmult_lt_reg_r d); [exact Hd |].
      replace (c / d * d) with c by (field; lra). exact Hr. }
  assert (Hdc : forall r, r < c / d <-> r * d < c).
  { intros r. split; intros Hr.
    - apply (Rmult_lt_compat_r d) in Hr; [| exact Hd].
      replace (c / d * d) with c in Hr by (field; lra). exact Hr.
    - apply (Rmult_lt_reg_r d); [exact Hd |].
      replace (c / d * d) with c by (field; lra). exact Hr. }
  destruct (Rle_dec c 0) as [Hc | Hc].
  - rewrite (Rleb_true c 0 Hc).
    assert (t = 0) as ->.
    { destruct Ht as [[? ?] | [[_ [_ ?]] | [[_ [Hb _]] | [_ [[Hlo _] ->]]]]];
        try assumption; try lra.
      - apply Hdc in Hb. lra.
      - destruct (Rtotal_order c 0) as [Hlt | [-> | Hgt]]; [| field; lra | lra].
        assert (c / d < 0) by (apply Hcd; lra). lra. }
    do 2 f_equal. ring.
  - rewrite (Rleb_false c 0) by lra.
    destruct (Rle_dec d c) as [Hfar | Hnear].
    + rewrite (Rleb_true d c Hfar).
      assert (t = 1) as ->.
      { destruct Ht as [[? ?] | [[_ [Hb _]] | [[_ [_ ?]] | [_ [[_ Hhi] ->]]]]];
          try assumption; try lra.
        - apply Hcd in Hb. lra.
        - destruct (Rtotal_order c d) as [Hlt | [-> | Hgt]];
            [lra | field; lra |].
          assert (1 < c / d) by (apply Hdc; lra). lra. }
      do 2 f_equal. unfold vx, vy. ring.
    + rewrite (Rleb_false d c) by lra.
      assert (t = c / d) as ->.
      { destruct Ht as [[? ?] | [[_ [Hb _]] | [[_ [Hb _]] | [_ [_ ?]]]]];
          try assumption; try lra.
        - apply Hcd in Hb. lra.
        - apply Hdc in Hb. lra. }
      rewrite (xdiv_fin c d) by lra. reflexivity.
Qed.

End ExactProjection.

(** ** [TSMT$PointUtils]: reflection *)

Section ExactReflect.
Local Open Scope R_scope.
Implicit Types (h : gmap loc (object xnum)).

Lemma householder_fin (x0 y0 x1 y1 px py : R) :
  let dx := x1 - x0 in
  let dy := y1 - y0 in
  let d := dx * dx + dy * dy in
  d <> 0 ->
  householder (fin x0 y0) (fin x1 y1) (fin px py)
  = fin ((dx * dx - dy * dy) / d * (px - x0)
         + 2 * dx * dy / d * (py - y0) + x0)
        (2 * dx * dy / d * (px - x0)
         - (dx * dx - dy * dy) / d * (py - y0) + y0).
Proof.
  intros dx dy d Hd. unfold householder. cbn. fold dx dy. fold d.
  rewrite !(Reqb_false d 0) by exact Hd. reflexivity.
Qed.

Lemma reflect_run_exact h points p0 p1 x0 y0 x1 y1 cloud :
  point_at h p0 = Some (fin x0 y0) ->
  point_at h p1 = Some (fin x1 y1) ->
  cloud_at h points = Some cloud ->
  1 / 100000000 <= (x1 - x0) * (x1 - x0) + (y1 - y0) * (y1 - y0) ->
  exists out h',
    reflect points p0 p1 h = (Ok out, h') /\
    cloud_at h' out
    = Some (map (householder (fin x0 y0) (fin x1 y1)) cloud).
Proof.
  intros H0 H1 Hcloud Hd.
  destruct (reflect_run h points p0 p1 _ _ cloud H0 H1 Hcloud)
    as (out & h' & new & Hrun & _ & _ & _ & _ & Hres).
  { unfold squared_length. rewrite abs_sum_squares, dec_exact.
    change (10 ^ Z.of_nat 8)%Z with 100000000%Z. cbn.
    apply Rltb_false. exact Hd. }
  exists out, h'. split; assumption.
Qed.

(** X22. In exact arithmetic, for a line of squared length [1e-8] or more,
    [reflect] maps each finite point of the cloud to its mirror image in
    the line through [p0] and [p1]: the segment that joins a point to its
    image is perpendicular to the line and has its middle on the line. *)
Theorem reflect_mirrors_in_the_line h points p0 p1 x0 y0 x1 y1 cloud :
  point_at h p0 = Some (fin x0 y0) ->
  point_at h p1 = Some (fin x1 y1) ->
  cloud_at h points = Some cloud ->
  Forall finite_point cloud ->
  1 / 100000000 <= (x1 - x0) * (x1 - x0) + (y1 - y0) * (y1 - y0) ->
  exists out h' cloud',
    reflect points p0 p1 h = (Ok out, h') /\
    cloud_at h' out = Some cloud' /\
    Forall2 (fun p q => exists px py qx qy,
               p = fin px py /\ q = fin qx qy /\
               (qx - px) * (x1 - x0) + (qy - py) * (y1 - y0) = 0 /\
               ((px + qx) / 2 - x0) * (y1 - y0)
                 - ((py + qy) / 2 - y0) * (x1 - x0) = 0)
            cloud cloud'.
Proof.
  intros H0 H1 Hcloud Hfin Hd.
  destruct (reflect_run_exact h points p0 p1 _ _ _ _ cloud H0 H1 Hcloud Hd)
    as (out & h' & Hrun & Hres).
  exists out, h', (map (householder (fin x0 y0) (fin x1 y1)) cloud).
  split; [exact Hrun |]. split; [exact Hres |].
  apply Forall2_fmap_r, Forall_Forall2_diag.
  eapply Forall_impl; [exact Hfin |]. intros p Hp.
  apply finite_point_fin in Hp as (px & py & ->).
  unfold compose. cbv beta.
  assert (Hd0 : (x1 - x0) * (x1 - x0) + (y1 - y0) * (y1 - y0) <> 0) by lra.
  rewrite (householder_fin x0 y0 x1 y1 px py Hd0).
  do 4 eexists. split; [reflexivity |]. split; [reflexivity |].
  split; field; exact Hd0.
Qed.

(** X23. In exact arithmetic, [reflect] keeps distances: for a line of
    squared length [1e-8] or more, any two finite points of the cloud are
    as far from each other, by [l2Norm], after the reflection as before. *)
Theorem reflect_keeps_distances h points p0 p1 x0 y0 x1 y1 cloud :
  point_at h p0 = Some (fin x0 y0) ->
  point_at h p1 = Some (fin x1 y1) ->
  cloud_at h points = Some cloud ->
  Forall finite_point cloud ->
  1 / 100000000 <= (x1 - x0) * (x1 - x0) + (y1 - y0) * (y1 - y0) ->
  exists out h' cloud',
    reflect points p0 p1 h = (Ok out, h') /\
    cloud_at h' out = Some cloud' /\
    forall i j p q p' q',
      cloud !! i = Some p -> cloud !! j = Some q ->
      cloud' !! i = Some p' -> cloud' !! j = Some q' ->
      l2Norm (Given p') (Given q') = l2Norm (Given p) (Given q).
Proof.
  intros H0 H1 Hcloud Hfin Hd.
  destruct (reflect_run_exact h points p0 p1 _ _ _ _ cloud H0 H1 Hcloud Hd)
    as (out & h' & Hrun & Hres).
  exists out, h', (map (householder (fin x0 y0) (fin x1 y1)) cloud).
  split; [exact Hrun |]. split; [exact Hres |].
  intros i j p q p' q' Hp Hq Hp' Hq'.
  rewrite list_lookup_fmap, Hp in Hp'. injection Hp' as <-.
  rewrite list_lookup_fmap, Hq in Hq'. injection Hq' as <-.
  rewrite Forall_forall in Hfin.
  destruct (finite_point_fin p) as (px & py & ->).
  { apply Hfin. eapply list_elem_of_lookup_2. exact Hp. }
  destruct (finite_point_fin q) as (qx & qy & ->).
  { apply Hfin. eapply list_elem_of_lookup_2. exact Hq. }
  assert (Hd0 : (x1 - x0) * (x1 - x0) + (y1 - y0) * (y1 - y0) <> 0) by lra.
  rewrite !(householder_fin x0 y0 x1 y1 _ _ Hd0).
  unfold l2Norm. cbn [x y nsub nmul nadd Math_sqrt xnum_number xsub xmul xadd].
  f_equal. f_equal. field. exact Hd0.
Qed.

End ExactReflect.

(** ** The lazy loader *)

Section FileNames.
Import Stdlib.Strings.Ascii.
Local Open Scope string_scope.

Lemma index_dot_cons (c : Ascii.ascii) (s : string) :
  String.index 0 "." (String c s) =
  if Ascii.ascii_dec "."%char c then Some 0%nat
  else option_map S (String.index 0 "." s).
Proof.
  change (String.index 0 "." (String c s))
    with (if String.prefix "." (String c s) then Some 0%nat
          else match String.index 0 "." s with
               | Some n => Some (S n)
               | None => None
               end).
  change (String.prefix "." (String c s))
    with (if Ascii.ascii_dec "."%char c then String.prefix "" s else false).
  destruct (Ascii.ascii_dec "."%char c) as [Hc | Hc].
  - destruct s; reflexivity.
  - destruct (String.index 0 "." s); reflexivity.
Qed.

(** The first dot of a name that has a stem without one. *)
Lemma index_first_dot (stem rest : string) :
  String.index 0 "." stem = None ->
  String.index 0 "." (stem +:+ "." +:+ rest) = Some (String.length stem).
Proof.
  induction stem as [| c stem IH]; intros Hstem.
  - cbn. destruct rest; reflexivity.
  - rewrite index_dot_cons in Hstem.
    change (String c stem +:+ "." +:+ rest)
      with (String c (stem +:+ "." +:+ rest)).
    rewrite index_dot_cons.
    destruct (Ascii.ascii_dec "."%char c); [discriminate |].
    destruct (String.index 0 "." stem); [discriminate |].
    rewrite IH by reflexivity. reflexivity.
Qed.

Lemma substring_all (s : string) (n : nat) :
  (String.length s <= n)%nat -> substring 0 n s = s.
Proof.
  revert n. induction s as [| c s IH]; intros [| n] Hn; cbn in *;
    try reflexivity; try lia.
  rewrite IH by lia. reflexivity.
Qed.

Lemma substring_after_dot (stem rest : string) (n : nat) :
  substring (String.length stem + 1) n (stem +:+ "." +:+ rest)
  = substring 0 n rest.
Proof.
  induction stem as [| c stem IH]; [reflexivity | exact IH].
Qed.

Lemma length_app_dot (stem rest : string) :
  String.length (stem +:+ "." +:+ rest)
  = S (String.length stem + String.length rest).
Proof.
  induction stem as [| c stem IH]; [reflexivity |].
  change (S (String.length (stem +:+ "." +:+ rest))
          = S (S (String.length stem + String.length rest))).
  f_equal. exact IH.
Qed.

Lemma getExtension_split (stem rest : string) :
  String.index 0 "." stem = None ->
  getExtension (Given (stem +:+ "." +:+ rest)) =
  if String.eqb (toLowerCase rest) "js" then SCRIPT
  else if String.eqb (toLowerCase rest) "css" then CSS
  else NONE.
Proof.
  intros Hstem. unfold getExtension.
  rewrite (index_first_dot stem rest Hstem).
  assert (Hne : String.eqb (stem +:+ "." +:+ rest) "" = false)
    by (destruct stem; reflexivity).
  rewrite Hne, substring_after_dot, substring_all; [reflexivity |].
  rewrite length_app_dot. lia.
Qed.

(** X24. [getExtension] takes for the extension all that follows the first
    dot of the name, whatever the case of its letters: a name without a dot
    has none, and a name [stem.rest] whose stem has no dot is a script when
    [rest] is [js] in lower case, a style sheet when it is [css], and has
    no extension otherwise. *)
Theorem getExtension_by_first_dot :
  (forall file, String.index 0 "." file = None ->
     getExtension (Given file) = NONE) /\
  (forall stem rest, String.index 0 "." stem = None ->
     getExtension (Given (stem +:+ "." +:+ rest)) =
     if String.eqb (toLowerCase rest) "js" then SCRIPT
     else if String.eqb (toLowerCase rest) "css" then CSS
     else NONE).
Proof.
  split.
  - intros file Hfile. unfold getExtension. rewrite Hfile.
    destruct (String.eqb file ""); reflexivity.
  - exact getExtension_split.
Qed.

Lemma has_dot_app (b c : string) :
  String.index 0 "." (b +:+ "." +:+ c) <> None.
Proof.
  induction b as [| ch b IH].
  - cbn. destruct c; discriminate.
  - change (String ch b +:+ "." +:+ c) with (String ch (b +:+ "." +:+ c)).
    rewrite index_dot_cons.
    destruct (Ascii.ascii_dec "."%char ch); [discriminate |].
    destruct (String.index 0 "." (b +:+ "." +:+ c));
      [discriminate | contradiction].
Qed.

Lemma split_at_first_dot (a r : string) :
  String.index 0 "." r <> None ->
  exists stem rest,
    a +:+ "." +:+ r = stem +:+ "." +:+ rest /\
    String.index 0 "." stem = None /\
    String.index 0 "." rest <> None.
Proof.
  intros Hr. induction a as [| ch a (stem & rest & Heq & Hstem & Hrest)].
  - exists "", r. repeat split; assumption.
  - destruct (Ascii.ascii_dec "."%char ch) as [<- | Hch].
    + exists "", (a +:+ "." +:+ r). repeat split. apply has_dot_app.
    + exists (String ch stem), rest. repeat split; [| | exact Hrest].
      * change (String ch a +:+ "." +:+ r) with (String ch (a +:+ "." +:+ r)).
        rewrite Heq. reflexivity.
      * rewrite index_dot_cons, Hstem.
        destruct (Ascii.ascii_dec "."%char ch); [contradiction | reflexivity].
Qed.

Lemma lower_case_dot (c : Ascii.ascii) :
  c = "."%char -> lower_case c = "."%char.
Proof. intros ->. reflexivity. Qed.

Lemma toLowerCase_keeps_dot (s : string) :
  String.index 0 "." s <> None -> String.index 0 "." (toLowerCase s) <> None.
Proof.
  induction s as [| c s IH]; [intros H; exact H |].
  cbn [toLowerCase]. rewrite !index_dot_cons.
  destruct (Ascii.ascii_dec "."%char c) as [<- | Hc].
  - intros _. discriminate.
  - intros Hs. destruct (String.index 0 "." s) eqn:Hi; [| contradiction].
    specialize (IH ltac:(discriminate)).
    destruct (Ascii.ascii_dec "."%char (lower_case c)); [discriminate |].
    destruct (String.index 0 "." (toLowerCase s));
      [discriminate | contradiction].
Qed.

(** X25. A name with two dots or more has no extension for
    [getExtension]: what follows the first dot contains the second and is
    neither [js] nor [css].  So it is with [jquery.min.js], with a
    relative [./lib.js] and with a URL that names a host. *)
Theorem getExtension_of_two_dots (a b c : string) :
  getExtension (Given (a +:+ "." +:+ b +:+ "." +:+ c)) = NONE.
Proof.
  destruct (split_at_first_dot a (b +:+ "." +:+ c) (has_dot_app b c))
    as (stem & rest & -> & Hstem & Hrest).
  rewrite (getExtension_split stem rest Hstem).
  apply toLowerCase_keeps_dot in Hrest.
  destruct (String.eqb_spec (toLowerCase rest) "js") as [Heq | _].
  { rewrite Heq in Hrest. contradiction Hrest. reflexivity. }
  destruct (String.eqb_spec (toLowerCase rest) "css") as [Heq | _].
  { rewrite Heq in Hrest. contradiction Hrest. reflexivity. }
  reflexivity.
Qed.

End FileNames.

Section LazyLoad.
Import ADT_LazyLoadLibs.
Context (inherited : string -> bool).
Implicit Types (this : service) (url : string).

(** The URLs the document has been made to fetch. *)
Local Abbreviation requested :=
  (fun this : service => map fetched (body this) ++ map fetched (head this)).

(** A URL [load] acts on: not the name of an inherited property, and with
    an extension [getExtension] knows. *)
Local Abbreviation loadable :=
  (fun url : string =>
     inherited url = false /\ getExtension (Given url) <> NONE).

Local Abbreviation consistent :=
  (fun this : service =>
   (forall url, is_Some (_loaded this !! url) <-> url ∈ requested this) /\
   NoDup (requested this) /\
   (forall url, url ∈ requested this -> loadable url) /\
   Forall (fun e => exists url,
             e = HTMLScriptElement "text/javascript" url true /\
             getExtension (Given url) = SCRIPT) (body this) /\
   Forall (fun e => exists url,
             e = HTMLLinkElement url "text/css" "stylesheet" /\
             getExtension (Given url) = CSS) (head this)).

Lemma new_consistent : consistent new.
Proof.
  repeat split; cbn; try constructor.
  - intros [? H]. rewrite lookup_empty in H. discriminate.
  - intros H. inversion H.
  - inversion H.
  - inversion H.
Qed.

Lemma requested_script this url subject :
  requested {| _loaded := <[url := subject]> (_loaded this);
               subjects := S subject;
               body := body this
                       ++ [HTMLScriptElement "text/javascript" url true];
               head := head this |}
  ≡ₚ url :: requested this.
Proof.
  cbn. rewrite map_app. cbn.
  rewrite <- (assoc_L (++)). cbn.
  symmetry. apply Permutation_middle.
Qed.

Lemma requested_link this url subject :
  requested {| _loaded := <[url := subject]> (_loaded this);
               subjects := S subject;
               body := body this;
               head := head this
                       ++ [HTMLLinkElement url "text/css" "stylesheet"] |}
  ≡ₚ url :: requested this.
Proof.
  cbn. rewrite map_app. cbn. rewrite (assoc_L (++)).
  symmetry. apply Permutation_cons_append.
Qed.

Lemma load_step this url :
  consistent this ->
  consistent (snd (load inherited url this)) /\
  (forall u, u ∈ requested (snd (load inherited url this)) <->
             u ∈ requested this \/ (u = url /\ loadable url)).
Proof.
  intros Hthis. pose proof Hthis as (Hdom & Hnd & Hok & Hbody & Hhead).
  unfold load.
  destruct (_loaded this !! url) as [subject |] eqn:Hl.
  { cbn [snd]. split; [exact Hthis |].
    intros u. split; [auto |]. intros [Hu | [-> _]]; [exact Hu |].
    apply Hdom. eauto. }
  assert (Hfresh : url ∉ requested this).
  { intros Hin. apply Hdom in Hin as [? Hin]. congruence. }
  destruct (inherited url) eqn:Hinh.
  { cbn [snd]. split; [exact Hthis |].
    intros u. split; [auto |].
    intros [Hu | [-> [? _]]]; [exact Hu | congruence]. }
  destruct (getExtension (Given url)) eqn:Hext.
  - cbn [snd]. split; [exact Hthis |].
    intros u. split; [auto |].
    intros [Hu | [-> [_ ?]]]; [exact Hu | congruence].
  - cbn [snd]. pose proof (requested_script this url (subjects this)) as Hperm.
    split; [split; [| split; [| split; [| split]]] |].
    + intros u. rewrite Hperm. cbn [_loaded].
      rewrite lookup_insert_is_Some, elem_of_cons, <- Hdom.
      destruct (decide (url = u)) as [-> | Hne]; split;
        [intros _; left; reflexivity | intros _; left; reflexivity
        | intros [? | [_ ?]]; [congruence | right; assumption]
        | intros [? | ?]; [congruence | right; split; assumption]].
    + rewrite Hperm. apply NoDup_cons. split; assumption.
    + intros u. rewrite Hperm, elem_of_cons. intros [-> | Hu].
      * split; [exact Hinh | congruence].
      * apply Hok, Hu.
    + cbn [body]. apply Forall_app. split; [exact Hbody |].
      constructor; [eauto | constructor].
    + exact Hhead.
    + intros u. rewrite Hperm, elem_of_cons. split.
      * intros [-> | Hu]; [right | left; exact Hu].
        split; [reflexivity |]. split; [reflexivity | congruence].
      * intros [Hu | [-> _]]; [right; exact Hu | left; reflexivity].
  - cbn [snd]. pose proof (requested_link this url (subjects this)) as Hperm.
    split; [split; [| split; [| split; [| split]]] |].
    + intros u. rewrite Hperm. cbn [_loaded].
      rewrite lookup_insert_is_Some, elem_of_cons, <- Hdom.
      destruct (decide (url = u)) as [-> | Hne]; split;
        [intros _; left; reflexivity | intros _; left; reflexivity
        | intros [? | [_ ?]]; [congruence | right; assumption]
        | intros [? | ?]; [congruence | right; split; assumption]].
    + rewrite Hperm. apply NoDup_cons. split; assumption.
    + intros u. rewrite Hperm, elem_of_cons. intros [-> | Hu].
      * split; [exact Hinh | congruence].
      * apply Hok, Hu.
    + exact Hbody.
    + cbn [head]. apply Forall_app. split; [exact Hhead |].
      constructor; [eauto | constructor].
    + intros u. rewrite Hperm, elem_of_cons. split.
      * intros [-> | Hu]; [right | left; exact Hu].
        split; [reflexivity |]. split; [reflexivity | congruence].
      * intros [Hu | [-> _]]; [right; exact Hu | left; reflexivity].
Qed.

Lemma loads_consistent urls :
  forall this,
    consistent this ->
    consistent (loads inherited urls this) /\
    (forall u, u ∈ requested (loads inherited urls this) <->
               u ∈ requested this \/ (u ∈ urls /\ loadable u)).
Proof.
  induction urls as [| url urls IH]; intros this Hthis.
  - split; [exact Hthis |]. intros u. split; [auto |].
    intros [Hu | [Hu _]]; [exact Hu | inversion Hu].
  - cbn [loads].
    destruct (load_step this url Hthis) as [Hstep Hreq].
    destruct (IH _ Hstep) as [Hall Hreqs].
    split; [exact Hall |].
    intros u. rewrite Hreqs, Hreq, elem_of_cons. split.
    + intros [[Hu | [-> Hl]] | [Hu Hl]]; auto.
    + intros [Hu | [[-> | Hu] Hl]]; auto.
Qed.

(** X26. [load] makes the document fetch each URL once.  After any
    sequence of calls on a new service, whatever they returned, no two
    elements appended to the document have the same URL; the URLs fetched
    are those passed to [load] that are not names of inherited properties
    and have an extension [getExtension] knows; a script is an
    asynchronous [text/javascript] element of [body], a style sheet a
    [text/css] [stylesheet] link of [head]. *)
Theorem load_fetches_each_url_once (urls : list string) :
  let this := loads inherited urls new in
  NoDup (map fetched (body this) ++ map fetched (head this)) /\
  (forall url,
     url ∈ map fetched (body this) ++ map fetched (head this) <->
     url ∈ urls /\ inherited url = false /\
     getExtension (Given url) <> NONE) /\
  Forall (fun e => exists url,
            e = HTMLScriptElement "text/javascript" url true /\
            getExtension (Given url) = SCRIPT) (body this) /\
  Forall (fun e => exists url,
            e = HTMLLinkElement url "text/css" "stylesheet" /\
            getExtension (Given url) = CSS) (head this).
Proof.
  cbv zeta.
  destruct (loads_consistent urls new new_consistent)
    as [(_ & Hnd & _ & Hbody & Hhead) Hreq].
  split; [exact Hnd |]. split; [| split; assumption].
  intros url. rewrite Hreq. cbn. split.
  - intros [Hu | Hu]; [inversion Hu | exact Hu].
  - intros Hu. right. exact Hu.
Qed.

(** X27. In every state of the service, a second call of [load] for the
    same URL returns what the first returned, the observable of the same
    subject, and changes nothing: it constructs no subject and appends no
    element. *)
Theorem load_again_changes_nothing this url :
  let '(first, after) := load inherited url this in
  load inherited url after = (first, after).
Proof.
  unfold load.
  destruct (_loaded this !! url) as [subject |] eqn:Hl.
  { rewrite ?Hl. reflexivity. }
  destruct (inherited url) eqn:Hinh.
  { rewrite ?Hl, ?Hinh. reflexivity. }
  destruct (getExtension (Given url)) eqn:Hext.
  - rewrite ?Hl, ?Hinh, ?Hext. reflexivity.
  - cbn [_loaded]. rewrite lookup_insert_eq. reflexivity.
  - cbn [_loaded]. rewrite lookup_insert_eq. reflexivity.
Qed.

(** X28. A URL that is not the name of a property [_loaded] inherits and
    has no extension [getExtension] knows is not loaded, in whatever state
    a sequence of calls has left the service: [load] appends nothing,
    records nothing and returns [of(null)], the observable that completes
    at once. *)
Theorem load_skips_unknown_extension (urls : list string) url :
  inherited url = false ->
  getExtension (Given url) = NONE ->
  load inherited url (loads inherited urls new)
  = (Ok of_null, loads inherited urls new).
Proof.
  intros Hinh Hext.
  destruct (loads_consistent urls new new_consistent)
    as [(Hdom & _ & Hok & _) _].
  unfold load.
  destruct (_loaded (loads inherited urls new) !! url) as [subject |] eqn:Hl.
  { exfalso. destruct (Hok url) as [_ Hne]; [| congruence].
    apply Hdom. eauto. }
  rewrite Hinh, Hext. reflexivity.
Qed.

(** X29. On a URL that is the name of a property [_loaded] inherits,
    [load] throws a [TypeError] in whatever state a sequence of calls has
    left the service, and changes nothing: the value found under the name
    is no subject and has no [asObservable]. *)
Theorem load_throws_on_inherited_name (urls : list string) url :
  inherited url = true ->
  load inherited url (loads inherited urls new)
  = (Throw TypeError, loads inherited urls new).
Proof.
  intros Hinh.
  destruct (loads_consistent urls new new_consistent)
    as [(Hdom & _ & Hok & _) _].
  unfold load.
  destruct (_loaded (loads inherited urls new) !! url) as [subject |] eqn:Hl.
  { exfalso. destruct (Hok url) as [Hno _]; [| congruence].
    apply Hdom. eauto. }
  rewrite Hinh. reflexivity.
Qed.

End LazyLoad.

(** ** The application: the Reflect button *)

Section HeapGrowth.
Context {T : Type} `{JSNumber T}.
Local Open Scope js_scope.
Implicit Types (h : gmap loc (object T)) (l : loc).

Lemma point_at_mono h h' l P :
  h ⊆ h' -> point_at h l = Some P -> point_at h' l = Some P.
Proof.
  intros Hsub. unfold point_at.
  destruct (h !! l) as [o |] eqn:Hl; [| discriminate].
  rewrite (lookup_weaken _ _ _ _ Hl Hsub). trivial.
Qed.

Lemma cloud_at_mono h h' l cloud :
  h ⊆ h' -> cloud_at h l = Some cloud -> cloud_at h' l = Some cloud.
Proof.
  intros Hsub Hcloud.
  apply cloud_at_elems in Hcloud as (elems & Hl & Hall).
  apply cloud_at_elems. exists elems.
  split; [exact (lookup_weaken _ _ _ _ Hl Hsub) |].
  eapply Forall2_impl; [exact Hall |].
  intros e p. apply point_at_mono, Hsub.
Qed.

Lemma alloc_point_run h (P : Point T) :
  let l := fresh (dom h) in
  alloc (OPoint P) h = (Ok l, <[l := OPoint P]> h) /\
  h ⊆ <[l := OPoint P]> h /\
  point_at (<[l := OPoint P]> h) l = Some P.
Proof.
  intros l. split; [reflexivity |]. split.
  - apply insert_subseteq, fresh_unused.
  - unfold point_at. rewrite lookup_insert_eq. reflexivity.
Qed.

Lemma drawPoints_run h l cloud :
  cloud_at h l = Some cloud ->
  AppComponent.drawPoints l h
  = (Ok (map (fun p => (p.(x), p.(y), #3)) cloud), h).
Proof.
  intros Hcloud.
  apply cloud_at_elems in Hcloud as (elems & Hl & Hall).
  unfold AppComponent.drawPoints.
  rewrite bind_run, (read_run _ _ _ Hl).
  rewrite (Forall2_length _ _ _ Hall).
  assert (Hloop : forall rest i drawn done,
    cloud = done ++ rest -> i = List.length done ->
    for_ i (List.length rest) (fun i drawn =>
      point ← index l i ≫= load_arg;
      mret (drawn ++ [(point.(x), point.(y), #3)])) drawn h
    = (Ok (drawn ++ map (fun p => (p.(x), p.(y), #3)) rest), h)).
  { induction rest as [| p rest IH]; intros i drawn done Hsplit Hi.
    - cbn. rewrite app_nil_r. reflexivity.
    - cbn [List.length for_].
      assert (Hp : cloud !! i = Some p).
      { rewrite Hsplit, Hi. apply list_lookup_middle. reflexivity. }
      destruct (Forall2_lookup_r _ _ _ _ _ Hall Hp) as (e & He & Hpe).
      rewrite !bind_run, (index_array_run _ _ _ _ Hl), He.
      cbn [load_arg]. rewrite (load_run _ _ _ Hpe), ret_run.
      rewrite (IH (S i) _ (done ++ [p])).
      + rewrite <- (assoc_L (++)). reflexivity.
      + rewrite <- (assoc_L (++)). exact Hsplit.
      + rewrite length_app. cbn. lia. }
  apply (Hloop cloud 0%nat [] []); reflexivity.
Qed.

End HeapGrowth.

Section ExactApplication.
Local Open Scope R_scope.
Implicit Types (h : gmap loc (object xnum)).

(** One click, in exact arithmetic: the component then holds a cloud of
    the mirror images, which are the circles drawn, and nothing that
    existed has changed. *)
Lemma onReflect_run h points x0 y0 x1 y1 cloud :
  cloud_at h points = Some cloud ->
  1 / 100000000 <= (x1 - x0) * (x1 - x0) + (y1 - y0) * (y1 - y0) ->
  let this := {| AppComponent._pointCloud := points;
                 AppComponent._x0 := XFin x0; AppComponent._y0 := XFin y0;
                 AppComponent._x1 := XFin x1; AppComponent._y1 := XFin y1 |} in
  let image := map (householder (fin x0 y0) (fin x1 y1)) cloud in
  exists out h',
    AppComponent.onReflect this h
    = (Ok ({| AppComponent._pointCloud := out;
              AppComponent._x0 := XFin x0; AppComponent._y0 := XFin y0;
              AppComponent._x1 := XFin x1; AppComponent._y1 := XFin y1 |},
           map (fun p : Point xnum => (p.(x), p.(y), XFin 3)) image), h') /\
    cloud_at h' out = Some image /\
    h ⊆ h'.
Proof.
  intros Hcloud Hd this image.
  unfold AppComponent.onReflect. subst this. cbn [AppComponent._x0
    AppComponent._y0 AppComponent._x1 AppComponent._y1
    AppComponent._pointCloud].
  destruct (alloc_point_run h (fin x0 y0)) as (Ha0 & Hs0 & Hp0).
  cbv zeta in Ha0, Hs0, Hp0.
  set (l0 := fresh (dom h)) in *.
  set (h0 := <[l0 := OPoint (fin x0 y0)]> h) in *.
  destruct (alloc_point_run h0 (fin x1 y1)) as (Ha1 & Hs1 & Hp1).
  cbv zeta in Ha1, Hs1, Hp1.
  set (l1 := fresh (dom h0)) in *.
  set (h1 := <[l1 := OPoint (fin x1 y1)]> h0) in *.
  rewrite bind_run, Ha0, bind_run, Ha1.
  destruct (reflect_run h1 points l0 l1 (fin x0 y0) (fin x1 y1) cloud)
    as (out & h' & new & Hrun & _ & Hsub & _ & _ & Hres).
  - apply (point_at_mono _ _ _ _ Hs1), Hp0.
  - exact Hp1.
  - apply (cloud_at_mono h h1); [| exact Hcloud].
    etrans; [exact Hs0 | exact Hs1].
  - unfold squared_length. rewrite abs_sum_squares, dec_exact.
    change (10 ^ Z.of_nat 8)%Z with 100000000%Z. cbn.
    apply Rltb_false. exact Hd.
  - exists out, h'. rewrite bind_run, Hrun. cbv zeta.
    cbn [AppComponent._pointCloud].
    rewrite bind_run, (drawPoints_run _ _ _ Hres).
    split; [reflexivity |]. split; [exact Hres |].
    etrans; [exact Hs0 |]. etrans; [exact Hs1 | exact Hsub].
Qed.

(** X30. The Reflect button is a toggle, in exact arithmetic.  For a line
    of squared length [1e-8] or more and a cloud of finite points, a first
    [onReflect()] draws the mirror images of the points and a second one
    draws circles at the coordinates the points had at first, in the same
    order, and leaves the component with a cloud of these coordinates; no
    click changes an object that existed. *)
Theorem onReflect_twice_redraws_the_cloud h points x0 y0 x1 y1 cloud :
  cloud_at h points = Some cloud ->
  Forall finite_point cloud ->
  1 / 100000000 <= (x1 - x0) * (x1 - x0) + (y1 - y0) * (y1 - y0) ->
  let this := {| AppComponent._pointCloud := points;
                 AppComponent._x0 := XFin x0; AppComponent._y0 := XFin y0;
                 AppComponent._x1 := XFin x1; AppComponent._y1 := XFin y1 |} in
  exists this1 h1 this2 h2,
    AppComponent.onReflect this h
    = (Ok (this1,
           map (fun p => let q := householder (fin x0 y0) (fin x1 y1) p in
                         (q.(x), q.(y), XFin 3)) cloud), h1) /\
    AppComponent.onReflect this1 h1
    = (Ok (this2, map (fun p => (p.(x), p.(y), XFin 3)) cloud), h2) /\
    cloud_at h2 (AppComponent._pointCloud this2) = Some cloud /\
    h ⊆ h1 /\ h1 ⊆ h2.
Proof.
  intros Hcloud Hfin Hd this.
  destruct (onReflect_run h points x0 y0 x1 y1 cloud Hcloud Hd)
    as (out1 & h1 & Hrun1 & Hres1 & Hsub1).
  destruct (onReflect_run h1 out1 x0 y0 x1 y1 _ Hres1 Hd)
    as (out2 & h2 & Hrun2 & Hres2 & Hsub2).
  assert (Hinv : map (householder (fin x0 y0) (fin x1 y1))
                   (map (householder (fin x0 y0) (fin x1 y1)) cloud) = cloud).
  { clear -Hfin Hd. induction Hfin as [| p cloud Hp _ IH]; cbn.
    - reflexivity.
    - rewrite IH. f_equal.
      apply householder_involutive_exact; try exact Hp; try reflexivity.
      rewrite dec_exact. unfold squared_length. cbn.
      change (10 ^ Z.of_nat 8)%Z with 100000000%Z.
      apply Rleb_true. exact Hd. }
  rewrite Hinv in Hrun2, Hres2.
  do 4 eexists. split; [| split; [exact Hrun2 | split; [exact Hres2 |]]].
  - subst this. rewrite Hrun1. rewrite <- list_fmap_compose. reflexivity.
  - split; assumption.
Qed.

End ExactApplication.

(** ** Instances *)

Section FurtherWitnesses.
Local Open Scope js_scope.
Local Set Warnings "-inexact-float".

(** The point [(3, 4)] after [x = 6], [length()] and [y = '8']. *)
Lemma length_after_assignments :
  let this := {| TSMT_Point._x := 6%float; TSMT_Point._y := 8%float;
                 TSMT_Point._invalidated := true;
                 TSMT_Point._norm := PrimFloat.sqrt 52 |} in
  let '(n, this') := TSMT_Point.length this in
  n = Math_sqrt (TSMT_Point.get_x this * TSMT_Point.get_x this
                 + TSMT_Point.get_y this * TSMT_Point.get_y this) /\
  TSMT_Point.get_x this' = TSMT_Point.get_x this /\
  TSMT_Point.get_y this' = TSMT_Point.get_y this /\
  TSMT_Point.length this' = (n, this').
Proof.
  exact (length_never_stale (fun _ => 8%float) (Some 3%float) (Some 4%float)
           [TSMT_Point.call_set_x (TSMT_Point.VNumber 6%float);
            TSMT_Point.call_length;
            TSMT_Point.call_set_y (TSMT_Point.VString "8")]
           _ eq_refl).
Defined.

Lemma compare_tiny_with_zero :
  TSMT_ApproxEqual.compare (Given #0) (Given 1e-300%float) (Some 0.5%float)
    = (#1 <=? 0.5%float) /\
  TSMT_ApproxEqual.compare (Given 1e-300%float) (Given #0) (Some 0.5%float)
    = (#1 <=? 0.5%float) /\
  TSMT_ApproxEqual.compare (Given #0) (Given 1e-300%float) None = false /\
  TSMT_ApproxEqual.compare (Given 1e-300%float) (Given #0) None = false.
Proof. apply (compare_with_zero 1e-300 0.5); reflexivity. Defined.

Lemma ratio_from_a_point_to_itself :
  isFinite (ratio (pt 1 2) (pt 1 2) (pt 4 6)) = false.
Proof.
  apply (ratio_of_zero_length_segment (pt 1 2) (pt 4 6)). reflexivity.
Defined.

(** The segment from [(0, 0)] to [(-1, -0)]: its angle is [-180]. *)
Lemma angle_along_negative_zero :
  let p0 : Point snum := real_pt 0 0 in
  let p1 : Point snum := {| x := SReal (- 1); y := SNeg0 |} in
  let rad := angle p0 p1 (Some false) in
  let deg := angle p0 p1 None in
  (isFinite rad = true /\ - PI <= sreal rad <= PI /\
   isFinite deg = true /\ sreal deg = 180 * sreal rad / PI /\
   - 180 <= sreal deg <= 180 /\
   angle p0 p1 (Some true) = deg /\
   (sreal rad = - PI <->
    (p1.(y) = SNeg0 /\ p0.(y) = SReal 0) /\
    (sreal p1.(x) < sreal p0.(x) \/
     (p1.(x) = SNeg0 /\ p0.(x) = SReal 0))) /\
   (sreal rad = 0 <->
    sreal p1.(y) = sreal p0.(y) /\ sreal p0.(x) <= sreal p1.(x) /\
    ~ (p1.(x) = SNeg0 /\ p0.(x) = SReal 0)))%R.
Proof.
  exact (proj1 angle_range (real_pt 0 0) {| x := SReal (- 1); y := SNeg0 |}
           eq_refl eq_refl).
Defined.

Lemma isParallel_unit_segment_reversed :
  isParallel (real_pt 0 0) (real_pt 1 0) (real_pt 1 0) (real_pt 0 0) = false.
Proof.
  apply (isParallel_not_for_reversed_segment (real_pt 0 0) (real_pt 1 0));
    [reflexivity | reflexivity |].
  cbn. rewrite (Reqb_false 0 1) by lra. reflexivity.
Defined.

Lemma isParallel_unit_segment_doubled :
  isParallel (real_pt 0 0) (real_pt 1 1)
             (real_pt 5 7) (real_pt (5 + 2 * (1 - 0)) (7 + 2 * (1 - 0)))
  = true.
Proof.
  apply (proj2 isParallel_for_same_direction 0 0 1 1 5 7 2)%R. lra.
Defined.

Lemma isParallel_unit_segment_slope :
  isParallel (real_pt 0 0) (real_pt 1 0) (real_pt 0 0) (real_pt 1000000 1)
    = true <->
  (1 = 0 /\ 0 <= 1000000)%R.
Proof.
  apply (proj2 isParallel_with_horizontal 0 0 1 0 0 1000000 1)%R. lra.
Defined.

Lemma pointOnLine_three_four :
  pointOnLine (pt 0 0) (pt 3 4) (pt 0 0) = true /\
  pointOnLine (pt 0 0) (pt 3 4) (pt 3 4) = true /\
  pointOnLine (pt 0 0) (pt 0 0) (pt 1 1) =
    (Math_abs (1 - 0)%float <? dec 1 8) && (Math_abs (1 - 0)%float <? dec 1 8).
Proof.
  apply (pointOnLine_at_end_points (pt 0 0) (pt 3 4) (pt 1 1)); reflexivity.
Defined.

(** A point five units to the side of a vertical segment. *)
Lemma pointOnLine_beside_vertical_segment :
  pointOnLine (pt 0 0) (pt 0 1) (pt 5 0.5) = true.
Proof.
  apply (proj1 (pointOnLine_axis_parallel_ignores_offset 0 0 0 1 5 0.5));
    reflexivity.
Defined.

Lemma pointOnLine_middle :
  pointOnLine (fin 0 0) (fin 2 4)
              (fin (0 + 1 / 2 * (2 - 0)) (0 + 1 / 2 * (4 - 0))) = true.
Proof. apply (pointOnLine_complete 0 0 2 4 (1 / 2))%R. lra. Defined.

Lemma demo_cloud_numbers :
  Forall (fun p : Point float => isNaN p.(x) || isNaN p.(y) = false)
         (map point_of demo_cloud).
Proof. repeat constructor. Defined.

Lemma bottomLeft_demo_cloud :
  exists r R,
    bottomLeft ref_points demo_heap = (Ok r, demo_heap) /\
    map point_of demo_cloud !! r = Some R /\
    (forall j Q, map point_of demo_cloud !! j = Some Q ->
       (R.(y) <? Q.(y)) = true \/
       ((R.(y) ==? Q.(y)) = true /\ (R.(x) <=? Q.(x)) = true)) /\
    (forall j Q, (j < r)%nat -> map point_of demo_cloud !! j = Some Q ->
       (R.(y) <? Q.(y)) = true \/
       ((R.(y) ==? Q.(y)) = true /\ (R.(x) <? Q.(x)) = true)).
Proof.
  apply (bottomLeft_lowest_then_leftmost demo_heap ref_points
           (map point_of demo_cloud)).
  - reflexivity.
  - discriminate.
  - exact demo_cloud_numbers.
Defined.

Lemma bottomRight_demo_cloud :
  exists r R,
    bottomRight ref_points demo_heap = (Ok r, demo_heap) /\
    map point_of demo_cloud !! r = Some R /\
    (forall j Q, map point_of demo_cloud !! j = Some Q ->
       (R.(y) <? Q.(y)) = true \/
       ((R.(y) ==? Q.(y)) = true /\ (Q.(x) <=? R.(x)) = true)) /\
    (forall j Q, (j < r)%nat -> map point_of demo_cloud !! j = Some Q ->
       (R.(y) <? Q.(y)) = true \/
       ((R.(y) ==? Q.(y)) = true /\ (Q.(x) <? R.(x)) = true)).
Proof.
  apply (bottomRight_lowest_then_rightmost demo_heap ref_points
           (map point_of demo_cloud)).
  - reflexivity.
  - discriminate.
  - exact demo_cloud_numbers.
Defined.

Lemma scans_of_empty_scene :
  let h := scene (pt 0 5) (pt 10 5) [] in
  bottomLeft ref_points h = (Ok 0%nat, h) /\
  bottomRight ref_points h = (Ok 0%nat, h) /\
  closestPointToLine ref_points ref_p0 ref_p1 h = (Throw TypeError, h).
Proof.
  intros h.
  apply (proj1 (scans_of_short_clouds h ref_points ref_p0 ref_p1
                  (pt 0 5) (pt 10 5) eq_refl eq_refl)).
  reflexivity.
Defined.

Lemma pointToLineDistancee_unit :
  pointToLineDistancee (fin 0 0) (fin 1 0) (fin 0 1)
  = XFin (Rabs ((1 - 0) * (1 - 0) - (0 - 0) * (0 - 0))
          / sqrt ((1 - 0) * (1 - 0) + (0 - 0) * (0 - 0))).
Proof.
  apply (pointToLineDistancee_is_cross_over_length 0 0 1 0 0 1)%R.
  left. lra.
Defined.

Lemma pointToSegmentDistance_unit :
  let q := pointSegmentProjection (fin 0 0) (fin 1 0) (fin 3 4) in
  pointToSegmentDistance (fin 0 0) (fin 1 0) (fin 3 4)
  = l2Norm (Given (fin 3 4))
           (Given {| x := TSMT_Point.get_x q; y := TSMT_Point.get_y q |}).
Proof.
  apply (pointToSegmentDistance_to_projection 0 0 1 0 3 4)%R. lra.
Defined.

Lemma demo_line_squared_length :
  (1 / 100000000 <= (500 - 50) * (500 - 50) + (100 - 325) * (100 - 325))%R.
Proof. lra. Defined.

Lemma demo_cloud_finite :
  Forall finite_point (map point_of demo_cloud : list (Point xnum)).
Proof. repeat constructor. Defined.

Lemma reflect_demo_mirrors :
  exists out h' cloud',
    reflect ref_points ref_p0 ref_p1 demo_heap_exact = (Ok out, h') /\
    cloud_at h' out = Some cloud' /\
    Forall2 (fun p q => exists px py qx qy,
               p = fin px py /\ q = fin qx qy /\
               ((qx - px) * (500 - 50) + (qy - py) * (100 - 325) = 0)%R /\
               (((px + qx) / 2 - 50) * (100 - 325)
                 - ((py + qy) / 2 - 325) * (500 - 50) = 0)%R)
            (map point_of demo_cloud) cloud'.
Proof.
  apply (reflect_mirrors_in_the_line demo_heap_exact ref_points ref_p0 ref_p1
           50 325 500 100 (map point_of demo_cloud))%R.
  - reflexivity.
  - reflexivity.
  - reflexivity.
  - exact demo_cloud_finite.
  - exact demo_line_squared_length.
Defined.

Lemma reflect_demo_keeps_distances :
  exists out h' cloud',
    reflect ref_points ref_p0 ref_p1 demo_heap_exact = (Ok out, h') /\
    cloud_at h' out = Some cloud' /\
    forall i j p q p' q',
      map point_of demo_cloud !! i = Some p ->
      map point_of demo_cloud !! j = Some q ->
      cloud' !! i = Some p' -> cloud' !! j = Some q' ->
      l2Norm (Given p') (Given q') = l2Norm (Given p) (Given q).
Proof.
  apply (reflect_keeps_distances demo_heap_exact ref_points ref_p0 ref_p1
           50 325 500 100 (map point_of demo_cloud))%R.
  - reflexivity.
  - reflexivity.
  - reflexivity.
  - exact demo_cloud_finite.
  - exact demo_line_squared_length.
Defined.

(** The library the application loads (app.component.ts). *)
Lemma getExtension_of_the_library :
  getExtension (Given "assets/libs/point-libs.js") = SCRIPT.
Proof.
  exact (proj2 getExtension_by_first_dot "assets/libs/point-libs" "js"
           eq_refl).
Defined.

(** The host: only [constructor] of the names an object literal inherits
    matters for the instances below. *)
Lemma load_minified_after_the_application :
  let inherited := String.eqb "constructor" in
  let service :=
    ADT_LazyLoadLibs.loads inherited
      ["assets/libs/point-libs.js"; "assets/styles/container-styles.css"]
      ADT_LazyLoadLibs.new in
  ADT_LazyLoadLibs.load inherited "assets/libs/jquery.min.js" service
  = (Ok ADT_LazyLoadLibs.of_null, service).
Proof.
  intros inherited service.
  apply (load_skips_unknown_extension inherited
           ["assets/libs/point-libs.js"; "assets/styles/container-styles.css"]
           "assets/libs/jquery.min.js"); reflexivity.
Defined.

Lemma load_constructor_after_the_application :
  let inherited := String.eqb "constructor" in
  let service :=
    ADT_LazyLoadLibs.loads inherited
      ["assets/libs/point-libs.js"; "assets/styles/container-styles.css"]
      ADT_LazyLoadLibs.new in
  ADT_LazyLoadLibs.load inherited "constructor" service
  = (Throw TypeError, service).
Proof.
  intros inherited service.
  apply (load_throws_on_inherited_name inherited
           ["assets/libs/point-libs.js"; "assets/styles/container-styles.css"]
           "constructor"); reflexivity.
Defined.

(** Two clicks in the demo application. *)
Lemma onReflect_twice_demo :
  let this := {| AppComponent._pointCloud := ref_points;
                 AppComponent._x0 := XFin 50; AppComponent._y0 := XFin 325;
                 AppComponent._x1 := XFin 500;
                 AppComponent._y1 := XFin 100 |} in
  exists this1 h1 this2 h2,
    AppComponent.onReflect this demo_heap_exact
    = (Ok (this1,
           map (fun p => let q := householder (fin 50 325) (fin 500 100) p in
                         (q.(x), q.(y), XFin 3)) (map point_of demo_cloud)),
       h1) /\
    AppComponent.onReflect this1 h1
    = (Ok (this2, map (fun p : Point xnum => (p.(x), p.(y), XFin 3))
                      (map point_of demo_cloud)), h2) /\
    cloud_at h2 (AppComponent._pointCloud this2)
    = Some (map point_of demo_cloud) /\
    demo_heap_exact ⊆ h1 /\ h1 ⊆ h2.
Proof.
  apply (onReflect_twice_redraws_the_cloud demo_heap_exact ref_points
           50 325 500 100 (map point_of demo_cloud))%R.
  - reflexivity.
  - exact demo_cloud_finite.
  - exact demo_line_squared_length.
Defined.

End FurtherWitnesses.
